(** * Subtitle cue parser and aligner of tubearchivist

    Shallow embedding of [SubtitleParser] from
    [home/src/index/video.py]: the cue splitter ([_parse_cues],
    [_cue_cleaner]), the aligner ([_match_text_lines]), the id pass
    ([_add_id]), the timestamp normaliser ([_timestamp_check]) and the
    serialiser ([get_subtitle_str]).

    Conventions of the embedding:
    - a Python [str] is a list of characters; characters are code
      points below 256 ([ascii]);
    - a cue is a Python dict with the keys "lines", "start", "end" and
      "id"; a key that was never set is [None] in the record;
    - cue dicts are mutable objects shared between [parsed_cue_list] and
      [matched]: the cue list is the store, and [matched] holds
      positions in it, so that two entries of [matched] naming the same
      position are the same Python object;
    - a Python exception is a [Raise] result. *)

From Stdlib Require Import ZArith Lia Ascii String List Bool Arith.
From Stdlib Require Import DecimalString DecimalFacts DecimalNat.
From stdpp Require Import base list.
Import ListNotations.

Local Open Scope list_scope.
Local Open Scope bool_scope.
Local Open Scope nat_scope.

(** ** Python strings *)

Definition str := list ascii.

(** A string literal. *)
Definition txt (s : string) : str := list_ascii_of_string s.

Definition nl : ascii := ascii_of_nat 10.

(** A line break, a blank and a line break. *)
Definition nl_blank_nl : str := nl :: txt " " ++ [nl].

Module Py.

(** [s.startswith(p)] *)
Fixpoint startswith (p s : str) : bool :=
  match p, s with
  | [], _ => true
  | a :: p', b :: s' => Ascii.eqb a b && startswith p' s'
  | _ :: _, [] => false
  end.

Definition cons_head (c : ascii) (l : list str) : list str :=
  match l with
  | p :: ps => (c :: p) :: ps
  | [] => [[c]]
  end.

(** [s.split(sep)] for a non-empty [sep]: the occurrences of [sep]
    are taken leftmost first and do not overlap. [skip] counts the
    characters of an occurrence that are still to be passed over. *)
Fixpoint split_go (sep : str) (skip : nat) (s : str) : list str :=
  match s with
  | [] => [[]]
  | c :: s' =>
      match skip with
      | S k => split_go sep k s'
      | O =>
          if startswith sep s
          then [] :: split_go sep (length sep - 1) s'
          else cons_head c (split_go sep 0 s')
      end
  end.

Definition split (sep s : str) : list str := split_go sep 0 s.

(** The text [a] put in front of the first piece of [l]. *)
Definition prepend (a : str) (l : list str) : list str :=
  fold_right cons_head l a.

(** [s.replace(old, new)] for a non-empty [old]. *)
Fixpoint replace_go (old new : str) (skip : nat) (s : str) : str :=
  match s with
  | [] => []
  | c :: s' =>
      match skip with
      | S k => replace_go old new k s'
      | O =>
          if startswith old s
          then new ++ replace_go old new (length old - 1) s'
          else c :: replace_go old new 0 s'
      end
  end.

Definition replace (old new s : str) : str := replace_go old new 0 s.

(** [sep.join(l)] *)
Fixpoint join (sep : str) (l : list str) : str :=
  match l with
  | [] => []
  | [x] => x
  | x :: l' => x ++ sep ++ join sep l'
  end.

(** [c.isspace()] for a code point below 256. *)
Definition isspace (c : ascii) : bool :=
  let n := nat_of_ascii c in
  ((9 <=? n) && (n <=? 13)) || ((28 <=? n) && (n <=? 32))
  || (n =? 133) || (n =? 160).

Fixpoint lstrip (s : str) : str :=
  match s with
  | c :: s' => if isspace c then lstrip s' else s
  | [] => []
  end.

(** [s.strip()] *)
Definition strip (s : str) : str := rev (lstrip (rev (lstrip s))).

(** Truth value of a string: non-empty. *)
Definition truthy (s : str) : bool :=
  match s with [] => false | _ :: _ => true end.

Definition is_digit (c : ascii) : bool :=
  let n := nat_of_ascii c in (48 <=? n) && (n <=? 57).

#[global] Arguments join : simpl never.
#[global] Arguments is_digit : simpl never.
#[global] Arguments isspace : simpl never.

Definition digit_val (c : ascii) : Z := Z.of_nat (nat_of_ascii c) - 48.

(** [int(s)] for a string of ASCII digits; the empty string is a
    [ValueError] (rendered [None] here). Python's optional cap on the
    number of digits is not modelled. *)
Definition int_digits (s : str) : option Z :=
  match s with
  | [] => None
  | _ => Some (fold_left (fun acc c => 10 * acc + digit_val c)%Z s 0%Z)
  end.

(** [str(n)] for a non-negative int. *)
Definition str_of_nat (n : nat) : str :=
  list_ascii_of_string (NilEmpty.string_of_uint (Nat.to_uint n)).

(** [a == b] on strings. *)
Fixpoint str_eqb (a b : str) : bool :=
  match a, b with
  | [], [] => true
  | x :: a', y :: b' => Ascii.eqb x y && str_eqb a' b'
  | _, _ => false
  end.

(** [x in l] for a list of strings. *)
Definition contains (x : str) (l : list str) : bool :=
  existsb (str_eqb x) l.

(** [l[-n:]] *)
Definition last_n {A} (n : nat) (l : list A) : list A :=
  skipn (length l - n) l.

(** [l.remove(x)] where the [ValueError] of an absent [x] is caught
    and ignored: the first occurrence goes, an absent [x] changes
    nothing. *)
Fixpoint remove_first (x : str) (l : list str) : list str :=
  match l with
  | [] => []
  | y :: l' => if str_eqb x y then l' else y :: remove_first x l'
  end.

End Py.

(** ** The three regular expressions

    A matcher tries a pattern at the head of a string and gives the
    text it consumed and the rest. The optional colon [:?] is taken
    whenever it is there: what follows it in the patterns below is a
    digit or a dot, never a colon, so that Python's backtracking could
    not succeed where the greedy choice fails. *)

Module Re.

Definition matcher := str -> option (str * str).

Definition eps : matcher := fun s => Some ([], s).

Definition chr (p : ascii -> bool) : matcher := fun s =>
  match s with
  | c :: r => if p c then Some ([c], r) else None
  | [] => None
  end.

Definition seq (m1 m2 : matcher) : matcher := fun s =>
  match m1 s with
  | Some (a, r) =>
      match m2 r with
      | Some (b, r') => Some (a ++ b, r')
      | None => None
      end
  | None => None
  end.

Definition opt (m : matcher) : matcher := fun s =>
  match m s with
  | Some x => Some x
  | None => Some ([], s)
  end.

Fixpoint times (n : nat) (m : matcher) : matcher :=
  match n with
  | O => eps
  | S k => seq m (times k m)
  end.

Definition lit (t : str) : matcher :=
  fold_right (fun c m => seq (chr (Ascii.eqb c)) m) eps t.

Definition digit : matcher := chr Py.is_digit.

(** [[0-9]{2}:?] *)
Definition group : matcher := seq (times 2 digit) (opt (lit (txt ":"))).

(** [([0-9]{2}:?){3}\.[0-9]{3}] *)
Definition stamp : matcher :=
  seq (times 3 group) (seq (lit (txt ".")) (times 3 digit)).

(** [time_reg = ^([0-9]{2}:?){3}\.[0-9]{3} --> ([0-9]{2}:?){3}\.[0-9]{3}] *)
Definition time_reg : matcher :=
  seq stamp (seq (lit (txt " --> ")) stamp).

(** [stamp_reg = <([0-9]{2}:?){3}\.[0-9]{3}>] *)
Definition stamp_reg : matcher :=
  seq (lit (txt "<")) (seq stamp (lit (txt ">"))).

(** [tag_reg = </?c>] *)
Definition tag_reg : matcher :=
  seq (lit (txt "<")) (seq (opt (lit (txt "/"))) (lit (txt "c>"))).

(** [re.sub(pattern, "", s)] for a pattern without empty matches:
    leftmost matches, not overlapping, are cut out. *)
Fixpoint sub_go (m : matcher) (skip : nat) (s : str) : str :=
  match s with
  | [] => []
  | c :: s' =>
      match skip with
      | S k => sub_go m k s'
      | O =>
          match m s with
          | Some (_ :: w, _) => sub_go m (length w) s'
          | _ => c :: sub_go m 0 s'
          end
      end
  end.

Definition sub (m : matcher) (s : str) : str := sub_go m 0 s.

(** [re.sub("[^0-9]", "", s)] *)
Definition only_digits (s : str) : str := List.filter Py.is_digit s.

End Re.

(** ** Exceptions and results *)

Inductive exn := KeyError | IndexError | TypeError | ValueError.

Inductive result (A : Type) : Type :=
| Ok (a : A)
| Raise (e : exn).
Arguments Ok {A} a.
Arguments Raise {A} e.

Definition bind {A B} (r : result A) (k : A -> result B) : result B :=
  match r with
  | Ok a => k a
  | Raise e => Raise e
  end.

Notation "x <- e ;; k" := (bind e (fun x => k))
  (at level 100, e at next level, right associativity).

(** A [for] loop whose body may raise. *)
Fixpoint for_each {S A} (body : S -> A -> result S) (l : list A) (s : S)
  : result S :=
  match l with
  | [] => Ok s
  | a :: l' => s' <- body s a ;; for_each body l' s'
  end.

(** ** Cues and the parser object *)

Record cue := mk_cue {
  lines : list str;
  start : option str;
  end_ : option str;
  id_ : option nat
}.

Definition set_lines (c : cue) (l : list str) : cue :=
  mk_cue l (start c) (end_ c) (id_ c).
Definition set_start (c : cue) (s : str) : cue :=
  mk_cue (lines c) (Some s) (end_ c) (id_ c).
Definition set_end (c : cue) (e : str) : cue :=
  mk_cue (lines c) (start c) (Some e) (id_ c).
Definition set_id (c : cue) (n : nat) : cue :=
  mk_cue (lines c) (start c) (end_ c) (Some n).

(** [c["end"] = x] for [x] the result of a [.get]. *)
Definition put_end (c : cue) (x : option str) : cue :=
  mk_cue (lines c) (start c) x (id_ c).

(** [{"lines": []}] *)
Definition new_cue_dict : cue := mk_cue [] None None None.

#[global] Instance cue_inhabited : Inhabited cue := populate new_cue_dict.

Record parser := mk_parser {
  header : str;
  parsed_cue_list : list cue;
  all_text_lines : list str;
  matched : list nat
}.

Module SubtitleParser.

(** The two [re.sub] calls of [_cue_cleaner]. *)
Definition clean_line (line : str) : str :=
  Re.sub Re.tag_reg (Re.sub Re.stamp_reg line).

(** One turn of the loop over the lines of a cue block. *)
Definition cue_line (acc : cue * list str) (line : str)
  : result (cue * list str) :=
  let (cue_dict, q) := acc in
  match Re.time_reg line with
  | Some (clean, _) =>
      match Py.split (txt " --> ") clean with
      | [s; e] => Ok (set_end (set_start cue_dict s) e, q)
      | _ => Raise ValueError
      end
  | None =>
      let clean := clean_line line in
      let cue_dict := set_lines cue_dict (lines cue_dict ++ [clean]) in
      if Py.truthy (Py.strip clean) && negb (Py.contains clean (Py.last_n 4 q))
      then Ok (cue_dict, q ++ [clean])
      else Ok (cue_dict, q)
  end.

#[global] Arguments cue_line : simpl never.

(** [_cue_cleaner]: the cue text and the unique-line queue go in, the
    cue dict and the queue come out. *)
Definition _cue_cleaner (q : list str) (cue_text : str)
  : result (cue * list str) :=
  for_each cue_line (Py.split [nl] cue_text) (new_cue_dict, q).

Definition parse_block (acc : list cue * list str) (cue_text : str)
  : result (list cue * list str) :=
  let (cues, q) := acc in
  cq <- _cue_cleaner q cue_text ;;
  Ok (cues ++ [cq.1], cq.2).

Definition _parse_cues (subtitle_str : str) : result parser :=
  let all_cues :=
    Py.split [nl; nl] (Py.replace nl_blank_nl [nl] subtitle_str) in
  match all_cues with
  | [] => Raise IndexError
  | hd :: rest =>
      cq <- for_each parse_block rest ([], []) ;;
      Ok (mk_parser hd cq.1 cq.2 [])
  end.

(** [[i for i in parsed_cue_list if check in i["lines"]]], as
    positions in the cue list. *)
Definition matches_of (check : str) (cues : list cue) : list nat :=
  List.filter (fun i => Py.contains check (lines (cues !!! i)))
              (seq 0 (length cues)).

(** The [for line in new_cue["lines"]] loop. *)
Definition remove_lines (ls : list str) (q : list str) : list str :=
  fold_left (fun q line => Py.remove_first line q) ls q.

(** One turn of the [while] loop, with [check] the head of the queue. *)
Definition match_iter (st : parser) (check : str) : result parser :=
  let cues := parsed_cue_list st in
  let matches := matches_of check cues in
  match last matches, head matches with
  | Some new_cue, Some first =>
      match start (cues !!! first) with
      | Some s =>
          let cues' := <[new_cue := set_start (cues !!! new_cue) s]> cues in
          let q' := remove_lines (lines (cues' !!! new_cue)) (all_text_lines st) in
          Ok (mk_parser (header st) cues' q' (matched st ++ [new_cue]))
      | None => Raise KeyError
      end
  | _, _ => Raise IndexError
  end.

(** The [while self.all_text_lines] loop; [None] when [fuel] turns
    were not enough. *)
Fixpoint match_loop (fuel : nat) (st : parser) : option (result parser) :=
  match all_text_lines st with
  | [] => Some (Ok st)
  | check :: _ =>
      match fuel with
      | O => None
      | S fuel' =>
          match match_iter st check with
          | Ok st' => match_loop fuel' st'
          | Raise e => Some (Raise e)
          end
      end
  end.

(** [_match_text_lines]: every turn of the loop shortens the queue
    ([match_iter_shorter]), so that as many turns as the queue is long
    always suffice ([match_loop_enough]) and the last case below is
    never taken. *)
Definition _match_text_lines (st : parser) : result parser :=
  let st0 := mk_parser (header st) (parsed_cue_list st) (all_text_lines st) [] in
  match match_loop (length (all_text_lines st0)) st0 with
  | Some r => r
  | None => Ok st0
  end.

(** [_add_id] *)
Fixpoint add_id_loop (idx : nat) (todo : list nat) (cues : list cue)
  : list cue :=
  match todo with
  | [] => cues
  | r :: todo' =>
      add_id_loop (S idx) todo' (<[r := set_id (cues !!! r) (idx + 1)]> cues)
  end.

Definition _add_id (st : parser) : parser :=
  mk_parser (header st) (add_id_loop 0 (matched st) (parsed_cue_list st))
            (all_text_lines st) (matched st).

(** [int(re.sub("[^0-9]", "", x))] for [x] the result of a [.get]. *)
Definition stamp_int (x : option str) : result Z :=
  match x with
  | None => Raise TypeError
  | Some s =>
      match Py.int_digits (Re.only_digits s) with
      | Some z => Ok z
      | None => Raise ValueError
      end
  end.

(** One turn of the loop of [_timestamp_check], at position [idx] of
    [matched], which holds [r]. *)
Definition ts_step (m : list nat) (cues : list cue) (idx_r : nat * nat)
  : result (list cue) :=
  let (idx, r) := idx_r in
  e <- stamp_int (end_ (cues !!! r)) ;;
  match m !! (idx + 1) with
  | None => Ok cues
  | Some next_cue =>
      start_next <- stamp_int (start (cues !!! next_cue)) ;;
      if (e >? start_next)%Z
      then Ok (<[r := put_end (cues !!! r) (start (cues !!! next_cue))]> cues)
      else Ok cues
  end.

#[global] Arguments ts_step : simpl never.

Definition enumerate {A} (l : list A) : list (nat * A) :=
  combine (seq 0 (length l)) l.

Definition _timestamp_check (st : parser) : result parser :=
  cues <- for_each (ts_step (matched st)) (enumerate (matched st))
                   (parsed_cue_list st) ;;
  Ok (mk_parser (header st) cues (all_text_lines st) (matched st)).

(** [process] *)
Definition process (subtitle_str : str) : result parser :=
  st <- _parse_cues subtitle_str ;;
  st <- _match_text_lines st ;;
  _timestamp_check (_add_id st).

(** How an f-string shows the result of a [.get]. *)
Definition show_str (x : option str) : str :=
  match x with Some s => s | None => txt "None" end.
Definition show_id (x : option nat) : str :=
  match x with Some n => Py.str_of_nat n | None => txt "None" end.

Definition cue_text (c : cue) : str :=
  let timestamp := show_str (start c) ++ txt " --> " ++ show_str (end_ c) in
  let ls := Py.join [nl] (lines c) in
  show_id (id_ c) ++ [nl] ++ timestamp ++ [nl] ++ ls ++ [nl; nl].

(** [get_subtitle_str] *)
Definition get_subtitle_str (st : parser) : str :=
  fold_left (fun acc r => acc ++ cue_text (parsed_cue_list st !!! r))
            (matched st) (header st ++ [nl; nl]).

End SubtitleParser.

Import SubtitleParser.

(** ** Vocabulary of the statements *)

(** A line that passes [clean.strip()]. *)
Definition nonblank (l : str) : Prop := Py.truthy (Py.strip l) = true.

(** A cue that has a line the queue would accept. *)
Definition has_text (c : cue) : Prop := exists l, In l (lines c) /\ nonblank l.

(** The texts [[0-9]{2}:?] matches. *)
Definition is_group (a : str) : Prop :=
  exists d1 d2, Py.is_digit d1 = true /\ Py.is_digit d2 = true /\
    (a = [d1; d2] \/ a = [d1; d2] ++ txt ":").

(** The texts [([0-9]{2}:?){3}\.[0-9]{3}] matches: three groups of two
    digits, each followed by a colon or by nothing, a dot and three
    digits. *)
Definition is_stamp (a : str) : Prop :=
  exists g1 g2 g3 d1 d2 d3,
    is_group g1 /\ is_group g2 /\ is_group g3 /\
    Py.is_digit d1 = true /\ Py.is_digit d2 = true /\ Py.is_digit d3 = true /\
    a = g1 ++ g2 ++ g3 ++ txt "." ++ [d1; d2; d3].

(** The integer a timestamp is compared by, when it has one. *)
Definition num (x : option str) : option Z :=
  match x with
  | Some s => Py.int_digits (Re.only_digits s)
  | None => None
  end.

(** A cue whose "start" and "end" both compare as integers. *)
Definition timed (c : cue) : Prop :=
  (exists s, num (start c) = Some s) /\ (exists e, num (end_ c) = Some e).

(** A cue as the splitter leaves it: without timestamps, or with the
    two of a timestamp line. *)
Definition stamped (c : cue) : Prop :=
  (start c = None /\ end_ c = None) \/
  (exists a b, start c = Some a /\ end_ c = Some b /\ is_stamp a /\ is_stamp b).

(** Every pending line occurs in the lines of some cue. *)
Definition covered (cues : list cue) (q : list str) : Prop :=
  forall x, In x q -> exists i, i < length cues /\ In x (lines (cues !!! i)).

(** Every cue with a line the queue would accept has its timestamps. *)
Definition texts_timed (cues : list cue) : Prop :=
  forall i, i < length cues -> has_text (cues !!! i) -> timed (cues !!! i).

(** What holds of the parser object throughout the matching loop when
    every cue with text has its timestamps. *)
Definition align_inv (st : parser) : Prop :=
  covered (parsed_cue_list st) (all_text_lines st) /\
  (forall x, In x (all_text_lines st) -> nonblank x) /\
  texts_timed (parsed_cue_list st) /\
  (forall r, In r (matched st) ->
     r < length (parsed_cue_list st) /\ has_text (parsed_cue_list st !!! r)).

(** No entry of [matched] ends after the next one starts. *)
Definition adjacent_ok (cues : list cue) (m : list nat) : Prop :=
  forall j r r', m !! j = Some r -> m !! (S j) = Some r' ->
    exists e s, num (end_ (cues !!! r)) = Some e /\
                num (start (cues !!! r')) = Some s /\ (e <= s)%Z.

(** The same for the entries before position [k]. *)
Definition adjacent_upto (k : nat) (cues : list cue) (m : list nat) : Prop :=
  forall j r r', j < k -> m !! j = Some r -> m !! (S j) = Some r' ->
    exists e s, num (end_ (cues !!! r)) = Some e /\
                num (start (cues !!! r')) = Some s /\ (e <= s)%Z.

(** The ids of the matched cues, in output order. *)
Definition ids_of (st : parser) : list (option nat) :=
  map (fun r => id_ (parsed_cue_list st !!! r)) (matched st).

(** The matched cues, in output order. *)
Definition matched_cues (st : parser) : list cue :=
  map (fun r => parsed_cue_list st !!! r) (matched st).

(** The matched cues are as many as the lines the queue accepted. *)
Definition alignment_complete (subtitle_str : str) : Prop :=
  forall st st', _parse_cues subtitle_str = Ok st ->
    _match_text_lines st = Ok st' ->
    length (matched st') = length (all_text_lines st).

(** The start of [c] is not later than the start of any cue of [src]
    that has the line [x]. *)
Definition starts_earliest (src : list cue) (x : str) (c : cue) : Prop :=
  forall i z z', i < length src -> In x (lines (src !!! i)) ->
    num (start (src !!! i)) = Some z' -> num (start c) = Some z ->
    (z <= z')%Z.

(** A line the serialiser can write and the splitter reads back whole:
    not empty, without a line break, and not a single blank. *)
Definition plain (l : str) : Prop := l <> [] /\ ~ In nl l /\ l <> txt " ".

(** A block of such lines. *)
Definition block_ok (ls : list str) : Prop := ls <> [] /\ Forall plain ls.

(** The text of blocks that each end in an empty line. *)
Definition blocks_text (bs : list (list str)) : str :=
  concat (map (fun ls => Py.join [nl] ls ++ [nl; nl]) bs).

Definition header_ok (hd : str) : Prop :=
  exists hls, block_ok hls /\ hd = Py.join [nl] hls.

(** A matched cue ready to be written: an id, two timestamps, and one
    line that is plain, is not a timestamp line, and has no markup
    left to strip. *)
Definition serial_ok (c : cue) : Prop :=
  (exists n, id_ c = Some n) /\
  (exists a, start c = Some a /\ is_stamp a) /\
  (exists b, end_ c = Some b /\ is_stamp b) /\
  exists l, lines c = [l] /\ plain l /\ Re.time_reg l = None /\ clean_line l = l.

(** What the splitter makes of the block written for [c]: the id line
    is read as a first text line, and no id is set. *)
Definition reparsed (c : cue) : cue :=
  mk_cue (show_id (id_ c) :: lines c) (start c) (end_ c) None.

(** The block the serialiser writes for a cue, as lines. *)
Definition block_of (c : cue) : list str :=
  [show_id (id_ c); show_str (start c) ++ txt " --> " ++ show_str (end_ c)]
  ++ lines c.

(** What the splitter makes of the empty block after the last cue. *)
Definition trailing_cue : cue := mk_cue [[]] None None None.

(** Two cues with the same timestamps and line text. *)
Definition same_cue (c c' : cue) : Prop :=
  lines c = lines c' /\ start c = start c' /\ end_ c = end_ c'.

Definition same_cue_set (l l' : list cue) : Prop :=
  (forall c, In c l -> exists c', In c' l' /\ same_cue c c') /\
  (forall c', In c' l' -> exists c, In c l /\ same_cue c c').

(** How often [x] is in the queue. *)
Definition occurrences (x : str) (q : list str) : nat :=
  length (List.filter (Py.str_eqb x) q).

(** The cue blocks [_parse_cues] hands to [_cue_cleaner]: [all_cues[1:]]. *)
Definition cue_blocks (subtitle_str : str) : list str :=
  tail (Py.split [nl; nl] (Py.replace nl_blank_nl [nl] subtitle_str)).

(** A line that is not a timestamp line. *)
Definition is_text (line : str) : bool :=
  match Re.time_reg line with Some _ => false | None => true end.

(** A cue block with a text line the queue would accept, and a cue
    block with a timestamp line. *)
Definition block_has_text (b : str) : Prop :=
  exists line, In line (Py.split [nl] b) /\ Re.time_reg line = None /\
               nonblank (clean_line line).

Definition block_has_time (b : str) : Prop :=
  exists line, In line (Py.split [nl] b) /\ Re.time_reg line <> None.

(** The queue [q] after lines that are timestamp lines or clean to [x]. *)
Definition queue_after (x : str) (ls : list str) (q : list str) : list str :=
  if existsb is_text ls && negb (Py.contains x (Py.last_n 4 q))
  then q ++ [x] else q.

(** ** Inputs used below *)

Definition unlines (l : list string) : str := Py.join [nl] (map txt l).

(** Scenario A of the specification. *)
Definition scenario_A : str :=
  unlines ["WEBVTT"; "";
           "00:00:01.000 --> 00:00:03.000"; "Hello"; "";
           "00:00:02.500 --> 00:00:05.000"; "Hello"; "World"]%string.

(** What the splitter makes of Scenario A (see [scenario_A_parsed]). *)
Definition scenario_A_cues : parser :=
  mk_parser (txt "WEBVTT")
    [mk_cue [txt "Hello"] (Some (txt "00:00:01.000"))
            (Some (txt "00:00:03.000")) None;
     mk_cue [txt "Hello"; txt "World"] (Some (txt "00:00:02.500"))
            (Some (txt "00:00:05.000")) None]
    [txt "Hello"; txt "World"] [].

(** A line that comes back after more than four other lines. *)
Definition recurring : str :=
  unlines ["WEBVTT"; "";
           "00:00:01.000 --> 00:00:02.000"; "X"; "";
           "00:00:02.000 --> 00:00:03.000"; "A"; "";
           "00:00:03.000 --> 00:00:04.000"; "B"; "";
           "00:00:04.000 --> 00:00:05.000"; "C"; "";
           "00:00:05.000 --> 00:00:06.000"; "D"; "";
           "00:00:06.000 --> 00:00:07.000"; "X"]%string.

(** Two cues with the same line, the later one first. *)
Definition unordered : str :=
  unlines ["WEBVTT"; "";
           "00:00:05.000 --> 00:00:06.000"; "A"; "";
           "00:00:01.000 --> 00:00:02.000"; "A"]%string.

(** Five consecutive cues that all show X above four other lines. *)
Definition five_cues : str :=
  unlines ["WEBVTT"; "";
           "00:00:01.000 --> 00:00:02.000"; "X"; "A"; "B"; "C"; "D"; "";
           "00:00:02.000 --> 00:00:03.000"; "X"; "A"; "B"; "C"; "D"; "";
           "00:00:03.000 --> 00:00:04.000"; "X"; "A"; "B"; "C"; "D"; "";
           "00:00:04.000 --> 00:00:05.000"; "X"; "A"; "B"; "C"; "D"; "";
           "00:00:05.000 --> 00:00:06.000"; "X"; "A"; "B"; "C"; "D"]%string.

(** Five consecutive cues whose only text line is X. *)
Definition five_same : str :=
  unlines ["WEBVTT"; "";
           "00:00:01.000 --> 00:00:02.000"; "X"; "";
           "00:00:02.000 --> 00:00:03.000"; "X"; "";
           "00:00:03.000 --> 00:00:04.000"; "X"; "";
           "00:00:04.000 --> 00:00:05.000"; "X"; "";
           "00:00:05.000 --> 00:00:06.000"; "X"]%string.

(** A cue block with a text line and no timestamp line. *)
Definition no_timestamp : str := unlines ["WEBVTT"; ""; "Hello"]%string.

(** Scenario D: an end of 00:00:10.000 before a start of 00:00:08.000. *)
Definition scenario_D : parser :=
  mk_parser (txt "WEBVTT")
    [mk_cue [txt "one"] (Some (txt "00:00:05.000"))
            (Some (txt "00:00:10.000")) (Some 1);
     mk_cue [txt "two"] (Some (txt "00:00:08.000"))
            (Some (txt "00:00:12.000")) (Some 2)]
    [] [0; 1].

(** One matched cue, with its id. *)
Definition one_cue : parser :=
  mk_parser (txt "WEBVTT")
    [mk_cue [txt "Hello"] (Some (txt "00:00:01.000"))
            (Some (txt "00:00:03.000")) (Some 1)]
    [] [0].

(** ** Further vocabulary *)

(** No queue entry equals one of the four entries before it. *)
Definition window_ok (q : list str) : Prop :=
  forall i j x, i < j -> j <= i + 4 -> q !! i = Some x -> q !! j <> Some x.

(** A "start", or an "end", that is unset or a timestamp. *)
Definition stamp_or_unset (x : option str) : Prop :=
  x = None \/ exists a, x = Some a /\ is_stamp a.


(** A value of "start" or "end" that compares as an integer. *)
Definition parsable (x : option str) : Prop := exists z, num x = Some z.


(** A line that is a timestamp line. *)
Definition is_time (line : str) : bool := negb (is_text line).

(** ** The video object, as the subtitle code reads it *)

Record channel_data := mk_channel_data {
  channel_name : option str;
  channel_id : option str }.

(** The value under ["channel"] of [json_data]: the key may be missing,
    and a channel that could not be built leaves [False]. *)
Inductive channel_slot :=
| NoChannel
| FalseChannel
| Channel (c : channel_data).

Record json_data := mk_json_data {
  title : option str;
  channel : channel_slot;
  published : option str;
  json_youtube_id : option str;
  media_url : option str }.

(** A format dict of [youtube_meta]: the keys the code reads or sets. *)
Record format := mk_format {
  f_ext : option str;
  f_url : option str;
  f_lang : option str;
  f_source : option str;
  f_media_url : option str }.

(** [config["downloads"]] and [config["application"]["videos"]], the
    two subtitle dicts of [youtube_meta] (a dict keeps the order in
    which its keys came), and [json_data]. *)
Record video := mk_video {
  youtube_id : str;
  json : json_data;
  conf_subtitle : option str;
  conf_subtitle_source : option str;
  conf_subtitle_index : bool;
  conf_videos : str;
  meta_subtitles : option (list (str * list format));
  meta_automatic_captions : option (list (str * list format)) }.

Definition set_json (v : video) (j : json_data) : video :=
  mk_video (youtube_id v) j (conf_subtitle v) (conf_subtitle_source v)
    (conf_subtitle_index v) (conf_videos v) (meta_subtitles v)
    (meta_automatic_captions v).
Definition set_meta_subtitles (v : video) (d : list (str * list format)) : video :=
  mk_video (youtube_id v) (json v) (conf_subtitle v) (conf_subtitle_source v)
    (conf_subtitle_index v) (conf_videos v) (Some d)
    (meta_automatic_captions v).
Definition set_meta_automatic_captions (v : video)
    (d : list (str * list format)) : video :=
  mk_video (youtube_id v) (json v) (conf_subtitle v) (conf_subtitle_source v)
    (conf_subtitle_index v) (conf_videos v) (meta_subtitles v) (Some d).

(** ** Python dicts with string keys *)

Module Dict.
Section dict.
Context {V : Type}.

Definition keys (d : list (str * V)) : list str := map fst d.

(** [d.get(k)] *)
Fixpoint get (k : str) (d : list (str * V)) : option V :=
  match d with
  | [] => None
  | (k', v) :: d' => if Py.str_eqb k k' then Some v else get k d'
  end.

(** [d.pop(k)]: the value and what is left, or nothing where Python
    raises [KeyError]. *)
Fixpoint pop (k : str) (d : list (str * V)) : option (V * list (str * V)) :=
  match d with
  | [] => None
  | (k', v) :: d' =>
      if Py.str_eqb k k' then Some (v, d')
      else match pop k d' with
           | Some (x, d'') => Some (x, (k', v) :: d'')
           | None => None
           end
  end.

(** [d[k] = v]: in its place when the key is there, at the end when it
    is new. *)
Fixpoint set_item (k : str) (v : V) (d : list (str * V)) : list (str * V) :=
  match d with
  | [] => [(k, v)]
  | (k', v') :: d' =>
      if Py.str_eqb k k' then (k', v) :: d' else (k', v') :: set_item k v d'
  end.

End dict.
End Dict.
(** ** The bulk import of the matched cues *)

(** The inner dict of [{"index": {"_index": ..., "_id": ...}}]. *)
Record action := mk_action { _index : str; _id : str }.

(** The document dict. Its first seven keys are set when it is built;
    the other five are absent until the first [update]. *)
Record document := mk_document {
  doc_youtube_id : str;
  doc_title : option str;
  subtitle_channel : option str;
  subtitle_channel_id : option str;
  subtitle_last_refresh : Z;
  subtitle_lang : option str;
  subtitle_source : str;
  subtitle_fragment_id : option str;
  subtitle_start : option (option str);
  subtitle_end : option (option str);
  subtitle_index : option (option nat);
  subtitle_line : option str }.

(** [json.dumps] on the two kinds of dict it is given. *)
Record json_dumps := mk_json_dumps {
  dumps_action : action -> str;
  dumps_document : document -> str }.

(** The method returns the query string, or stops on the [.get] of a
    channel that is no dict. *)
Inductive bulk := Query (query_str : str) | AttributeError.

Definition document_id (v : video) (lang : option str)
    (match_id : option nat) : str :=
  youtube_id v ++ txt "-" ++ show_str lang ++ txt "-" ++ show_id match_id.

(** [document.update({...})]: the one dict of the loop, five keys
    overwritten. *)
Definition update_document (doc : document) (did : str) (c : cue) : document :=
  mk_document (doc_youtube_id doc) (doc_title doc) (subtitle_channel doc)
    (subtitle_channel_id doc) (subtitle_last_refresh doc) (subtitle_lang doc)
    (subtitle_source doc)
    (Some did) (Some (start c)) (Some (end_ c)) (Some (id_ c))
    (Some (Py.join (txt " ") (lines c))).

(** The body of [for match in self.matched], on the bulk list and the
    document. *)
Definition bulk_step (J : json_dumps) (v : video) (lang : option str)
    (st : parser) (acc : list str * document) (r : nat) : list str * document :=
  let c := parsed_cue_list st !!! r in
  let did := document_id v lang (id_ c) in
  let doc := update_document acc.2 did c in
  (acc.1 ++ [dumps_action J (mk_action (txt "ta_subtitle") did);
             dumps_document J doc], doc).

(** [create_bulk_import]; [now] is [int(datetime.now().strftime("%s"))]
    and [lang] is [self.lang]. *)
Definition create_bulk_import (J : json_dumps) (now : Z) (lang : option str)
    (st : parser) (v : video) (source : str) : bulk :=
  match channel (json v) with
  | NoChannel | FalseChannel => AttributeError
  | Channel ch =>
      let doc := mk_document (youtube_id v) (title (json v))
                   (channel_name ch) (channel_id ch) now lang source
                   None None None None None in
      let bulk_list := (fold_left (bulk_step J v lang st) (matched st)
                          ([], doc)).1 in
      Query (Py.join [nl] (bulk_list ++ [[nl]]))
  end.

(** The two JSON lines of one cue, computed from that cue alone. *)
Definition entry_of (J : json_dumps) (now : Z) (lang : option str)
    (v : video) (source : str) (ch : channel_data) (c : cue)
    : list str :=
  let did := document_id v lang (id_ c) in
  [dumps_action J (mk_action (txt "ta_subtitle") did);
   dumps_document J
     (mk_document (youtube_id v) (title (json v)) (channel_name ch)
        (channel_id ch) now lang source
        (Some did) (Some (start c)) (Some (end_ c)) (Some (id_ c))
        (Some (Py.join (txt " ") (lines c))))].

(** The [_id]s of the bulk request, in order. *)
Definition bulk_ids (v : video) (lang : option str) (st : parser)
    : list str :=
  map (fun c => document_id v lang (id_ c)) (matched_cues st).

(** A json encoder for the examples: the [_id] for an action, the line
    for a document. *)
Definition json_lines : json_dumps :=
  mk_json_dumps _id (fun d => show_str (subtitle_line d)).

Definition channel_A : channel_data :=
  mk_channel_data (Some (txt "A channel")) (Some (txt "UC123")).

Definition formats_A : list format :=
  [mk_format (Some (txt "json3")) (Some (txt "https://sub/en.json3")) None None None;
   mk_format (Some (txt "vtt")) (Some (txt "https://sub/en.vtt")) None None None].

Definition video_A : video :=
  mk_video (txt "dQw4w9WgXcQ")
    (mk_json_data (Some (txt "A title")) (Channel channel_A)
       (Some (txt "2021-05-01")) (Some (txt "dQw4w9WgXcQ"))
       (Some (txt "UC123/20210501_dQw4w9WgXcQ_A title.mp4")))
    (Some (txt "en, de")) (Some (txt "auto")) true (txt "/youtube")
    (Some [(txt "en-US", formats_A); (txt "live_chat", [])])
    (Some [(txt "de", formats_A)]).
(** ** [YoutubeSubtitle] *)

Module YoutubeSubtitle.

(** [self.video.config["downloads"]["subtitle_source"] == "auto"] *)
Definition source_is_auto (v : video) : bool :=
  match conf_subtitle_source v with
  | Some s => Py.str_eqb s (txt "auto")
  | None => false
  end.

(** [sub_conf_parse]: the value of [self.languages] after the call,
    [None] for [False]. *)
Definition sub_conf_parse (v : video) (languages : option (list str))
    : option (list str) :=
  match conf_subtitle v with
  | Some languages_raw =>
      if Py.truthy languages_raw
      then Some (map Py.strip (Py.split (txt ",") languages_raw))
      else languages
  | None => languages
  end.

(** One turn of the loop of [_normalize_lang], on the dict. *)
Definition normalize_key (all_subtitles : list (str * list format))
    (key : str) : result (list (str * list format)) :=
  match Py.split (txt "-") key with
  | [] => Raise IndexError
  | lang :: _ =>
      match Dict.pop key all_subtitles with
      | None => Raise KeyError
      | Some (old, d) =>
          if Py.str_eqb lang (txt "live_chat") then Ok d
          else Ok (Dict.set_item lang old d)
      end
  end.

(** [_normalize_lang]: the video with its dict as the loop leaves it,
    and the value returned, [None] for [False]. *)
Definition _normalize_lang (v : video)
    : result (video * option (list (str * list format))) :=
  match meta_subtitles v with
  | None | Some [] => Ok (v, None)
  | Some all_subtitles =>
      d <- for_each normalize_key (Dict.keys all_subtitles) all_subtitles ;;
      Ok (set_meta_subtitles v d, Some d)
  end.

(** [[i for i in all_formats if i["ext"] == "vtt"]], each with its
    position in [all_formats]. *)
Fixpoint vtt_formats (all_formats : list format) (i : nat)
    : result (list (nat * format)) :=
  match all_formats with
  | [] => Ok []
  | f :: rest =>
      match f_ext f with
      | None => Raise KeyError
      | Some e =>
          l <- vtt_formats rest (S i) ;;
          Ok (if Py.str_eqb e (txt "vtt") then (i, f) :: l else l)
      end
  end.

(** [subtitle.update({"lang": ..., "source": ..., "media_url": ...})] *)
Definition update_format (f : format) (lang source media_url : str) : format :=
  mk_format (f_ext f) (f_url f) (Some lang) (Some source) (Some media_url).

(** The last lines of [get_user_subtitles] and of [get_auto_caption]:
    the first vtt format, updated where it stands in its list. *)
Definition take_vtt (all_formats : list format) (lang source media_url : str)
    : result (format * list format) :=
  l <- vtt_formats all_formats 0 ;;
  match l with
  | [] => Raise IndexError
  | (p, f) :: _ =>
      let subtitle := update_format f lang source media_url in
      Ok (subtitle, <[p := subtitle]> all_formats)
  end.

(** [video_media_url.replace(".mp4", f"-{lang}.vtt")] *)
Definition subtitle_media_url (video_media_url lang : str) : str :=
  Py.replace (txt ".mp4") (txt "-" ++ lang ++ txt ".vtt") video_media_url.

(** [get_user_subtitles]: the video after the call and the format
    returned, [None] for [False]. *)
Definition get_user_subtitles (v : video) (lang : str)
    : result (video * option format) :=
  r <- _normalize_lang v ;;
  match r.2 with
  | None | Some [] => Ok (r.1, None)
  | Some all_subtitles =>
      match media_url (json r.1) with
      | None => Raise KeyError
      | Some video_media_url =>
          let media_url := subtitle_media_url video_media_url lang in
          match Dict.get lang all_subtitles with
          | None | Some [] => Ok (r.1, None)
          | Some all_formats =>
              s <- take_vtt all_formats lang (txt "user") media_url ;;
              Ok (set_meta_subtitles r.1
                    (Dict.set_item lang s.2 all_subtitles), Some s.1)
          end
      end
  end.

(** [get_auto_caption] *)
Definition get_auto_caption (v : video) (lang : str)
    : result (video * option format) :=
  match meta_automatic_captions v with
  | None | Some [] => Ok (v, None)
  | Some all_subtitles =>
      match media_url (json v) with
      | None => Raise KeyError
      | Some video_media_url =>
          let media_url := subtitle_media_url video_media_url lang in
          match Dict.get lang all_subtitles with
          | None | Some [] => Ok (v, None)
          | Some all_formats =>
              s <- take_vtt all_formats lang (txt "auto") media_url ;;
              Ok (set_meta_automatic_captions v
                    (Dict.set_item lang s.2 all_subtitles), Some s.1)
          end
      end
  end.

(** The body of [for lang in self.languages], on the video and
    [relevant_subtitles]. *)
Definition lang_step (acc : video * list format) (lang : str)
    : result (video * list format) :=
  r <- get_user_subtitles acc.1 lang ;;
  match r.2 with
  | Some user_sub => Ok (r.1, acc.2 ++ [user_sub])
  | None =>
      if source_is_auto r.1
      then
        r' <- get_auto_caption r.1 lang ;;
        match r'.2 with
        | Some auto_cap => Ok (r'.1, acc.2 ++ [auto_cap])
        | None => Ok (r'.1, acc.2)
        end
      else Ok (r.1, acc.2)
  end.

(** [get_subtitles], from the value [self.languages] has before the
    call: the video after it and the list returned, [None] for
    [False]. *)
Definition get_subtitles (v : video) (languages : option (list str))
    : result (video * option (list format)) :=
  match sub_conf_parse v languages with
  | None | Some [] => Ok (v, None)
  | Some ls =>
      r <- for_each lang_step ls (v, []) ;;
      Ok (r.1, Some r.2)
  end.

End YoutubeSubtitle.

Import YoutubeSubtitle.
(** ** Vocabulary for the language keys *)

(** The part of [s] before its first [c0]. *)
Fixpoint before (c0 : ascii) (s : str) : str :=
  match s with
  | [] => []
  | c :: s' => if Ascii.eqb c0 c then [] else c :: before c0 s'
  end.

(** The language of a key: ["en"] for ["en-US"]. *)
Definition lang_of (key : str) : str := before "-"%char key.

(** A key that is its own language and is not ["live_chat"]. *)
Definition is_lang (k : str) : bool :=
  Py.str_eqb (lang_of k) k && negb (Py.str_eqb k (txt "live_chat")).

(** The entries of [d] under a country specific key of language [L]. *)
Definition variants {V} (L : str) (d : list (str * V)) : list (str * V) :=
  List.filter (fun kv => Py.str_eqb (lang_of kv.1) L && negb (Py.str_eqb kv.1 L)) d.

(** What the loop of [_normalize_lang] has under [k] when the entries
    [P] are done and the entries [R] are to come. *)
Definition value_after {V} (P R : list (str * V)) (k : str) : option V :=
  if is_lang k
  then match last (variants k P) with
       | Some kv => Some kv.2
       | None => Dict.get k (P ++ R)
       end
  else Dict.get k R.

(** What [_normalize_lang] leaves under [L]: the formats of the last
    country specific key of the language when there is one, those of
    the plain key otherwise. *)
Definition normalized_value {V} (d : list (str * V)) (L : str) : option V :=
  if is_lang L
  then match last (variants L d) with
       | Some kv => Some kv.2
       | None => Dict.get L d
       end
  else None.

(** A format whose extension is ["vtt"]. *)
Definition is_vtt (f : format) : Prop := f_ext f = Some (txt "vtt").

(** What a subtitle call leaves alone on the video. *)
Definition same_conf (v v' : video) : Prop :=
  json v' = json v /\ conf_subtitle v' = conf_subtitle v /\
  conf_subtitle_source v' = conf_subtitle_source v.

(** What [get_subtitles] returns for a video [v]: a vtt format, marked
    with its language, its source and the path of its file. *)
Definition relevant (v : video) (s : format) : Prop :=
  is_vtt s /\
  (f_source s = Some (txt "user") \/
   (f_source s = Some (txt "auto") /\ source_is_auto v = true)) /\
  exists lang mu, f_lang s = Some lang /\ media_url (json v) = Some mu /\
    f_media_url s = Some (subtitle_media_url mu lang).

(** ** [add_file_path] *)

(** [os.path.join(a, b)] as [posixpath] has it. *)
Definition path_join (a b : str) : str :=
  if Py.startswith (txt "/") b then b
  else match last a with
       | None => a ++ b
       | Some c => if Ascii.eqb c "/"%char then a ++ b else a ++ txt "/" ++ b
       end.

Definition set_media_url (j : json_data) (m : str) : json_data :=
  mk_json_data (title j) (channel j) (published j) (json_youtube_id j) (Some m).

(** [add_file_path]. [clean_string] is the helper of [home.src.ta]
    that the module imports; it is given a string and gives one. *)
Definition add_file_path (clean_string : str -> str) (v : video) : result video :=
  match channel (json v) with
  | NoChannel => Raise KeyError
  | FalseChannel => Raise TypeError
  | Channel ch =>
      match channel_name ch with
      | None => Raise KeyError
      | Some name =>
          clean_channel_name <-
            (if length (clean_string name) <=? 3
             then match channel_id ch with
                  | Some i => Ok i
                  | None => Raise KeyError
                  end
             else Ok (clean_string name)) ;;
          match published (json v) with
          | None => Raise KeyError
          | Some p =>
              let timestamp := Py.replace (txt "-") [] p in
              match json_youtube_id (json v) with
              | None => Raise KeyError
              | Some yid =>
                  match title (json v) with
                  | None => Raise KeyError
                  | Some t =>
                      let clean_title := clean_string t in
                      let filename :=
                        timestamp ++ txt "_" ++ yid ++ txt "_" ++
                        clean_title ++ txt ".mp4" in
                      Ok (set_json v
                            (set_media_url (json v)
                               (path_join clean_channel_name filename)))
                  end
              end
          end
      end
  end.

(** ** [download_subtitles] *)

(** What the method does to the world: the files it writes and the
    bulk requests it posts, in order. *)
Inductive effect :=
| WriteFile (dest_path subtitle_str : str)
| PostBulk (query_str : str).

(** How the method can stop early. *)
Inductive raised :=
| Raised (e : exn)
| RaisedAttributeError.

(** What the method is given from outside: the text of the response to
    a [requests.get], or nothing when the response is not [ok]; the
    clock; [json.dumps]. *)
Record world := mk_world {
  fetch : str -> option str;
  clock : Z;
  dumps : json_dumps }.

(** The body of [for subtitle in relevant_subtitles]: the effects of
    the turn, and the exception that ends it, if any. *)
Definition download_one (W : world) (v : video) (subtitle : format)
    : list effect * option raised :=
  match f_media_url subtitle with
  | None => ([], Some (Raised KeyError))
  | Some mu =>
      let dest_path := path_join (conf_videos v) mu in
      match f_source subtitle with
      | None => ([], Some (Raised KeyError))
      | Some source =>
          match f_url subtitle with
          | None => ([], Some (Raised KeyError))
          | Some u =>
              match fetch W u with
              | None => ([], None)
              | Some text =>
                  match process text with
                  | Raise e => ([], Some (Raised e))
                  | Ok st =>
                      let w := WriteFile dest_path (get_subtitle_str st) in
                      if conf_subtitle_index v
                      then match create_bulk_import (dumps W) (clock W)
                                   (f_lang subtitle) st v source with
                           | Query q => ([w; PostBulk q], None)
                           | AttributeError => ([w], Some RaisedAttributeError)
                           end
                      else ([w], None)
                  end
              end
          end
      end
  end.

(** [download_subtitles] *)
Fixpoint download_subtitles (W : world) (v : video)
    (relevant_subtitles : list format) : list effect * option raised :=
  match relevant_subtitles with
  | [] => ([], None)
  | subtitle :: rest =>
      match download_one W v subtitle with
      | (effs, Some e) => (effs, Some e)
      | (effs, None) =>
          let r := download_subtitles W v rest in (effs ++ r.1, r.2)
      end
  end.

(** The paths written, in order. *)
Definition written (effs : list effect) : list str :=
  flat_map (fun e => match e with WriteFile p _ => [p] | PostBulk _ => [] end) effs.

(** A subtitle whose download gives nothing: it has its keys and the
    response is not [ok]. *)
Definition fails_to_load (W : world) (s : format) : Prop :=
  exists mu source u, f_media_url s = Some mu /\ f_source s = Some source /\
    f_url s = Some u /\ fetch W u = None.

(** A world for the examples: one url answers, with the text of
    scenario A. *)
Definition world_A : world :=
  mk_world (fun u => if Py.str_eqb u (txt "https://sub/en.vtt")
                     then Some scenario_A else None)
           0 json_lines.

(** A world where the same url answers with a text without timestamp. *)
Definition world_B : world :=
  mk_world (fun u => if Py.str_eqb u (txt "https://sub/en.vtt")
                     then Some no_timestamp else None)
           0 json_lines.

Definition subtitle_en : format :=
  mk_format (Some (txt "vtt")) (Some (txt "https://sub/en.vtt"))
    (Some (txt "en")) (Some (txt "user")) (Some (txt "UC123/video-en.vtt")).

Definition subtitle_de : format :=
  mk_format (Some (txt "vtt")) (Some (txt "https://sub/de.vtt"))
    (Some (txt "de")) (Some (txt "user")) (Some (txt "UC123/video-de.vtt")).

(** * Properties *)

(** ** The builtins on small inputs *)

Example split_takes_leftmost :
  Py.split [nl; nl] (txt "a" ++ [nl; nl; nl] ++ txt "b") = [txt "a"; nl :: txt "b"].
Proof. reflexivity. Qed.

Example replace_does_not_rescan :
  Py.replace nl_blank_nl [nl] (nl :: txt " " ++ nl :: txt " " ++ [nl]) =
  nl :: txt " " ++ [nl].
Proof. reflexivity. Qed.

Example time_reg_ignores_the_rest :
  Re.time_reg (txt "00:00:01.000 --> 000003.000 align:start") =
  Some (txt "00:00:01.000 --> 000003.000", txt " align:start").
Proof. reflexivity. Qed.

Example time_reg_two_colons : Re.time_reg (txt "00::00:01.000 --> 00:00:03.000") = None.
Proof. reflexivity. Qed.

Example clean_line_markup :
  clean_line (txt "a<00:00:01.000><c> b</c><<c>c>") = txt "a b<c>".
Proof. reflexivity. Qed.

Example empty_input : process [] = Ok (mk_parser [] [] [] []).
Proof. reflexivity. Qed.

(** ** Strings and lists *)

Lemma str_eqb_eq (a b : str) : Py.str_eqb a b = true <-> a = b.
Proof.
  revert b. induction a as [|x a IH]; intros [|y b]; simpl; split;
    try congruence; try reflexivity.
  - intros H. apply andb_true_iff in H as [Hxy Hab].
    apply Ascii.eqb_eq in Hxy. apply IH in Hab. congruence.
  - intros H. injection H as -> ->. apply andb_true_iff. split.
    + apply Ascii.eqb_refl.
    + now apply IH.
Qed.

Lemma str_eqb_refl (a : str) : Py.str_eqb a a = true.
Proof. now apply str_eqb_eq. Qed.

Lemma str_eqb_neq (a b : str) : Py.str_eqb a b = false <-> a <> b.
Proof.
  split.
  - intros H E. apply str_eqb_eq in E. congruence.
  - intros H. destruct (Py.str_eqb a b) eqn:E; [|reflexivity].
    apply str_eqb_eq in E. contradiction.
Qed.

Lemma contains_In (x : str) (l : list str) :
  Py.contains x l = true <-> In x l.
Proof.
  unfold Py.contains. rewrite existsb_exists. split.
  - intros (y & Hy & E). apply str_eqb_eq in E. now subst.
  - intros H. exists x. split; [assumption | apply str_eqb_refl].
Qed.

Lemma In_remove_first_sub (x y : str) (l : list str) :
  In y (Py.remove_first x l) -> In y l.
Proof.
  induction l as [|z l IH]; simpl; [tauto|].
  destruct (Py.str_eqb x z); simpl; tauto.
Qed.

Lemma In_remove_lines_sub (ls q : list str) (y : str) :
  In y (remove_lines ls q) -> In y q.
Proof.
  unfold remove_lines. revert q. induction ls as [|l ls IH]; simpl; intros q H.
  - assumption.
  - apply IH in H. now apply In_remove_first_sub in H.
Qed.

Lemma remove_lines_sublist (ls q : list str) : sublist (remove_lines ls q) q.
Proof.
  unfold remove_lines. revert q. induction ls as [|l ls IH]; simpl; intros q.
  - reflexivity.
  - etransitivity; [apply IH|].
    clear. induction q as [|y q IHq]; simpl; [constructor|].
    destruct (Py.str_eqb l y).
    + now apply sublist_cons.
    + now apply sublist_skip.
Qed.

(** The head of the queue goes when the removed lines include it. *)
Lemma remove_lines_head (ls q : list str) (x : str) :
  In x ls -> sublist (remove_lines ls (x :: q)) q.
Proof.
  revert q. induction ls as [|l ls IH]; simpl; intros q H; [tauto|].
  change (remove_lines (l :: ls) (x :: q))
    with (remove_lines ls (Py.remove_first l (x :: q))).
  simpl. destruct (Py.str_eqb l x) eqn:E.
  - apply remove_lines_sublist.
  - apply str_eqb_neq in E. destruct H as [H|H]; [congruence|].
    etransitivity; [now apply IH|].
    change (Py.remove_first l q) with (remove_lines [l] q).
    apply remove_lines_sublist.
Qed.

(** ** The aligner *)

Lemma In_matches_of (check : str) (cues : list cue) (i : nat) :
  In i (matches_of check cues) <->
  i < length cues /\ In check (lines (cues !!! i)).
Proof.
  unfold matches_of. rewrite filter_In, in_seq, contains_In. intuition lia.
Qed.

Lemma last_In {A} (l : list A) (x : A) : last l = Some x -> In x l.
Proof.
  intros H. apply last_Some in H as [l' ->]. apply in_or_app. right. now left.
Qed.

Lemma head_In {A} (l : list A) (x : A) : head l = Some x -> In x l.
Proof. destruct l; simpl; [discriminate|]. intros [= ->]. now left. Qed.

(** What a completed turn of the loop did. *)
Lemma match_iter_Ok (st st' : parser) (check : str) :
  match_iter st check = Ok st' ->
  exists new_cue first s,
    last (matches_of check (parsed_cue_list st)) = Some new_cue /\
    head (matches_of check (parsed_cue_list st)) = Some first /\
    start (parsed_cue_list st !!! first) = Some s /\
    st' = mk_parser (header st)
            (<[new_cue := set_start (parsed_cue_list st !!! new_cue) s]>
               (parsed_cue_list st))
            (remove_lines (lines (parsed_cue_list st !!! new_cue))
               (all_text_lines st))
            (matched st ++ [new_cue]).
Proof.
  unfold match_iter. intros H.
  destruct (last (matches_of check (parsed_cue_list st))) as [k|] eqn:Hl;
    [|discriminate].
  destruct (head (matches_of check (parsed_cue_list st))) as [f|] eqn:Hh;
    [|discriminate].
  destruct (start (parsed_cue_list st !!! f)) as [s|] eqn:Hs; [|discriminate].
  injection H as <-. exists k, f, s. repeat split; try assumption.
  f_equal. f_equal.
  apply last_In, In_matches_of in Hl as [Hk _].
  now rewrite list_lookup_total_insert_eq.
Qed.

(** A turn of the loop writes a "start" and nothing else into the cue
    list. *)
Lemma match_iter_lines (st st' : parser) (check : str) :
  match_iter st check = Ok st' ->
  length (parsed_cue_list st') = length (parsed_cue_list st) /\
  forall i, lines (parsed_cue_list st' !!! i) = lines (parsed_cue_list st !!! i)
         /\ end_ (parsed_cue_list st' !!! i) = end_ (parsed_cue_list st !!! i)
         /\ id_ (parsed_cue_list st' !!! i) = id_ (parsed_cue_list st !!! i).
Proof.
  intros H. apply match_iter_Ok in H as (k & f & s & Hl & _ & _ & ->). simpl.
  split; [apply length_insert|]. intros i.
  destruct (decide (k = i)) as [->|Hne].
  - destruct (decide (i < length (parsed_cue_list st))) as [Hlt|Hge].
    + rewrite list_lookup_total_insert_eq by assumption. now simpl.
    + rewrite list_insert_ge by lia. tauto.
  - rewrite list_lookup_total_insert_ne by assumption. tauto.
Qed.

(** The queue after a completed turn is a sub-sequence of the queue
    without its head. *)
Lemma match_iter_head_removed (st st' : parser) (check : str) (rest : list str) :
  all_text_lines st = check :: rest ->
  match_iter st check = Ok st' ->
  sublist (all_text_lines st') rest.
Proof.
  intros Hq H. apply match_iter_Ok in H as (k & f & s & Hl & _ & _ & ->). simpl.
  rewrite Hq. apply remove_lines_head.
  now apply last_In, In_matches_of in Hl as [_ Hk].
Qed.

Lemma match_iter_shorter (st st' : parser) (check : str) (rest : list str) :
  all_text_lines st = check :: rest ->
  match_iter st check = Ok st' ->
  length (all_text_lines st') < length (all_text_lines st).
Proof.
  intros Hq H. pose proof (match_iter_head_removed _ _ _ _ Hq H) as Hs.
  apply sublist_length in Hs. rewrite Hq. simpl. lia.
Qed.

Lemma match_iter_matched (st st' : parser) (check : str) :
  match_iter st check = Ok st' ->
  exists new_cue, matched st' = matched st ++ [new_cue].
Proof.
  intros H. apply match_iter_Ok in H as (k & f & s & _ & _ & _ & ->).
  now exists k.
Qed.

(** As many turns as the queue is long always suffice. *)
Lemma match_loop_enough (n : nat) (st : parser) :
  length (all_text_lines st) <= n -> exists r, match_loop n st = Some r.
Proof.
  revert st. induction n as [|n IH]; intros st Hn.
  - destruct (all_text_lines st) eqn:Hq; simpl in *; [|lia].
    rewrite Hq. eauto.
  - simpl. destruct (all_text_lines st) as [|check rest] eqn:Hq; [eauto|].
    destruct (match_iter st check) as [st'|e] eqn:Hit; [|eauto].
    apply IH. pose proof (match_iter_shorter _ _ _ _ Hq Hit) as Hlt.
    rewrite Hq in *. simpl in *. lia.
Qed.

(** More turns than needed change nothing. *)
Lemma match_loop_mono (n n' : nat) (st : parser) (r : result parser) :
  match_loop n st = Some r -> n <= n' -> match_loop n' st = Some r.
Proof.
  revert n' st. induction n as [|n IH]; intros n' st H Hn.
  - simpl in H. destruct (all_text_lines st) eqn:Hq; [|discriminate].
    destruct n'; simpl; now rewrite Hq.
  - destruct n' as [|n']; [lia|]. simpl in *.
    destruct (all_text_lines st) as [|check rest]; [assumption|].
    destruct (match_iter st check); [|assumption].
    apply IH; [assumption | lia].
Qed.

Lemma match_loop_empty (n : nat) (st st' : parser) :
  match_loop n st = Some (Ok st') -> all_text_lines st' = [].
Proof.
  revert st. induction n as [|n IH]; intros st; simpl;
    destruct (all_text_lines st) as [|check rest] eqn:Hq; try discriminate.
  - now intros [= <-].
  - now intros [= <-].
  - destruct (match_iter st check); [apply IH | discriminate].
Qed.

(** Every turn appends one matched cue and takes at least one line
    off the queue. *)
Lemma match_loop_count (n : nat) (st st' : parser) :
  match_loop n st = Some (Ok st') ->
  length (matched st') <= length (matched st) + length (all_text_lines st) /\
  (all_text_lines st <> [] -> length (matched st) < length (matched st')) /\
  length (matched st) <= length (matched st').
Proof.
  revert st. induction n as [|n IH]; intros st; simpl;
    destruct (all_text_lines st) as [|check rest] eqn:Hq; try discriminate.
  - intros [= <-]. split; [lia|]. split; [congruence | lia].
  - intros [= <-]. split; [lia|]. split; [congruence | lia].
  - destruct (match_iter st check) as [st1|] eqn:Hit; [|discriminate].
    intros H. apply IH in H as (H1 & _ & H3).
    pose proof (match_iter_shorter _ _ _ _ Hq Hit) as Hlt.
    destruct (match_iter_matched _ _ _ Hit) as [k Hk].
    rewrite Hk, length_app in *. rewrite Hq in Hlt. simpl in *.
    split; [lia|]. split; [intros _|]; lia.
Qed.

(** ** Splitting *)

Lemma prepend_cons (a p : str) (ps : list str) :
  Py.prepend a (p :: ps) = (a ++ p) :: ps.
Proof.
  unfold Py.prepend. induction a as [|c a IH]; simpl; [reflexivity|].
  now rewrite IH.
Qed.

Lemma startswith_app (p s : str) : Py.startswith p (p ++ s) = true.
Proof.
  induction p as [|c p IH]; simpl; [reflexivity|].
  now rewrite Ascii.eqb_refl, IH.
Qed.

Lemma startswith_first (c0 c : ascii) (p s : str) :
  c <> c0 -> Py.startswith (c0 :: p) (c :: s) = false.
Proof.
  intros H. simpl. destruct (Ascii.eqb c0 c) eqn:E; [|reflexivity].
  apply Ascii.eqb_eq in E. congruence.
Qed.

Lemma split_go_skip (sep a s : str) :
  Py.split_go sep (length a) (a ++ s) = Py.split_go sep 0 s.
Proof. induction a as [|c a IH]; simpl; [reflexivity | assumption]. Qed.

Lemma split_sep (c0 : ascii) (sep s : str) :
  Py.split (c0 :: sep) ((c0 :: sep) ++ s) = [] :: Py.split (c0 :: sep) s.
Proof.
  unfold Py.split.
  change (Py.split_go (c0 :: sep) 0 ((c0 :: sep) ++ s))
    with (if Py.startswith (c0 :: sep) ((c0 :: sep) ++ s)
          then [] :: Py.split_go (c0 :: sep) (length (c0 :: sep) - 1) (sep ++ s)
          else Py.cons_head c0 (Py.split_go (c0 :: sep) 0 (sep ++ s))).
  rewrite startswith_app.
  replace (length (c0 :: sep) - 1) with (length sep) by (simpl; lia).
  now rewrite split_go_skip.
Qed.

Lemma split_other (sep : str) (c : ascii) (s : str) :
  Py.startswith sep (c :: s) = false ->
  Py.split sep (c :: s) = Py.cons_head c (Py.split sep s).
Proof. unfold Py.split. simpl Py.split_go. now intros ->. Qed.

Lemma split_nil (sep : str) : Py.split sep [] = [[]].
Proof. reflexivity. Qed.

(** Text free of the first character of the separator stays in one
    piece. *)
Lemma split_free_app (c0 : ascii) (sep a s : str) :
  Forall (fun c => c <> c0) a ->
  Py.split (c0 :: sep) (a ++ s) = Py.prepend a (Py.split (c0 :: sep) s).
Proof.
  induction 1 as [|c a Hc Ha IH]; simpl; [reflexivity|].
  rewrite split_other by now apply startswith_first.
  now rewrite IH.
Qed.

Lemma split_free (c0 : ascii) (sep a : str) :
  Forall (fun c => c <> c0) a -> Py.split (c0 :: sep) a = [a].
Proof.
  intros H. rewrite <- (app_nil_r a) at 1. rewrite split_free_app by assumption.
  rewrite split_nil, prepend_cons. now rewrite app_nil_r.
Qed.

(** ** The timestamp patterns *)

Lemma seq_Some (m1 m2 : Re.matcher) (s a r1 b r2 : str) :
  m1 s = Some (a, r1) -> m2 r1 = Some (b, r2) ->
  Re.seq m1 m2 s = Some (a ++ b, r2).
Proof. unfold Re.seq. now intros -> ->. Qed.

Lemma seq_inv (m1 m2 : Re.matcher) (s t r : str) :
  Re.seq m1 m2 s = Some (t, r) ->
  exists a r1 b, m1 s = Some (a, r1) /\ m2 r1 = Some (b, r) /\ t = a ++ b.
Proof.
  unfold Re.seq. destruct (m1 s) as [[a r1]|]; [|discriminate].
  destruct (m2 r1) as [[b r2]|] eqn:E2; [|discriminate].
  intros [= <- <-]. exists a, r1, b. auto.
Qed.

Lemma group_accepts (g r : str) :
  is_group g -> (forall r', r <> ":"%char :: r') ->
  Re.group (g ++ r) = Some (g, r).
Proof.
  intros (d1 & d2 & H1 & H2 & [->| ->]) Hr;
    cbv -[Py.is_digit Ascii.eqb]; rewrite H1, H2; cbv -[Ascii.eqb].
  - destruct r as [|c r]; [reflexivity|].
    destruct (Ascii.eqb ":" c) eqn:E; [|reflexivity].
    apply Ascii.eqb_eq in E. subst c. now destruct (Hr r).
  - reflexivity.
Qed.

Lemma group_inv (s t r : str) :
  Re.group s = Some (t, r) -> is_group t /\ s = t ++ r.
Proof.
  unfold is_group.
  destruct s as [|d1 [|d2 s]]; cbv -[Py.is_digit Ascii.eqb app];
    try discriminate.
  - destruct (Py.is_digit d1); discriminate.
  - destruct (Py.is_digit d1) eqn:H1; [|discriminate].
    destruct (Py.is_digit d2) eqn:H2; [|discriminate].
    destruct s as [|c s].
    + intros [= <- <-]. split; [|reflexivity]. exists d1, d2. auto.
    + destruct (Ascii.eqb ":" c) eqn:E.
      * apply Ascii.eqb_eq in E. subst c. intros [= <- <-].
        split; [|reflexivity]. exists d1, d2. auto.
      * intros [= <- <-]. split; [|reflexivity]. exists d1, d2. auto.
Qed.

Lemma group_head (g : str) :
  is_group g -> exists d g', g = d :: g' /\ Py.is_digit d = true.
Proof. intros (d1 & d2 & H1 & _ & [->| ->]); eauto. Qed.

Lemma group_next (g r : str) : is_group g -> forall r', g ++ r <> ":"%char :: r'.
Proof.
  intros Hg r' E. apply group_head in Hg as (d & g' & -> & Hd).
  injection E as -> _. discriminate.
Qed.

Lemma groups_accept (g1 g2 g3 r : str) :
  is_group g1 -> is_group g2 -> is_group g3 ->
  (forall r', r <> ":"%char :: r') ->
  Re.times 3 Re.group (g1 ++ g2 ++ g3 ++ r) = Some (g1 ++ g2 ++ g3, r).
Proof.
  intros G1 G2 G3 Hr. simpl Re.times.
  rewrite (seq_Some _ _ _ g1 (g2 ++ g3 ++ r) (g2 ++ g3) r).
  - reflexivity.
  - apply group_accepts; [assumption | now apply group_next].
  - rewrite (seq_Some _ _ _ g2 (g3 ++ r) g3 r).
    + reflexivity.
    + apply group_accepts; [assumption | now apply group_next].
    + rewrite (seq_Some _ _ _ g3 r [] r).
      * now rewrite app_nil_r.
      * now apply group_accepts.
      * reflexivity.
Qed.

Lemma stamp_accepts (a r : str) :
  is_stamp a -> Re.stamp (a ++ r) = Some (a, r).
Proof.
  intros (g1 & g2 & g3 & d1 & d2 & d3 & G1 & G2 & G3 & H1 & H2 & H3 & ->).
  unfold Re.stamp. rewrite <- !app_assoc.
  rewrite (seq_Some _ _ _ (g1 ++ g2 ++ g3) (txt "." ++ [d1; d2; d3] ++ r)
             (txt "." ++ [d1; d2; d3]) r).
  - now rewrite <- !app_assoc.
  - apply groups_accept; try assumption. simpl. congruence.
  - cbv -[Py.is_digit]. now rewrite H1, H2, H3.
Qed.

Lemma stamp_inv (s t r : str) :
  Re.stamp s = Some (t, r) -> is_stamp t /\ s = t ++ r.
Proof.
  unfold Re.stamp. intros H.
  apply seq_inv in H as (a & r1 & b & Ha & Hb & ->).
  simpl Re.times in Ha.
  apply seq_inv in Ha as (g1 & s1 & a1 & G1 & Ha & ->).
  apply seq_inv in Ha as (g2 & s2 & a2 & G2 & Ha & ->).
  apply seq_inv in Ha as (g3 & s3 & a3 & G3 & Ha & ->).
  injection Ha as <- <-.
  apply group_inv in G1 as [G1 ->]. apply group_inv in G2 as [G2 ->].
  apply group_inv in G3 as [G3 ->].
  destruct s3 as [|c0 [|d1 [|d2 [|d3 s3]]]];
    cbv -[Py.is_digit Ascii.eqb app] in Hb; try discriminate;
    destruct (Ascii.eqb "." c0) eqn:E0; try discriminate;
    try (destruct (Py.is_digit d1) eqn:H1; try discriminate);
    try (destruct (Py.is_digit d2) eqn:H2; try discriminate).
  destruct (Py.is_digit d3) eqn:H3; try discriminate.
  apply Ascii.eqb_eq in E0. subst c0. injection Hb as <- <-. split.
  - exists g1, g2, g3, d1, d2, d3. rewrite app_nil_r.
    repeat split; try assumption. now rewrite <- !app_assoc.
  - rewrite app_nil_r, <- !app_assoc. reflexivity.
Qed.

Lemma lit_accepts (t r : str) : Re.lit t (t ++ r) = Some (t, r).
Proof.
  induction t as [|c t IH]; [reflexivity|].
  change (Re.lit (c :: t)) with (Re.seq (Re.chr (Ascii.eqb c)) (Re.lit t)).
  change (Some (c :: t, r)) with (Some ([c] ++ t, r)).
  apply seq_Some with (r1 := t ++ r); [|assumption].
  simpl. now rewrite Ascii.eqb_refl.
Qed.

Lemma lit_inv (t s a r : str) : Re.lit t s = Some (a, r) -> a = t /\ s = t ++ r.
Proof.
  revert s a r. induction t as [|c t IH]; intros s a r.
  - now intros [= <- <-].
  - change (Re.lit (c :: t)) with (Re.seq (Re.chr (Ascii.eqb c)) (Re.lit t)).
    intros H. apply seq_inv in H as (a1 & r1 & b & H1 & H2 & ->).
    apply IH in H2 as [-> ->]. destruct s as [|c' s]; simpl in H1; [discriminate|].
    destruct (Ascii.eqb c c') eqn:E; [|discriminate].
    apply Ascii.eqb_eq in E. subst c'. injection H1 as <- ->. split; reflexivity.
Qed.

Lemma time_reg_accepts (a b r : str) :
  is_stamp a -> is_stamp b ->
  Re.time_reg (a ++ txt " --> " ++ b ++ r) = Some (a ++ txt " --> " ++ b, r).
Proof.
  intros Ha Hb. unfold Re.time_reg.
  apply seq_Some with (r1 := txt " --> " ++ b ++ r).
  - now apply stamp_accepts.
  - apply seq_Some with (r1 := b ++ r).
    + apply lit_accepts.
    + now apply stamp_accepts.
Qed.

Lemma time_reg_inv (s t r : str) :
  Re.time_reg s = Some (t, r) ->
  exists a b, is_stamp a /\ is_stamp b /\
              t = a ++ txt " --> " ++ b /\ s = t ++ r.
Proof.
  unfold Re.time_reg. intros H.
  apply seq_inv in H as (a & r1 & t1 & Ha & H & ->).
  apply seq_inv in H as (l & r2 & b & Hl & Hb & ->).
  apply stamp_inv in Ha as [Ha ->]. apply lit_inv in Hl as [-> ->].
  apply stamp_inv in Hb as [Hb ->].
  exists a, b. repeat split; try assumption. now rewrite <- !app_assoc.
Qed.

Lemma group_chars (g : str) :
  is_group g -> Forall (fun c => Py.is_digit c = true \/ c = ":"%char) g.
Proof.
  intros (d1 & d2 & H1 & H2 & [->| ->]); cbn;
    repeat (apply List.Forall_cons; [auto|]); apply List.Forall_nil.
Qed.

(** A timestamp is made of digits, colons and a dot. *)
Lemma stamp_chars (a : str) :
  is_stamp a ->
  Forall (fun c => Py.is_digit c = true \/ c = ":"%char \/ c = "."%char) a.
Proof.
  intros (g1 & g2 & g3 & d1 & d2 & d3 & G1 & G2 & G3 & H1 & H2 & H3 & ->).
  assert (Hg : forall g, is_group g ->
     Forall (fun c => Py.is_digit c = true \/ c = ":"%char \/ c = "."%char) g).
  { intros g Hg. eapply List.Forall_impl; [|apply group_chars, Hg].
    simpl. tauto. }
  repeat (apply Forall_app; split); auto; cbn;
    repeat (apply List.Forall_cons; [auto|]); apply List.Forall_nil.
Qed.

Lemma stamp_no (x : ascii) (a : str) :
  is_stamp a -> Py.is_digit x = false -> x <> ":"%char -> x <> "."%char ->
  Forall (fun c => c <> x) a.
Proof.
  intros Ha Hx H1 H2. eapply List.Forall_impl; [|apply stamp_chars, Ha].
  simpl. intros c [H|[H|H]] E; subst; congruence.
Qed.

(** A timestamp starts with a digit. *)
Lemma stamp_head (a : str) :
  is_stamp a -> exists d a', a = d :: a' /\ Py.is_digit d = true.
Proof.
  intros (g1 & g2 & g3 & d1 & d2 & d3 & G1 & _ & _ & _ & _ & _ & ->).
  apply group_head in G1 as (d & g' & -> & Hd). simpl. eauto.
Qed.

Lemma int_digits_Some (s : str) :
  s <> [] -> exists z, Py.int_digits s = Some z.
Proof. destruct s; [congruence|]. simpl. eauto. Qed.

(** A timestamp compares as an integer. *)
Lemma stamp_num (a : str) : is_stamp a -> exists z, num (Some a) = Some z.
Proof.
  intros Ha. apply stamp_head in Ha as (d & a' & -> & Hd).
  apply int_digits_Some. unfold Re.only_digits. simpl. now rewrite Hd.
Qed.

(** The unpacking [start, end = clean.split(" --> ")] gets its two
    parts. *)
Lemma split_arrow (a b : str) :
  is_stamp a -> is_stamp b ->
  Py.split (txt " --> ") (a ++ txt " --> " ++ b) = [a; b].
Proof.
  intros Ha Hb.
  assert (Hs : forall x, is_stamp x -> Forall (fun c => c <> " "%char) x).
  { intros x Hx. apply stamp_no; [assumption | reflexivity | | ]; discriminate. }
  change (txt " --> ") with (" "%char :: txt "--> ").
  rewrite split_free_app by auto.
  rewrite split_sep, split_free by auto.
  rewrite prepend_cons. now rewrite app_nil_r.
Qed.

(** ** The splitter *)

Lemma cue_line_time (c : cue) (q : list str) (line t r : str) :
  Re.time_reg line = Some (t, r) ->
  exists a b, is_stamp a /\ is_stamp b /\ line = a ++ txt " --> " ++ b ++ r /\
    cue_line (c, q) line = Ok (set_end (set_start c a) b, q).
Proof.
  intros H. pose proof H as H'.
  apply time_reg_inv in H' as (a & b & Ha & Hb & -> & ->).
  exists a, b. repeat split; try assumption.
  - now rewrite <- !app_assoc.
  - unfold cue_line. rewrite H. now rewrite split_arrow.
Qed.

Lemma cue_line_text (c : cue) (q : list str) (line : str) :
  Re.time_reg line = None ->
  cue_line (c, q) line =
    Ok (set_lines c (lines c ++ [clean_line line]),
        if Py.truthy (Py.strip (clean_line line))
           && negb (Py.contains (clean_line line) (Py.last_n 4 q))
        then q ++ [clean_line line] else q).
Proof.
  intros H. unfold cue_line. rewrite H.
  now destruct (Py.truthy (Py.strip (clean_line line))
                && negb (Py.contains (clean_line line) (Py.last_n 4 q))).
Qed.

Section for_each_loop.

Context {S A : Type} (body : S -> A -> result S) (P : S -> Prop).

(** What every turn keeps holds after the loop. *)
Lemma for_each_inv (l : list A) :
  (forall s a s', In a l -> P s -> body s a = Ok s' -> P s') ->
  forall s s', P s -> for_each body l s = Ok s' -> P s'.
Proof.
  induction l as [|a l IH]; simpl; intros Hb s s' Hs H.
  - now injection H as <-.
  - destruct (body s a) as [s1|] eqn:E; simpl in H; [|discriminate].
    eapply IH; [|eapply Hb; [now left | exact Hs | exact E]|exact H].
    intros s2 a2 s2' Ha2. apply Hb. now right.
Qed.

(** A loop whose turns all complete completes. *)
Lemma for_each_total (l : list A) :
  (forall s a, In a l -> P s -> exists s', body s a = Ok s' /\ P s') ->
  forall s, P s -> exists s', for_each body l s = Ok s'.
Proof.
  induction l as [|a l IH]; simpl; intros Hb s Hs; [eauto|].
  destruct (Hb s a (or_introl eq_refl) Hs) as (s1 & -> & H1). simpl.
  apply IH; [|assumption]. intros s' a' Ha'. apply Hb. now right.
Qed.

End for_each_loop.

Lemma cue_line_total (acc : cue * list str) (line : str) :
  exists acc', cue_line acc line = Ok acc'.
Proof.
  destruct acc as [c q]. destruct (Re.time_reg line) as [[t r]|] eqn:E.
  - destruct (cue_line_time c q _ _ _ E) as (a & b & _ & _ & _ & H). eauto.
  - rewrite cue_line_text by assumption. eauto.
Qed.

Lemma cue_cleaner_total (q : list str) (cue_text : str) :
  exists cq, _cue_cleaner q cue_text = Ok cq.
Proof.
  unfold _cue_cleaner. apply (for_each_total cue_line (fun _ => True)); [|exact I].
  intros s a _ _. destruct (cue_line_total s a) as [s' H]. eauto.
Qed.

Lemma split_go_nonempty (sep : str) (k : nat) (s : str) :
  Py.split_go sep k s <> [].
Proof.
  revert k. induction s as [|c s IH]; simpl; intros k; [discriminate|].
  destruct k; [|apply IH]. destruct (Py.startswith sep (c :: s)); [discriminate|].
  specialize (IH 0). destruct (Py.split_go sep 0 s); [congruence | discriminate].
Qed.

(** The splitter itself never raises. *)
Lemma parse_cues_total (subtitle_str : str) :
  exists st, _parse_cues subtitle_str = Ok st.
Proof.
  unfold _parse_cues.
  destruct (Py.split [nl; nl] _) as [|hd rest] eqn:E.
  - now apply split_go_nonempty in E.
  - destruct (for_each_total parse_block (fun _ => True) rest) with
      (s := (@nil cue, @nil str)) as [cq H]; [|exact I|].
    + intros [cues q] a _ _. unfold parse_block.
      destruct (cue_cleaner_total q a) as [cq ->]. simpl. eauto.
    + rewrite H. simpl. eauto.
Qed.

Lemma stamped_timed (c : cue) : stamped c -> start c <> None -> timed c.
Proof.
  intros [[H _]|(a & b & Ha & Hb & Sa & Sb)] Hs; [congruence|].
  unfold timed. rewrite Ha, Hb. split; now apply stamp_num.
Qed.

(** What [_cue_cleaner] returns: a cue as the splitter leaves it, and
    the queue with the non-blank lines of that cue it accepted. *)
Lemma cue_cleaner_spec (q : list str) (cue_text : str) (c : cue) (q' : list str) :
  _cue_cleaner q cue_text = Ok (c, q') ->
  stamped c /\ id_ c = None /\
  forall x, In x q' -> In x q \/ (In x (lines c) /\ nonblank x).
Proof.
  unfold _cue_cleaner. intros H.
  refine (for_each_inv cue_line
    (fun cq : cue * list str => stamped cq.1 /\ id_ cq.1 = None /\
       forall x, In x cq.2 -> In x q \/ (In x (lines cq.1) /\ nonblank x))
    _ _ _ (c, q') _ H).
  - clear. intros [c q1] line [c' q1'] _ (Hst & Hid & Hq) Hl. cbn [fst snd] in *.
    destruct (Re.time_reg line) as [[t r]|] eqn:E.
    + destruct (cue_line_time c q1 _ _ _ E) as (a & b & Ha & Hb & _ & Hl').
      rewrite Hl' in Hl. injection Hl as <- <-. simpl.
      split; [right; exists a, b; auto|]. split; assumption.
    + rewrite cue_line_text in Hl by assumption. injection Hl as <- <-. simpl.
      split; [assumption|]. split; [assumption|]. intros x Hx.
      assert (Hold : In x q1 -> In x q \/
                (In x (lines c ++ [clean_line line]) /\ nonblank x)).
      { intros Hx1. destruct (Hq x Hx1) as [?|[? ?]]; [now left|].
        right. split; [apply in_or_app; now left | assumption]. }
      destruct (Py.truthy (Py.strip (clean_line line))) eqn:Hnb; simpl in Hx;
        [|now apply Hold].
      destruct (Py.contains (clean_line line) (Py.last_n 4 q1)); simpl in Hx;
        [now apply Hold|].
      apply in_app_or in Hx as [Hx|[<-|[]]]; [now apply Hold|].
      right. split; [apply in_or_app; right; now left | exact Hnb].
  - simpl. split; [left; split; reflexivity|]. split; [reflexivity|]. tauto.
Qed.

(** What [_parse_cues] returns. *)
Lemma parse_cues_spec (subtitle_str : str) (st : parser) :
  _parse_cues subtitle_str = Ok st ->
  matched st = [] /\
  (forall c, In c (parsed_cue_list st) -> stamped c /\ id_ c = None) /\
  (forall x, In x (all_text_lines st) ->
     nonblank x /\ exists c, In c (parsed_cue_list st) /\ In x (lines c)).
Proof.
  unfold _parse_cues. destruct (Py.split [nl; nl] _) as [|hd rest]; [discriminate|].
  destruct (for_each parse_block rest ([], [])) as [[cues q]|] eqn:E;
    simpl; [|discriminate].
  intros [= <-]. simpl. split; [reflexivity|].
  refine (for_each_inv parse_block
    (fun cq : list cue * list str =>
       (forall c, In c cq.1 -> stamped c /\ id_ c = None) /\
       (forall x, In x cq.2 ->
          nonblank x /\ exists c, In c cq.1 /\ In x (lines c)))
    _ _ _ (cues, q) _ E).
  - clear. intros [cues q] blk [cues' q'] _ [Hc Hq] Hb. unfold parse_block in Hb.
    destruct (_cue_cleaner q blk) as [[c q1]|] eqn:Ec; simpl in Hb; [|discriminate].
    injection Hb as <- <-. apply cue_cleaner_spec in Ec as (Hst & Hid & Hq1).
    simpl. split.
    + intros c' Hc'. apply in_app_or in Hc' as [Hc'|[<-|[]]]; auto.
    + intros x Hx. destruct (Hq1 x Hx) as [Hx0|[Hx1 Hnb]].
      * destruct (Hq x Hx0) as [Hnb (c' & Hc' & Hl)]. split; [assumption|].
        exists c'. split; [apply in_or_app; now left | assumption].
      * split; [assumption|]. exists c.
        split; [apply in_or_app; right; now left | assumption].
  - simpl. split; intros ? [].
Qed.

Lemma In_lookup_total (cues : list cue) (c : cue) :
  In c cues <-> exists i, i < length cues /\ cues !!! i = c.
Proof.
  rewrite <- list_elem_of_In, list_elem_of_lookup_total. reflexivity.
Qed.

Lemma parse_cues_covered (subtitle_str : str) (st : parser) :
  _parse_cues subtitle_str = Ok st ->
  covered (parsed_cue_list st) (all_text_lines st).
Proof.
  intros H x Hx. apply parse_cues_spec in H as (_ & _ & H).
  destruct (H x Hx) as (_ & c & Hc & Hl).
  apply In_lookup_total in Hc as (i & Hi & <-). eauto.
Qed.

(** ** Invariants of the matching loop *)

Lemma match_iter_covered (st st' : parser) (check : str) :
  covered (parsed_cue_list st) (all_text_lines st) ->
  match_iter st check = Ok st' ->
  covered (parsed_cue_list st') (all_text_lines st').
Proof.
  intros Hc H x Hx. destruct (match_iter_lines _ _ _ H) as [Hlen Hl].
  apply match_iter_Ok in H as (k & f & s & _ & _ & _ & E).
  assert (Hq : In x (all_text_lines st)).
  { rewrite E in Hx. simpl in Hx. now apply In_remove_lines_sub in Hx. }
  destruct (Hc x Hq) as (i & Hi & Hin). exists i. rewrite Hlen.
  split; [assumption|]. destruct (Hl i) as [-> _]. assumption.
Qed.

(** A pending line that some cue holds finds its cue: [matches[-1]]
    does not raise. *)
Lemma match_iter_no_IndexError (st : parser) (check : str) :
  covered (parsed_cue_list st) (all_text_lines st) ->
  In check (all_text_lines st) ->
  match_iter st check <> Raise IndexError.
Proof.
  intros Hc Hin. destruct (Hc check Hin) as (i & Hi & Hl).
  assert (Hm : In i (matches_of check (parsed_cue_list st)))
    by now apply In_matches_of.
  unfold match_iter.
  destruct (matches_of check (parsed_cue_list st)) as [|a l] eqn:E; [destruct Hm|].
  destruct (last (a :: l)) eqn:El.
  - simpl. destruct (start (parsed_cue_list st !!! a)); discriminate.
  - apply last_None in El. discriminate.
Qed.

Lemma match_loop_no_IndexError (n : nat) (st : parser) (r : result parser) :
  covered (parsed_cue_list st) (all_text_lines st) ->
  match_loop n st = Some r -> r <> Raise IndexError.
Proof.
  revert st. induction n as [|n IH]; intros st Hc; simpl;
    destruct (all_text_lines st) as [|check rest] eqn:Hq; try discriminate.
  - intros [= <-]. discriminate.
  - intros [= <-]. discriminate.
  - destruct (match_iter st check) as [st1|e] eqn:Hit.
    + apply IH. eapply match_iter_covered; [|exact Hit]. now rewrite Hq.
    + intros [= <-] [= ->]. eapply match_iter_no_IndexError; [| |exact Hit].
      * now rewrite Hq.
      * rewrite Hq. now left.
Qed.

Lemma match_text_lines_loop (st : parser) (r : result parser) :
  matched st = [] ->
  match_loop (length (all_text_lines st)) st = Some r ->
  _match_text_lines st = r.
Proof.
  intros Hm H. unfold _match_text_lines. simpl.
  replace (mk_parser (header st) (parsed_cue_list st) (all_text_lines st) [])
    with st by (destruct st; simpl in *; now subst).
  now rewrite H.
Qed.

Lemma match_text_lines_Ok (st st' : parser) :
  _match_text_lines st = Ok st' ->
  match_loop (length (all_text_lines st))
    (mk_parser (header st) (parsed_cue_list st) (all_text_lines st) []) =
  Some (Ok st').
Proof.
  unfold _match_text_lines. simpl. intros H.
  destruct (match_loop_enough (length (all_text_lines st))
    (mk_parser (header st) (parsed_cue_list st) (all_text_lines st) []))
    as [r Hr]; [reflexivity|].
  rewrite Hr in *. now subst.
Qed.

(** The first and the last position of a range that pass a test. *)
Lemma head_filter_seq (f : nat -> bool) (a n i : nat) :
  head (List.filter f (seq a n)) = Some i ->
  f i = true /\ a <= i < a + n /\ forall j, a <= j < i -> f j = false.
Proof.
  revert a. induction n as [|n IH]; intros a; simpl; [discriminate|].
  destruct (f a) eqn:Fa; simpl.
  - intros [= <-]. repeat split; [assumption | lia | lia | intros; lia].
  - intros H. apply IH in H as (Hi & Hr & Hj). repeat split; [assumption|lia|lia|].
    intros j Hjr. destruct (decide (j = a)) as [->|]; [assumption|].
    apply Hj. lia.
Qed.

Lemma last_filter_seq (f : nat -> bool) (a n i : nat) :
  last (List.filter f (seq a n)) = Some i ->
  f i = true /\ a <= i < a + n /\ forall j, i < j < a + n -> f j = false.
Proof.
  revert i. induction n as [|n IH]; intros i; [discriminate|].
  rewrite seq_S, List.filter_app. simpl. destruct (f (a + n)) eqn:Fa.
  - rewrite last_snoc. intros [= <-].
    repeat split; [assumption | lia | lia | intros; lia].
  - rewrite app_nil_r. intros H. apply IH in H as (Hi & Hr & Hj).
    repeat split; [assumption|lia|lia|].
    intros j Hjr. destruct (decide (j = a + n)) as [->|]; [assumption|].
    apply Hj. lia.
Qed.

Lemma contains_false (x : str) (l : list str) :
  Py.contains x l = false <-> ~ In x l.
Proof.
  rewrite <- contains_In. destruct (Py.contains x l); split; congruence.
Qed.

(** ** What the aligner does *)

Example scenario_A_parsed : _parse_cues scenario_A = Ok scenario_A_cues.
Proof. vm_compute. reflexivity. Qed.

(** C9. For every cue list and queue the splitter produces, every
    queue entry occurs in the lines of a parsed cue; a completed turn
    of the matching loop takes the head off the queue (what is left is
    a sub-sequence of the queue without its head, so the queue is
    strictly shorter); and the loop terminates: run for as many turns as
    the queue is long, or more, it stops with the queue empty or with
    an exception, which is never the IndexError of an empty match set. *)
Theorem C9_match_loop_terminates (subtitle_str : str) (st : parser) :
  _parse_cues subtitle_str = Ok st ->
  covered (parsed_cue_list st) (all_text_lines st) /\
  (forall st1 check rest st2,
     all_text_lines st1 = check :: rest -> match_iter st1 check = Ok st2 ->
     sublist (all_text_lines st2) rest /\
     length (all_text_lines st2) < length (all_text_lines st1)) /\
  exists r,
    (forall n, length (all_text_lines st) <= n -> match_loop n st = Some r) /\
    _match_text_lines st = r /\
    r <> Raise IndexError /\
    (forall st', r = Ok st' -> all_text_lines st' = []).
Proof.
  intros Hp. pose proof (parse_cues_covered _ _ Hp) as Hc.
  split; [assumption|]. split.
  - intros st1 check rest st2 Hq Hit. split.
    + eapply match_iter_head_removed; eassumption.
    + eapply match_iter_shorter; eassumption.
  - destruct (match_loop_enough (length (all_text_lines st)) st) as [r Hr];
      [reflexivity|].
    exists r. split; [|split; [|split]].
    + intros n Hn. eapply match_loop_mono; eassumption.
    + apply match_text_lines_loop; [|assumption].
      now apply parse_cues_spec in Hp as [Hm _].
    + eapply match_loop_no_IndexError; eassumption.
    + intros st' ->. eapply match_loop_empty; eassumption.
Qed.

Lemma C9_match_loop_terminates_witness :
  exists st, _parse_cues scenario_A = Ok st /\
    exists r, _match_text_lines st = r /\ r <> Raise IndexError.
Proof.
  eexists. split; [vm_compute; reflexivity|].
  edestruct (C9_match_loop_terminates scenario_A) as (_ & _ & r & _ & Hr & Hi & _);
    [vm_compute; reflexivity|].
  exists r. split; [exact Hr | exact Hi].
Defined.

(** C1 (amended). For every raw caption input on which the aligner
    completes, the matched cues are at most as many as the lines the
    queue accepted during splitting, and at least one when a line was
    accepted: a matched cue takes all its lines off the queue, not only
    the line it was found for. For the two cues of Scenario A the queue
    accepts two lines and the output has one matched cue. *)
Theorem C1_matched_at_most_queue :
  (forall subtitle_str st st',
     _parse_cues subtitle_str = Ok st ->
     _match_text_lines st = Ok st' ->
     length (matched st') <= length (all_text_lines st) /\
     (all_text_lines st <> [] -> 1 <= length (matched st'))) /\
  exists st st', _parse_cues scenario_A = Ok st /\
    _match_text_lines st = Ok st' /\
    length (all_text_lines st) = 2 /\ length (matched st') = 1.
Proof.
  split.
  - intros subtitle_str st st' _ H. apply match_text_lines_Ok in H.
    apply match_loop_count in H as (H1 & H2 & _). simpl in *.
    split; [lia|]. intros Hq. specialize (H2 Hq). lia.
  - eexists. eexists. split; [vm_compute; reflexivity|].
    split; vm_compute; auto.
Qed.

Lemma C1_matched_at_most_queue_witness :
  exists st', _match_text_lines scenario_A_cues = Ok st' /\
    length (matched st') <= length (all_text_lines scenario_A_cues).
Proof.
  eexists. split; [vm_compute; reflexivity|].
  eapply (proj1 C1_matched_at_most_queue scenario_A scenario_A_cues);
    vm_compute; reflexivity.
Defined.

(** C1, as stated, fails on Scenario A: two lines are accepted, "Hello"
    and "World", and one cue is matched, the second, which has both. *)
Lemma C1_scenario_A_one_matched_cue : ~ alignment_complete scenario_A.
Proof.
  intros H.
  specialize (H _ _ ltac:(vm_compute; reflexivity) ltac:(vm_compute; reflexivity)).
  vm_compute in H. discriminate.
Qed.

(** C5 (amended). At the turn of the matching loop that takes a line
    from the head of the queue, the cue appended to the matched
    sequence is the last parsed cue, in the order of the cue list,
    whose lines contain that line; it keeps its lines, and its start
    becomes the start that the first parsed cue containing the line
    holds at that moment. *)
Theorem C5_last_cue_lines_first_cue_start
  (st st' : parser) (check : str) (rest : list str) :
  all_text_lines st = check :: rest ->
  match_iter st check = Ok st' ->
  exists new_cue first,
    matched st' = matched st ++ [new_cue] /\
    new_cue < length (parsed_cue_list st) /\
    In check (lines (parsed_cue_list st !!! new_cue)) /\
    (forall j, new_cue < j < length (parsed_cue_list st) ->
       ~ In check (lines (parsed_cue_list st !!! j))) /\
    first <= new_cue /\
    In check (lines (parsed_cue_list st !!! first)) /\
    (forall j, j < first -> ~ In check (lines (parsed_cue_list st !!! j))) /\
    lines (parsed_cue_list st' !!! new_cue) =
      lines (parsed_cue_list st !!! new_cue) /\
    start (parsed_cue_list st' !!! new_cue) =
      start (parsed_cue_list st !!! first) /\
    start (parsed_cue_list st !!! first) <> None.
Proof.
  intros _ H. apply match_iter_Ok in H as (k & f & s & Hl & Hh & Hs & ->).
  unfold matches_of in Hl, Hh.
  apply last_filter_seq in Hl as (Hk & Hkr & Hkj).
  apply head_filter_seq in Hh as (Hf & Hfr & Hfj).
  apply contains_In in Hk, Hf. simpl in Hkr, Hfr.
  exists k, f. simpl. repeat split; try assumption; try lia.
  - intros j Hj. apply contains_false. apply Hkj. lia.
  - destruct (decide (f <= k)) as [|Hgt]; [assumption|].
    assert (Hc : Py.contains check (lines (parsed_cue_list st !!! f)) = false)
      by (apply Hkj; lia).
    apply contains_false in Hc. contradiction.
  - intros j Hj. apply contains_false. apply Hfj. lia.
  - rewrite list_lookup_total_insert_eq by lia. reflexivity.
  - rewrite list_lookup_total_insert_eq by lia. simpl. now rewrite Hs.
  - congruence.
Qed.

Lemma C5_last_cue_lines_first_cue_start_witness :
  exists st', match_iter scenario_A_cues (txt "Hello") = Ok st' /\
    exists new_cue first,
      matched st' = matched scenario_A_cues ++ [new_cue] /\
      start (parsed_cue_list st' !!! new_cue) =
        start (parsed_cue_list scenario_A_cues !!! first).
Proof.
  eexists. split; [vm_compute; reflexivity|].
  lazymatch goal with
  | |- exists _ _, matched ?s' = _ /\ _ =>
      destruct (C5_last_cue_lines_first_cue_start scenario_A_cues s'
                  (txt "Hello") [txt "World"] eq_refl)
        as (k & f & Hm & _ & _ & _ & _ & _ & _ & _ & Hs & _);
        [vm_compute; reflexivity|]
  end.
  exists k, f. split; [exact Hm | exact Hs].
Defined.

(** C5, as stated, fails when the cues are not in the order of their
    timestamps: the line "A" is shown at 00:00:05.000 by the first cue
    and at 00:00:01.000 by the second; the matched cue starts at
    00:00:05.000, the start of the first cue of the list, not at the
    earliest timestamp. *)
Lemma C5_unordered_start_not_earliest :
  exists st st', _parse_cues unordered = Ok st /\
    _match_text_lines st = Ok st' /\
    matched st' = [1] /\
    ~ starts_earliest (parsed_cue_list st) (txt "A") (parsed_cue_list st' !!! 1).
Proof.
  eexists. eexists. split; [vm_compute; reflexivity|].
  split; [vm_compute; reflexivity|]. split; [reflexivity|].
  intros H. specialize (H 1 5000%Z 1000%Z).
  assert (5000 <= 1000)%Z; [|lia].
  apply H; vm_compute; auto.
Qed.

(** ** The id pass *)

Lemma lookup_total_insert_cases (cues : list cue) (r i : nat) (c : cue) :
  <[r := c]> cues !!! i = cues !!! i \/
  (r = i /\ r < length cues /\ <[r := c]> cues !!! i = c).
Proof.
  destruct (decide (r = i)) as [->|Hne].
  - destruct (decide (i < length cues)) as [Hlt|Hge].
    + right. now rewrite list_lookup_total_insert_eq.
    + left. now rewrite list_insert_ge by lia.
  - left. now rewrite list_lookup_total_insert_ne.
Qed.

(** [_add_id] writes ids and nothing else. *)
Lemma add_id_loop_frame (idx : nat) (todo : list nat) (cues : list cue) :
  length (add_id_loop idx todo cues) = length cues /\
  forall i, lines (add_id_loop idx todo cues !!! i) = lines (cues !!! i) /\
            start (add_id_loop idx todo cues !!! i) = start (cues !!! i) /\
            end_ (add_id_loop idx todo cues !!! i) = end_ (cues !!! i).
Proof.
  revert idx cues. induction todo as [|r todo IH]; intros idx cues; simpl.
  - auto.
  - destruct (IH (S idx) (<[r := set_id (cues !!! r) (idx + 1)]> cues))
      as [Hlen Hf].
    split; [now rewrite Hlen, length_insert|].
    intros i. destruct (Hf i) as (-> & -> & ->).
    destruct (lookup_total_insert_cases cues r i (set_id (cues !!! r) (idx + 1)))
      as [->|(-> & _ & ->)]; auto.
Qed.

Lemma add_id_loop_other (idx : nat) (todo : list nat) (cues : list cue) (r : nat) :
  ~ In r todo -> add_id_loop idx todo cues !!! r = cues !!! r.
Proof.
  revert idx cues. induction todo as [|r' todo IH]; intros idx cues Hn; simpl.
  - reflexivity.
  - rewrite IH by (intros H; apply Hn; now right).
    apply list_lookup_total_insert_ne. intros ->. apply Hn. now left.
Qed.

(** When no cue is matched twice, the ids are the positions, from 1. *)
Lemma add_id_loop_distinct (idx : nat) (todo : list nat) (cues : list cue) :
  List.NoDup todo -> (forall r, In r todo -> r < length cues) ->
  map (fun r => id_ (add_id_loop idx todo cues !!! r)) todo =
  map Some (seq (idx + 1) (length todo)).
Proof.
  revert idx cues. induction todo as [|r todo IH]; intros idx cues Hnd Hr.
  - reflexivity.
  - inversion Hnd as [|? ? Hnotin Hnd']; subst. simpl. f_equal.
    + rewrite add_id_loop_other by assumption.
      rewrite list_lookup_total_insert_eq by (apply Hr; now left).
      reflexivity.
    + replace (S (idx + 1)) with (S idx + 1) by lia.
      apply IH; [assumption|]. intros r' Hr'. rewrite length_insert.
      apply Hr. now right.
Qed.

(** ** The timestamp normaliser *)

Lemma stamp_int_num (x : option str) (z : Z) :
  stamp_int x = Ok z <-> num x = Some z.
Proof.
  unfold stamp_int, num. destruct x as [s|]; [|split; discriminate].
  destruct (Py.int_digits (Re.only_digits s)); split; congruence.
Qed.

(** The outcomes of one turn of the loop of [_timestamp_check]. *)
Lemma ts_step_Ok (m : list nat) (cues cues' : list cue) (idx r : nat) :
  ts_step m cues (idx, r) = Ok cues' ->
  exists e, num (end_ (cues !!! r)) = Some e /\
    (cues' = cues /\
       (m !! (idx + 1) = None \/
        exists next_cue s, m !! (idx + 1) = Some next_cue /\
          num (start (cues !!! next_cue)) = Some s /\ (e <= s)%Z)
     \/
     exists next_cue s, m !! (idx + 1) = Some next_cue /\
       num (start (cues !!! next_cue)) = Some s /\ (s < e)%Z /\
       cues' = <[r := put_end (cues !!! r) (start (cues !!! next_cue))]> cues).
Proof.
  unfold ts_step.
  destruct (stamp_int (end_ (cues !!! r))) as [e|] eqn:He; simpl; [|discriminate].
  apply stamp_int_num in He. intros H. exists e. split; [assumption|].
  destruct (m !! (idx + 1)) as [next_cue|]; [|injection H as <-; auto].
  destruct (stamp_int (start (cues !!! next_cue))) as [s|] eqn:Hs; simpl in H;
    [|discriminate].
  apply stamp_int_num in Hs.
  destruct (e >? s)%Z eqn:Hc; injection H as <-.
  - right. exists next_cue, s. repeat split; auto. lia.
  - left. split; [reflexivity|]. right. exists next_cue, s. repeat split; auto. lia.
Qed.

(** A cue that has an "end" is a cue of the list. *)
Lemma num_end_valid (cues : list cue) (r : nat) (e : Z) :
  num (end_ (cues !!! r)) = Some e -> r < length cues.
Proof.
  intros H. destruct (decide (r < length cues)) as [|Hge]; [assumption|].
  rewrite list_lookup_total_alt, lookup_ge_None_2 in H by lia. discriminate.
Qed.

(** One turn writes at most an "end". *)
Lemma ts_step_frame (m : list nat) (cues cues' : list cue) (ir : nat * nat) :
  ts_step m cues ir = Ok cues' ->
  length cues' = length cues /\
  forall i, lines (cues' !!! i) = lines (cues !!! i) /\
            start (cues' !!! i) = start (cues !!! i) /\
            id_ (cues' !!! i) = id_ (cues !!! i).
Proof.
  destruct ir as [idx r]. intros H.
  apply ts_step_Ok in H as (e & He & [[-> _]|(n & s & _ & _ & _ & ->)]); [auto|].
  split; [apply length_insert|]. intros i.
  destruct (lookup_total_insert_cases cues r i
              (put_end (cues !!! r) (start (cues !!! n))))
    as [->|(-> & _ & ->)]; auto.
Qed.

Lemma ts_loop_frame (m : list nat) (l : list (nat * nat)) (cues cues' : list cue) :
  for_each (ts_step m) l cues = Ok cues' ->
  length cues' = length cues /\
  forall i, lines (cues' !!! i) = lines (cues !!! i) /\
            start (cues' !!! i) = start (cues !!! i) /\
            id_ (cues' !!! i) = id_ (cues !!! i).
Proof.
  intros H.
  refine (for_each_inv (ts_step m)
    (fun h => length h = length cues /\
       forall i, lines (h !!! i) = lines (cues !!! i) /\
                 start (h !!! i) = start (cues !!! i) /\
                 id_ (h !!! i) = id_ (cues !!! i))
    l _ cues cues' _ H); [|auto].
  intros h ir h' _ [Hlen Hf] Hs. apply ts_step_frame in Hs as [Hlen' Hf'].
  split; [congruence|]. intros i.
  destruct (Hf i) as (<- & <- & <-). apply Hf'.
Qed.

(** One turn settles its own pair and keeps the pairs before it: an
    "end" is only ever lowered, a "start" is never written, also when
    two entries of [matched] are the same cue. *)
Lemma ts_step_adjacent (m : list nat) (cues cues' : list cue) (idx r : nat) :
  m !! idx = Some r ->
  adjacent_upto idx cues m ->
  ts_step m cues (idx, r) = Ok cues' ->
  adjacent_upto (S idx) cues' m.
Proof.
  intros Hr Hadj H. replace (S idx) with (idx + 1) by lia.
  apply ts_step_Ok in H
    as (e & He & [[-> [Hn|(n & s & Hn & Hs & Hle)]]|(n & s & Hn & Hs & Hlt & ->)]).
  - intros j rj rj' Hj Hrj Hrj'.
    destruct (decide (j = idx)) as [->|]; [|apply (Hadj j); auto; lia].
    replace (S idx) with (idx + 1) in Hrj' by lia. congruence.
  - intros j rj rj' Hj Hrj Hrj'.
    destruct (decide (j = idx)) as [->|]; [|apply (Hadj j); auto; lia].
    replace (S idx) with (idx + 1) in Hrj' by lia.
    assert (rj = r) by congruence. assert (rj' = n) by congruence. subst.
    exists e, s. auto.
  - pose proof (num_end_valid _ _ _ He) as Hvalid.
    set (c := put_end (cues !!! r) (start (cues !!! n))).
    assert (Hstart : forall i, start (<[r := c]> cues !!! i) = start (cues !!! i)).
    { intros i. destruct (lookup_total_insert_cases cues r i c)
        as [->|(-> & _ & ->)]; reflexivity. }
    assert (Hend : forall i, i <> r -> end_ (<[r := c]> cues !!! i) = end_ (cues !!! i)).
    { intros i Hi. now rewrite list_lookup_total_insert_ne by congruence. }
    assert (Hendr : num (end_ (<[r := c]> cues !!! r)) = Some s).
    { rewrite list_lookup_total_insert_eq by assumption. exact Hs. }
    intros j rj rj' Hj Hrj Hrj'. rewrite Hstart.
    destruct (decide (j = idx)) as [->|Hne].
    + replace (S idx) with (idx + 1) in Hrj' by lia.
      assert (rj = r) by congruence. assert (rj' = n) by congruence. subst.
      exists s, s. repeat split; [assumption | assumption | lia].
    + destruct (Hadj j rj rj') as (ej & sj & Hej & Hsj & Hle); auto; [lia|].
      destruct (decide (rj = r)) as [->|Hrne].
      * exists s, sj. repeat split; [assumption | assumption |].
        assert (ej = e) by congruence. lia.
      * exists ej, sj. rewrite Hend by assumption. auto.
Qed.

Lemma ts_loop_adjacent (m todo : list nat) (idx : nat) (cues cues' : list cue) :
  (forall k r, todo !! k = Some r -> m !! (idx + k) = Some r) ->
  adjacent_upto idx cues m ->
  for_each (ts_step m) (combine (seq idx (length todo)) todo) cues = Ok cues' ->
  adjacent_upto (idx + length todo) cues' m.
Proof.
  revert idx cues. induction todo as [|r todo IH]; intros idx cues Hsuf Hadj; simpl.
  - intros [= <-]. now rewrite Nat.add_0_r.
  - destruct (ts_step m cues (idx, r)) as [cues1|] eqn:Hst; simpl; [|discriminate].
    intros H. replace (idx + S (length todo)) with (S idx + length todo) by lia.
    eapply IH; [| |exact H].
    + intros k r' Hk. replace (S idx + k) with (idx + S k) by lia.
      now apply Hsuf.
    + eapply ts_step_adjacent; [|exact Hadj|exact Hst].
      specialize (Hsuf 0 r eq_refl). now rewrite Nat.add_0_r in Hsuf.
Qed.

Lemma timestamp_check_Ok (st st' : parser) :
  _timestamp_check st = Ok st' ->
  exists cues', for_each (ts_step (matched st)) (enumerate (matched st))
                  (parsed_cue_list st) = Ok cues' /\
    st' = mk_parser (header st) cues' (all_text_lines st) (matched st).
Proof.
  unfold _timestamp_check. destruct (for_each _ _ _) as [cues'|]; simpl;
    [|discriminate].
  intros [= <-]. eauto.
Qed.

Lemma timestamp_check_adjacent (st st' : parser) :
  _timestamp_check st = Ok st' ->
  adjacent_ok (parsed_cue_list st') (matched st').
Proof.
  intros H. apply timestamp_check_Ok in H as (cues' & H & ->). simpl.
  unfold enumerate in H.
  apply (ts_loop_adjacent (matched st) (matched st) 0) in H.
  - intros j r r' Hj Hj'. apply (H j); [|assumption|assumption].
    apply lookup_lt_Some in Hj. simpl. lia.
  - intros k r Hk. exact Hk.
  - intros j r r' Hj. lia.
Qed.

(** With fewer than two matched cues nothing is written. *)
Lemma timestamp_check_short (st st' : parser) :
  length (matched st) < 2 -> _timestamp_check st = Ok st' -> st' = st.
Proof.
  intros Hlen H. apply timestamp_check_Ok in H as (cues' & H & ->).
  assert (cues' = parsed_cue_list st); [|subst; now destruct st].
  destruct (matched st) as [|r [|r' m]]; simpl in *; [| |lia].
  - now injection H as <-.
  - unfold enumerate in H. simpl in H. unfold ts_step in H. simpl in H.
    destruct (stamp_int (end_ (parsed_cue_list st !!! r))); simpl in H;
      [|discriminate].
    now injection H as <-.
Qed.

(** The normaliser completes when every matched cue has timestamps
    that compare as integers. *)
Lemma timestamp_check_total (st : parser) :
  (forall r, In r (matched st) -> timed (parsed_cue_list st !!! r)) ->
  exists st', _timestamp_check st = Ok st'.
Proof.
  intros Ht. unfold _timestamp_check.
  destruct (for_each_total (ts_step (matched st))
    (fun h => forall r, In r (matched st) -> timed (h !!! r))
    (enumerate (matched st))) with (s := parsed_cue_list st)
    as [cues' ->]; [|assumption|simpl; eauto].
  intros h [idx r] Hin Hh. apply in_combine_r in Hin.
  unfold ts_step.
  destruct (Hh r Hin) as [_ [e He]]. apply stamp_int_num in He. rewrite He. simpl.
  destruct (matched st !! (idx + 1)) as [n|] eqn:Hn; [|eauto].
  assert (Hnin : In n (matched st)).
  { apply list_elem_of_In. eapply list_elem_of_lookup_2. exact Hn. }
  destruct (Hh n Hnin) as [[s Hs] _]. pose proof Hs as Hs'.
  apply stamp_int_num in Hs'. rewrite Hs'. simpl.
  destruct (e >? s)%Z; [|eauto].
  eexists. split; [reflexivity|]. intros r0 Hr0.
  destruct (lookup_total_insert_cases h r r0
              (put_end (h !!! r) (start (h !!! n)))) as [->|(-> & _ & ->)];
    [auto|].
  unfold timed. cbn [put_end start end_].
  split; [apply (Hh r0 Hr0) | eauto].
Qed.

(** ** What the normaliser does *)

(** C6. After the single forward pass of the timestamp normaliser over
    any matched-cue sequence, every entry ends, as an integer with the
    non-digits stripped, no later than the next entry starts; with
    fewer than two entries nothing is changed. The pass completes
    whenever every matched cue has a start and an end with a digit. *)
Theorem C6_timestamp_check_no_overlap (st : parser) :
  ((forall r, In r (matched st) -> timed (parsed_cue_list st !!! r)) ->
   exists st', _timestamp_check st = Ok st') /\
  forall st', _timestamp_check st = Ok st' ->
    adjacent_ok (parsed_cue_list st') (matched st') /\
    (length (matched st) < 2 -> st' = st).
Proof.
  split; [apply timestamp_check_total|].
  intros st' H. split.
  - exact (timestamp_check_adjacent st st' H).
  - intros Hlen. now apply (timestamp_check_short st st').
Qed.

Lemma C6_timestamp_check_no_overlap_witness :
  exists st', _timestamp_check scenario_D = Ok st' /\
    end_ (parsed_cue_list st' !!! 0) = Some (txt "00:00:08.000") /\
    adjacent_ok (parsed_cue_list st') (matched st').
Proof.
  eexists. split; [vm_compute; reflexivity|]. split; [reflexivity|].
  refine (proj1 (proj2 (C6_timestamp_check_no_overlap scenario_D) _ _)).
  vm_compute. reflexivity.
Defined.

(** C10. The timestamp normaliser writes at most the end of matched
    cues: the matched sequence is the same cues in the same order and
    number, and the start, the lines and the id of every cue are
    unchanged, as are the header and the queue. *)
Theorem C10_timestamp_check_frame (st st' : parser) :
  _timestamp_check st = Ok st' ->
  header st' = header st /\
  all_text_lines st' = all_text_lines st /\
  matched st' = matched st /\
  length (parsed_cue_list st') = length (parsed_cue_list st) /\
  (forall i, lines (parsed_cue_list st' !!! i) = lines (parsed_cue_list st !!! i) /\
             start (parsed_cue_list st' !!! i) = start (parsed_cue_list st !!! i) /\
             id_ (parsed_cue_list st' !!! i) = id_ (parsed_cue_list st !!! i)) /\
  length (matched_cues st') = length (matched_cues st) /\
  map lines (matched_cues st') = map lines (matched_cues st) /\
  map start (matched_cues st') = map start (matched_cues st) /\
  map id_ (matched_cues st') = map id_ (matched_cues st).
Proof.
  intros H. apply timestamp_check_Ok in H as (cues' & H & ->). simpl.
  apply ts_loop_frame in H as [Hlen Hf].
  repeat split; try reflexivity; try assumption; try apply Hf;
    unfold matched_cues; simpl; rewrite ?length_map; try reflexivity;
    rewrite !map_map; apply map_ext; intros r; apply Hf.
Qed.

Lemma C10_timestamp_check_frame_witness :
  exists st', _timestamp_check scenario_D = Ok st' /\
    matched st' = matched scenario_D /\
    map start (matched_cues st') = map start (matched_cues scenario_D).
Proof.
  eexists. split; [vm_compute; reflexivity|].
  lazymatch goal with
  | |- matched ?s' = _ /\ _ =>
      destruct (C10_timestamp_check_frame scenario_D s')
        as (_ & _ & Hm & _ & _ & _ & _ & Hs & _); [vm_compute; reflexivity|]
  end.
  split; [exact Hm | exact Hs].
Defined.

(** ** The ids of the matched cues *)

Lemma add_id_contiguous_distinct (st : parser) :
  List.NoDup (matched st) ->
  (forall r, In r (matched st) -> r < length (parsed_cue_list st)) ->
  ids_of (_add_id st) = map Some (seq 1 (length (matched st))).
Proof. intros Hnd Hr. apply (add_id_loop_distinct 0); assumption. Qed.

(** C4. The ids of the matched cues should read 1..N. They do when no
    cue is matched twice ([add_id_contiguous_distinct]); here a line
    recurs after more than four other lines, the queue accepts it
    twice, both entries are matched to the last cue that has it, and
    that one cue, written twice by [_add_id], keeps the later id: the
    ids read 6, 2, 3, 4, 5, 6. *)
Theorem C4_recurring_line_repeats_id :
  exists st, process recurring = Ok st /\
    matched st = [5; 1; 2; 3; 4; 5] /\
    ids_of st = [Some 6; Some 2; Some 3; Some 4; Some 5; Some 6] /\
    ids_of st <> map Some (seq 1 (length (matched st))).
Proof.
  eexists. split; [vm_compute; reflexivity|].
  split; [reflexivity|]. split; [reflexivity|]. vm_compute. discriminate.
Qed.

(** ** The whole pipeline *)

Lemma has_text_lines (c c' : cue) : lines c' = lines c -> has_text c -> has_text c'.
Proof. unfold has_text. now intros ->. Qed.

Lemma timed_start (c : cue) : timed c -> exists s, start c = Some s.
Proof.
  intros [[z Hz] _]. destruct (start c) as [s|]; [eauto | discriminate].
Qed.

(** With every cue with text timed, a turn of the matching loop
    completes and keeps the invariant. *)
Lemma match_iter_inv (st : parser) (check : str) (rest : list str) :
  align_inv st -> all_text_lines st = check :: rest ->
  exists st', match_iter st check = Ok st' /\ align_inv st'.
Proof.
  intros (Hcov & Hnb & Htt & Hm) Hq.
  assert (Hin : In check (all_text_lines st)) by (rewrite Hq; now left).
  pose proof (Hnb _ Hin) as Hcheck.
  assert (Htext : forall i, In i (matches_of check (parsed_cue_list st)) ->
            i < length (parsed_cue_list st) /\ timed (parsed_cue_list st !!! i)).
  { intros i Hi. apply In_matches_of in Hi as [Hi Hl]. split; [assumption|].
    apply Htt; [assumption|]. now exists check. }
  destruct (match_iter st check) as [st'|e] eqn:Hit.
  - exists st'. split; [reflexivity|].
    pose proof (match_iter_covered _ _ _ Hcov Hit) as Hcov'.
    destruct (match_iter_lines _ _ _ Hit) as [Hlen Hl].
    apply match_iter_Ok in Hit as (k & f & s & Hk & Hf & Hs & E).
    apply last_In in Hk. apply head_In in Hf.
    destruct (Htext k Hk) as [Hklt Hkt]. destruct (Htext f Hf) as [Hflt Hft].
    split; [assumption|]. split; [|split].
    + intros x Hx. apply Hnb. rewrite E in Hx. simpl in Hx.
      now apply In_remove_lines_sub in Hx.
    + intros i Hi Hhas. rewrite Hlen in Hi.
      assert (Hhas' : has_text (parsed_cue_list st !!! i)).
      { eapply has_text_lines; [|exact Hhas]. symmetry. apply Hl. }
      specialize (Htt i Hi Hhas'). rewrite E. simpl.
      destruct (lookup_total_insert_cases (parsed_cue_list st) k i
                  (set_start (parsed_cue_list st !!! k) s)) as [->|(-> & _ & ->)];
        [assumption|].
      unfold timed. cbn [set_start start end_].
      split; [|apply Htt]. rewrite <- Hs. apply Hft.
    + intros r Hr. rewrite Hlen. rewrite E in Hr. simpl in Hr.
      apply in_app_or in Hr as [Hr|[<-|[]]].
      * destruct (Hm r Hr) as [Hrl Hrt]. split; [assumption|].
        eapply has_text_lines; [|exact Hrt]. apply Hl.
      * split; [assumption|]. apply In_matches_of in Hk as [_ Hk].
        eapply has_text_lines; [apply Hl|]. now exists check.
  - exfalso. unfold match_iter in Hit.
    destruct (matches_of check (parsed_cue_list st)) as [|a l] eqn:Em.
    + destruct (Hcov check Hin) as (i & Hi & Hl).
      assert (In i (matches_of check (parsed_cue_list st)))
        by now apply In_matches_of.
      rewrite Em in H. destruct H.
    + destruct (last (a :: l)) eqn:El; [|apply last_None in El; discriminate].
      simpl in Hit. destruct (Htext a (or_introl eq_refl)) as [_ Hat].
      apply timed_start in Hat as [s Hs]. rewrite Hs in Hit. discriminate.
Qed.

Lemma match_loop_inv (n : nat) (st : parser) :
  align_inv st -> length (all_text_lines st) <= n ->
  exists st', match_loop n st = Some (Ok st') /\ align_inv st'.
Proof.
  revert st. induction n as [|n IH]; intros st Hinv Hn.
  - destruct (all_text_lines st) eqn:Hq; simpl in *; [|lia].
    rewrite Hq. eauto.
  - simpl. destruct (all_text_lines st) as [|check rest] eqn:Hq; [eauto|].
    destruct (match_iter_inv _ _ _ Hinv Hq) as (st1 & Hit & Hinv1).
    rewrite Hit. apply IH; [assumption|].
    pose proof (match_iter_shorter _ _ _ _ Hq Hit) as Hlt.
    rewrite Hq in Hlt. simpl in *. lia.
Qed.

(** What the splitter returns satisfies the invariant when every cue
    with text has a start. *)
Lemma parse_cues_inv (subtitle_str : str) (st : parser) :
  _parse_cues subtitle_str = Ok st ->
  (forall c, In c (parsed_cue_list st) -> has_text c -> start c <> None) ->
  align_inv st.
Proof.
  intros Hp Hs. pose proof (parse_cues_covered _ _ Hp) as Hcov.
  apply parse_cues_spec in Hp as (Hm & Hc & Hq).
  split; [assumption|]. split; [|split].
  - intros x Hx. now apply Hq.
  - intros i Hi Hhas.
    assert (Hin : In (parsed_cue_list st !!! i) (parsed_cue_list st))
      by (apply In_lookup_total; eauto).
    apply stamped_timed; [now apply Hc | now apply Hs].
  - rewrite Hm. intros r [].
Qed.

(** The lines of a cue are the cleaned text lines of its block, and it
    has a start when its block has a timestamp line. *)
Lemma cue_lines_fields (ls : list str) (c0 c : cue) (q q' : list str) :
  for_each cue_line ls (c0, q) = Ok (c, q') ->
  (forall l, In l (lines c) ->
     In l (lines c0) \/
     exists line, In line ls /\ Re.time_reg line = None /\ clean_line line = l) /\
  (start c0 <> None \/ (exists line, In line ls /\ Re.time_reg line <> None) ->
   start c <> None).
Proof.
  revert c0 q. induction ls as [|line ls IH]; intros c0 q; simpl.
  - intros [= <- <-]. split; [auto|]. intros [H|(line & [] & _)]. exact H.
  - destruct (cue_line (c0, q) line) as [[c1 q1]|] eqn:E; simpl; [|discriminate].
    intros H. apply IH in H as [Hl Hs].
    destruct (Re.time_reg line) as [[t r]|] eqn:Et.
    + destruct (cue_line_time c0 q _ _ _ Et) as (a & b & _ & _ & _ & E').
      rewrite E' in E. injection E as <- <-. split.
      * intros l Hin. destruct (Hl l Hin) as [?|(line' & ? & ? & ?)]; [now left|].
        right. exists line'. auto.
      * intros _. apply Hs. left. discriminate.
    + rewrite cue_line_text in E by assumption. injection E as <- _. split.
      * intros l Hin. destruct (Hl l Hin) as [Hin'|(line' & ? & ? & ?)].
        -- simpl in Hin'. apply in_app_or in Hin' as [?|[<-|[]]]; [now left|].
           right. exists line. auto.
        -- right. exists line'. auto.
      * intros [H|(line' & [<-|Hin] & Ht)]; [apply Hs; now left | congruence|].
        apply Hs. right. eauto.
Qed.

(** Every cue of the cue list was made from a cue block of the input. *)
Lemma parse_cues_blocks (subtitle_str : str) (st : parser) (c : cue) :
  _parse_cues subtitle_str = Ok st -> In c (parsed_cue_list st) ->
  exists b q q', In b (cue_blocks subtitle_str) /\ _cue_cleaner q b = Ok (c, q').
Proof.
  unfold _parse_cues, cue_blocks.
  destruct (Py.split [nl; nl] _) as [|hd rest]; [discriminate|]. simpl tail.
  destruct (for_each parse_block rest ([], [])) as [[cues q]|] eqn:E;
    simpl; [|discriminate].
  intros [= <-]. simpl. revert c.
  refine (for_each_inv parse_block
    (fun cq : list cue * list str => forall c, In c cq.1 ->
       exists b q q', In b rest /\ _cue_cleaner q b = Ok (c, q'))
    rest _ _ (cues, q) _ E).
  - intros [cues0 q0] b [cues1 q1] Hb Hinv Hstep. unfold parse_block in Hstep.
    destruct (_cue_cleaner q0 b) as [[c1 q2]|] eqn:Ec; simpl in Hstep;
      [|discriminate].
    injection Hstep as <- <-. simpl. intros c Hc.
    apply in_app_or in Hc as [Hc|[<-|[]]]; [now apply Hinv|].
    exists b, q0, q2. auto.
  - intros c [].
Qed.

(** C2 (amended). For every raw caption text in which every cue block
    that has a non-blank text line also has a timestamp line, the whole
    pipeline (parse cues, match text lines, add ids, timestamp check)
    completes without raising; the splitter alone completes on every
    text. ([get_subtitle_str] reads the cues with [.get] only and has
    no failing step.) *)
Theorem C2_process_completes (subtitle_str : str) :
  (exists st, _parse_cues subtitle_str = Ok st) /\
  ((forall b, In b (cue_blocks subtitle_str) ->
      block_has_text b -> block_has_time b) ->
   exists st', process subtitle_str = Ok st').
Proof.
  destruct (parse_cues_total subtitle_str) as [st Hp].
  split; [eauto|]. intros Hb.
  assert (Hs : forall c, In c (parsed_cue_list st) -> has_text c ->
                 start c <> None).
  { intros c Hc (l & Hl & Hnb).
    destruct (parse_cues_blocks _ _ _ Hp Hc) as (b & q & q' & Hin & Hcc).
    unfold _cue_cleaner in Hcc. apply cue_lines_fields in Hcc as [Hlines Hstart].
    apply Hstart. right. apply (Hb b Hin).
    destruct (Hlines l Hl) as [[]|(line & Hline & Ht & <-)].
    exists line. auto. }
  pose proof (parse_cues_inv _ _ Hp Hs) as Hinv.
  assert (Hm : matched st = []) by now apply parse_cues_spec in Hp as [Hm _].
  destruct (match_loop_inv (length (all_text_lines st)) st Hinv)
    as (st1 & Hl & (_ & _ & Htt & Hmt)); [reflexivity|].
  apply match_text_lines_loop in Hl; [|assumption].
  unfold process. rewrite Hp. simpl. rewrite Hl. simpl.
  destruct (timestamp_check_total (_add_id st1)) as [st2 H2].
  - simpl. intros r Hr. destruct (Hmt r Hr) as [Hrl Hrt].
    destruct (add_id_loop_frame 0 (matched st1) (parsed_cue_list st1))
      as [_ Hf].
    destruct (Hf r) as (Hlines & Hstart & Hend).
    specialize (Htt r Hrl Hrt). unfold timed in *.
    now rewrite Hstart, Hend.
  - exists st2. assumption.
Qed.

Lemma C2_process_completes_witness :
  exists st', process scenario_A = Ok st'.
Proof.
  apply (proj2 (C2_process_completes scenario_A)).
  intros b Hb _. vm_compute in Hb.
  destruct Hb as [<-|[<-|[]]].
  - exists (txt "00:00:01.000 --> 00:00:03.000").
    split; [vm_compute; tauto | vm_compute; discriminate].
  - exists (txt "00:00:02.500 --> 00:00:05.000").
    split; [vm_compute; tauto | vm_compute; discriminate].
Defined.

(** C2, as stated, fails on a cue block that has a text line and no
    timestamp line: the aligner reads the "start" of the cue, which was
    never set. *)
Lemma C2_no_timestamp_raises : process no_timestamp = Raise KeyError.
Proof. vm_compute. reflexivity. Qed.

(** ** The timestamp line *)

(** C8 (amended). The timestamp-line classifier accepts exactly the
    lines that begin with [<start> --> <end>] where each of the two
    timestamps is three groups of two digits, each group followed by a
    colon or by nothing, then a dot and three digits; an accepted line
    sets the start and the end of the cue to these two timestamps. No
    other separator is accepted: a line that is not accepted becomes,
    cleaned, a text line of the cue. *)
Theorem C8_time_line_colon_or_nothing (line : str) (c : cue) (q : list str) :
  (Re.time_reg line <> None <->
   exists a b r, is_stamp a /\ is_stamp b /\ line = a ++ txt " --> " ++ b ++ r) /\
  (forall a b r, is_stamp a -> is_stamp b -> line = a ++ txt " --> " ++ b ++ r ->
     cue_line (c, q) line = Ok (set_end (set_start c a) b, q)) /\
  (Re.time_reg line = None ->
   exists q', cue_line (c, q) line =
              Ok (set_lines c (lines c ++ [clean_line line]), q')).
Proof.
  split; [split|split]; [| | |intros H; rewrite cue_line_text by assumption; eauto].
  - destruct (Re.time_reg line) as [[t r]|] eqn:E; [|congruence]. intros _.
    apply time_reg_inv in E as (a & b & Ha & Hb & -> & ->).
    exists a, b, r. repeat split; try assumption. now rewrite <- !app_assoc.
  - intros (a & b & r & Ha & Hb & ->). now rewrite time_reg_accepts.
  - intros a b r Ha Hb ->. unfold cue_line.
    rewrite time_reg_accepts by assumption. now rewrite split_arrow.
Qed.

Lemma C8_time_line_colon_or_nothing_witness :
  cue_line (new_cue_dict, []) (txt "00:00:01.000 --> 000003.000 align:start") =
  Ok (mk_cue [] (Some (txt "00:00:01.000")) (Some (txt "000003.000")) None, []).
Proof.
  apply (proj1 (proj2 (C8_time_line_colon_or_nothing
                  (txt "00:00:01.000 --> 000003.000 align:start")
                  new_cue_dict []))
           (txt "00:00:01.000") (txt "000003.000") (txt " align:start")).
  - exists (txt "00:"), (txt "00:"), (txt "01"), "0"%char, "0"%char, "0"%char.
    repeat split; try reflexivity.
    + exists "0"%char, "0"%char. auto.
    + exists "0"%char, "0"%char. auto.
    + exists "0"%char, "1"%char. auto.
  - exists (txt "00"), (txt "00"), (txt "03"), "0"%char, "0"%char, "0"%char.
    repeat split; try reflexivity.
    + exists "0"%char, "0"%char. auto.
    + exists "0"%char, "0"%char. auto.
    + exists "0"%char, "3"%char. auto.
  - reflexivity.
Defined.

(** C8, as stated, fails for a separator other than the colon: with
    dashes the line is not a timestamp line; it becomes a text line of
    the cue, whose start and end stay unset. *)
Lemma C8_dash_separator_is_text :
  Re.time_reg (txt "00-00-01.000 --> 00-00-03.000") = None /\
  cue_line (new_cue_dict, []) (txt "00-00-01.000 --> 00-00-03.000") =
  Ok (mk_cue [txt "00-00-01.000 --> 00-00-03.000"] None None None,
      [txt "00-00-01.000 --> 00-00-03.000"]).
Proof. split; vm_compute; reflexivity. Qed.

(** ** The dedup window of the queue *)

Lemma last_n_snoc (x : str) (q : list str) : In x (Py.last_n 4 (q ++ [x])).
Proof.
  unfold Py.last_n. rewrite length_app. simpl.
  rewrite skipn_app. apply in_or_app.
  replace (length q + 1 - 4 - length q) with 0 by lia. right. now left.
Qed.

Lemma queue_after_app (x : str) (l1 l2 q : list str) :
  queue_after x (l1 ++ l2) q = queue_after x l2 (queue_after x l1 q).
Proof.
  unfold queue_after. rewrite existsb_app.
  destruct (Py.contains x (Py.last_n 4 q)) eqn:Hc; simpl.
  - rewrite !andb_false_r. rewrite Hc. now rewrite andb_false_r.
  - rewrite !andb_true_r. destruct (existsb is_text l1); simpl.
    + assert (Py.contains x (Py.last_n 4 (q ++ [x])) = true) as ->
        by (apply contains_In, last_n_snoc).
      now rewrite andb_false_r.
    + now rewrite Hc, andb_true_r.
Qed.

(** The lines of a cue block that are timestamp lines or clean to [x]
    put [x] on the queue at most once. *)
Lemma cue_lines_same (x : str) (ls : list str) (c : cue) (q : list str) :
  nonblank x ->
  (forall line, In line ls -> Re.time_reg line <> None \/ clean_line line = x) ->
  exists c', for_each cue_line ls (c, q) = Ok (c', queue_after x ls q).
Proof.
  intros Hx. revert c q. induction ls as [|line ls IH]; intros c q Hls.
  - exists c. unfold queue_after. reflexivity.
  - change (line :: ls) with ([line] ++ ls) at 2. rewrite queue_after_app.
    assert (Hl : exists c1, cue_line (c, q) line = Ok (c1, queue_after x [line] q)).
    { unfold queue_after, is_text. simpl.
      destruct (Re.time_reg line) as [[t r]|] eqn:E.
      - destruct (cue_line_time c q _ _ _ E) as (a & b & _ & _ & _ & ->). eauto.
      - rewrite cue_line_text by assumption.
        destruct (Hls line (or_introl eq_refl)) as [? | ->]; [congruence|].
        rewrite Hx. simpl. eauto. }
    destruct Hl as [c1 Hl]. simpl. rewrite Hl. simpl.
    apply IH. intros l Hin. apply Hls. now right.
Qed.

Lemma cue_blocks_same (x : str) (blocks : list str) (cues : list cue) (q : list str) :
  nonblank x ->
  (forall b line, In b blocks -> In line (Py.split [nl] b) ->
     Re.time_reg line <> None \/ clean_line line = x) ->
  exists cues',
    for_each parse_block blocks (cues, q) =
    Ok (cues', queue_after x (concat (map (Py.split [nl]) blocks)) q).
Proof.
  intros Hx. revert cues q. induction blocks as [|b blocks IH]; intros cues q Hb.
  - exists cues. unfold queue_after. reflexivity.
  - simpl. rewrite queue_after_app. unfold parse_block at 1. unfold _cue_cleaner.
    destruct (cue_lines_same x (Py.split [nl] b) new_cue_dict q Hx) as [c ->].
    + intros line Hl. apply (Hb b); [now left | assumption].
    + simpl. apply IH. intros b' line Hb'. apply Hb. now right.
Qed.

(** C7 (amended). A line is skipped when it equals one of the four
    most recently accepted queue entries. So for any input whose cues,
    five or any number of them, have the non-blank line X as their only
    text line, the unique-line queue is X exactly once. *)
Theorem C7_same_line_queued_once (subtitle_str x : str) :
  nonblank x ->
  (forall b line, In b (cue_blocks subtitle_str) -> In line (Py.split [nl] b) ->
     Re.time_reg line <> None \/ clean_line line = x) ->
  (exists b line, In b (cue_blocks subtitle_str) /\ In line (Py.split [nl] b) /\
     Re.time_reg line = None) ->
  (forall c q line, Re.time_reg line = None ->
     In (clean_line line) (Py.last_n 4 q) ->
     exists c', cue_line (c, q) line = Ok (c', q)) /\
  exists st, _parse_cues subtitle_str = Ok st /\
    all_text_lines st = [x] /\ occurrences x (all_text_lines st) = 1.
Proof.
  intros Hx Hall (b & line & Hb & Hl & Ht). split.
  - intros c q l Hl' Hin. rewrite cue_line_text by assumption.
    apply contains_In in Hin. rewrite Hin, andb_false_r. eauto.
  - unfold _parse_cues, cue_blocks in *.
    destruct (Py.split [nl; nl] _) as [|hd rest]; [destruct Hb|].
    simpl in Hb, Hall.
    destruct (cue_blocks_same x rest [] [] Hx Hall) as [cues ->]. simpl.
    eexists. split; [reflexivity|]. simpl.
    assert (E : existsb is_text (concat (map (Py.split [nl]) rest)) = true).
    { apply existsb_exists. exists line. split.
      - apply in_concat. exists (Py.split [nl] b). split; [|assumption].
        now apply in_map.
      - unfold is_text. now rewrite Ht. }
    unfold queue_after. rewrite E. simpl.
    split; [reflexivity|]. unfold occurrences. simpl. now rewrite str_eqb_refl.
Qed.

Lemma C7_same_line_queued_once_witness :
  exists st, _parse_cues five_same = Ok st /\ all_text_lines st = [txt "X"].
Proof.
  destruct (C7_same_line_queued_once five_same (txt "X"))
    as (_ & st & Hp & Hq & _).
  - vm_compute. reflexivity.
  - intros b line Hb Hl. vm_compute in Hb.
    repeat (destruct Hb as [<-|Hb]; [vm_compute in Hl;
      repeat (destruct Hl as [<-|Hl]; [first [right; reflexivity | left; discriminate]|]);
      destruct Hl|]).
    destruct Hb.
  - exists (txt "00:00:05.000 --> 00:00:06.000" ++ nl :: txt "X"), (txt "X").
    split; [vm_compute; tauto|]. split; [vm_compute; tauto | reflexivity].
  - exists st. split; assumption.
Defined.

(** C7, as stated, fails when the cues show more than X: here each of
    five consecutive cues has the lines X, A, B, C, D; when X comes
    again, the last four accepted entries are A, B, C, D, and X is
    accepted again, five times in all. *)
Lemma C7_five_cues_queued_five_times :
  exists st, _parse_cues five_cues = Ok st /\
    length (parsed_cue_list st) = 5 /\
    (forall c, In c (parsed_cue_list st) -> In (txt "X") (lines c)) /\
    occurrences (txt "X") (all_text_lines st) = 5.
Proof.
  eexists. split; [vm_compute; reflexivity|]. split; [reflexivity|]. split.
  - intros c Hc. repeat (destruct Hc as [<-|Hc]; [now left|]). destruct Hc.
  - vm_compute. reflexivity.
Qed.

(** ** Serialising and splitting again *)

Lemma replace_other (old new : str) (c : ascii) (s : str) :
  Py.startswith old (c :: s) = false ->
  Py.replace old new (c :: s) = c :: Py.replace old new s.
Proof. unfold Py.replace. simpl Py.replace_go. now intros ->. Qed.

Lemma not_In_Forall (x : ascii) (l : str) :
  ~ In x l <-> Forall (fun c => c <> x) l.
Proof.
  rewrite List.Forall_forall. split.
  - intros H c Hc ->. contradiction.
  - intros H Hx. now apply (H x Hx).
Qed.

Lemma replace_line (l s : str) :
  ~ In nl l -> Py.replace nl_blank_nl [nl] (l ++ s) = l ++ Py.replace nl_blank_nl [nl] s.
Proof.
  induction l as [|c l IH]; intros Hl; [reflexivity|].
  rewrite <- app_comm_cons. rewrite replace_other.
  - rewrite IH; [reflexivity|]. intros H. apply Hl. now right.
  - apply startswith_first. intros ->. apply Hl. now left.
Qed.

Lemma replace_nl (s : str) :
  Py.startswith (txt " " ++ [nl]) s = false ->
  Py.replace nl_blank_nl [nl] (nl :: s) = nl :: Py.replace nl_blank_nl [nl] s.
Proof.
  intros H. apply replace_other.
  change nl_blank_nl with (nl :: " "%char :: [nl]).
  change (txt " " ++ [nl]) with (" "%char :: [nl]) in H.
  cbn [Py.startswith] in H |- *. now rewrite Ascii.eqb_refl, H.
Qed.

Lemma plain_safe (l s : str) :
  plain l -> Py.startswith (txt " " ++ [nl]) (l ++ s) = false.
Proof.
  intros (Hne & Hnl & Hsp). destruct l as [|c l]; [congruence|].
  change (txt " " ++ [nl]) with (" "%char :: [nl]). cbn [Py.startswith app].
  destruct (Ascii.eqb " " c) eqn:E; [|reflexivity].
  apply Ascii.eqb_eq in E. subst c.
  destruct l as [|c' l]; [now destruct Hsp|]. cbn [Py.startswith app].
  destruct (Ascii.eqb nl c') eqn:E'; [|reflexivity].
  apply Ascii.eqb_eq in E'. subst c'. destruct Hnl. right. now left.
Qed.

Lemma join_cons (l : str) (ls : list str) :
  ls <> [] -> Py.join [nl] (l :: ls) = l ++ nl :: Py.join [nl] ls.
Proof. destruct ls; [congruence | reflexivity]. Qed.

Lemma blocks_text_cons (ls : list str) (bs : list (list str)) :
  blocks_text (ls :: bs) = Py.join [nl] ls ++ nl :: nl :: blocks_text bs.
Proof. unfold blocks_text. simpl. now rewrite <- app_assoc. Qed.

Lemma block_safe (ls : list str) (s : str) :
  block_ok ls -> Py.startswith (txt " " ++ [nl]) (Py.join [nl] ls ++ s) = false.
Proof.
  intros [Hne Hp]. destruct ls as [|l [|l2 ls]]; [congruence| |].
  - apply plain_safe. now inversion Hp.
  - rewrite join_cons by discriminate. rewrite <- app_assoc.
    apply plain_safe. now inversion Hp.
Qed.

Lemma replace_block (ls : list str) (s : str) :
  block_ok ls ->
  Py.replace nl_blank_nl [nl] (Py.join [nl] ls ++ s) =
  Py.join [nl] ls ++ Py.replace nl_blank_nl [nl] s.
Proof.
  intros [Hne Hp]. induction ls as [|l ls IH]; [congruence|].
  inversion Hp as [|? ? Hl Hls]; subst. destruct ls as [|l2 ls].
  - simpl Py.join. apply replace_line, Hl.
  - rewrite join_cons by discriminate. rewrite <- app_assoc.
    rewrite replace_line by apply Hl. rewrite <- app_comm_cons.
    rewrite replace_nl by (apply block_safe; split; [discriminate | assumption]).
    rewrite IH by (discriminate || assumption). now rewrite <- app_assoc.
Qed.

Lemma replace_blocks (bs : list (list str)) :
  Forall block_ok bs ->
  Py.replace nl_blank_nl [nl] (blocks_text bs) = blocks_text bs.
Proof.
  induction 1 as [|ls bs Hls Hbs IH]; [reflexivity|].
  rewrite blocks_text_cons.
  rewrite replace_block by assumption.
  rewrite replace_nl by reflexivity. rewrite replace_nl.
  - now rewrite IH.
  - destruct Hbs as [|ls' bs' Hls' _]; [reflexivity|].
    rewrite blocks_text_cons. now apply block_safe.
Qed.

Lemma split_line (l s : str) :
  ~ In nl l ->
  Py.split [nl; nl] (l ++ s) = Py.prepend l (Py.split [nl; nl] s).
Proof. intros H. apply split_free_app. now apply not_In_Forall. Qed.

Lemma split_nl_other (c : ascii) (s : str) :
  c <> nl ->
  Py.split [nl; nl] (nl :: c :: s) =
  Py.cons_head nl (Py.split [nl; nl] (c :: s)).
Proof.
  intros Hc. apply split_other. cbn [Py.startswith].
  rewrite Ascii.eqb_refl.
  destruct (Ascii.eqb nl c) eqn:E; [|reflexivity].
  apply Ascii.eqb_eq in E. congruence.
Qed.

Lemma block_head (ls : list str) (s : str) :
  block_ok ls ->
  exists c t, Py.join [nl] ls ++ s = c :: t /\ c <> nl.
Proof.
  intros [Hne Hp]. destruct ls as [|l ls]; [congruence|].
  inversion Hp as [|? ? (Hl & Hnl & _) _]; subst.
  destruct l as [|c l]; [congruence|].
  assert (Hc : c <> nl) by (intros ->; apply Hnl; now left).
  destruct ls as [|l2 ls].
  - exists c, (l ++ s). split; [reflexivity | assumption].
  - rewrite join_cons by discriminate. simpl. eauto.
Qed.

Lemma split_block (ls : list str) (s : str) :
  block_ok ls ->
  Py.split [nl; nl] (Py.join [nl] ls ++ nl :: nl :: s) =
  Py.join [nl] ls :: Py.split [nl; nl] s.
Proof.
  intros [Hne Hp]. induction ls as [|l ls IH]; [congruence|].
  inversion Hp as [|? ? Hl Hls]; subst. destruct Hl as (_ & Hnl & _).
  destruct ls as [|l2 ls].
  - simpl Py.join. rewrite split_line by assumption.
    rewrite (split_sep nl [nl] s : Py.split [nl; nl] (nl :: nl :: s) = _).
    rewrite prepend_cons. now rewrite app_nil_r.
  - rewrite join_cons by discriminate. rewrite <- app_assoc.
    rewrite split_line by assumption. rewrite <- app_comm_cons.
    destruct (block_head (l2 :: ls) (nl :: nl :: s)) as (c & t & E & Hc);
      [split; [discriminate | assumption]|].
    rewrite E. rewrite split_nl_other by assumption. rewrite <- E.
    rewrite IH by (discriminate || assumption).
    simpl Py.cons_head. now rewrite prepend_cons.
Qed.

Lemma split_blocks (bs : list (list str)) :
  Forall block_ok bs ->
  Py.split [nl; nl] (blocks_text bs) = map (Py.join [nl]) bs ++ [[]].
Proof.
  induction 1 as [|ls bs Hls Hbs IH]; [reflexivity|].
  rewrite blocks_text_cons.
  rewrite split_block by assumption. simpl. now rewrite IH.
Qed.

Lemma split_lines (ls : list str) :
  ls <> [] -> Forall (fun l => ~ In nl l) ls ->
  Py.split [nl] (Py.join [nl] ls) = ls.
Proof.
  intros Hne Hp. induction ls as [|l ls IH]; [congruence|].
  inversion Hp as [|? ? Hl Hls]; subst. apply not_In_Forall in Hl.
  destruct ls as [|l2 ls].
  - simpl Py.join. now apply split_free.
  - rewrite join_cons by discriminate.
    rewrite split_free_app by assumption.
    rewrite (split_sep nl [] (Py.join [nl] (l2 :: ls))
               : Py.split [nl] (nl :: Py.join [nl] (l2 :: ls)) = _).
    rewrite prepend_cons.
    rewrite IH by (discriminate || assumption). now rewrite app_nil_r.
Qed.


(** The decimal text of an id is made of digits, and is not empty. *)
Lemma str_of_nat_digits (n : nat) :
  Forall (fun c => Py.is_digit c = true) (Py.str_of_nat n).
Proof.
  unfold Py.str_of_nat. generalize (Nat.to_uint n). intros d.
  induction d; simpl; try apply List.Forall_nil;
    apply List.Forall_cons; try reflexivity; assumption.
Qed.

Lemma str_of_nat_nonempty (n : nat) : Py.str_of_nat n <> [].
Proof.
  unfold Py.str_of_nat.
  assert (H : Nat.to_uint n <> Decimal.Nil).
  { rewrite <- (DecimalNat.Unsigned.of_to n) at 1.
    rewrite DecimalNat.Unsigned.to_of. apply DecimalFacts.unorm_nonnil. }
  destruct (Nat.to_uint n); try congruence; discriminate.
Qed.

Lemma digits_no (x : ascii) (s : str) :
  Forall (fun c => Py.is_digit c = true) s -> Py.is_digit x = false ->
  ~ In x s.
Proof.
  intros Hs Hx Hin. rewrite List.Forall_forall in Hs.
  specialize (Hs x Hin). congruence.
Qed.

Lemma digits_plain (s : str) :
  s <> [] -> Forall (fun c => Py.is_digit c = true) s -> plain s.
Proof.
  intros Hne Hs. split; [assumption|]. split.
  - now apply digits_no.
  - intros ->. inversion Hs. discriminate.
Qed.

(** A line of digits is not a timestamp line. *)
Lemma digits_not_time (s : str) :
  Forall (fun c => Py.is_digit c = true) s -> Re.time_reg s = None.
Proof.
  intros Hs. destruct (Re.time_reg s) as [[t r]|] eqn:E; [|reflexivity].
  apply time_reg_inv in E as (a & b & _ & _ & -> & ->).
  exfalso. apply (digits_no " "%char _ Hs); [reflexivity|].
  rewrite <- !app_assoc. apply in_or_app. right. now left.
Qed.

(** [re.sub] leaves a text alone in which the pattern cannot start. *)
Lemma sub_no_open (m : Re.matcher) (x : ascii) (s : str) :
  (forall c s' r, m (c :: s') = Some r -> c = x) ->
  ~ In x s -> Re.sub m s = s.
Proof.
  intros Hm. unfold Re.sub. induction s as [|c s IH]; intros Hx; [reflexivity|].
  simpl. destruct (m (c :: s)) as [[a r]|] eqn:E.
  - apply Hm in E. subst c. destruct Hx. now left.
  - rewrite IH; [reflexivity|]. intros H. apply Hx. now right.
Qed.

Lemma open_first (m : Re.matcher) (c : ascii) (s r : str) (res : str * str) :
  Re.seq (Re.lit (txt "<")) m (c :: s) = Some res -> c = "<"%char.
Proof.
  destruct res as [t r']. intros H.
  apply seq_inv in H as (a & r1 & b & Hl & _ & _).
  apply lit_inv in Hl as [_ Hl]. now injection Hl.
Qed.

Lemma clean_line_no_open (s : str) : ~ In "<"%char s -> clean_line s = s.
Proof.
  intros H. unfold clean_line.
  rewrite (sub_no_open Re.stamp_reg "<"%char s); [|clear|assumption].
  - apply (sub_no_open Re.tag_reg "<"%char); [|assumption]. clear. intros c s r.
    unfold Re.tag_reg. now apply open_first.
  - intros c s r. unfold Re.stamp_reg. now apply open_first.
Qed.

(** The timestamp line the serialiser writes is read as one. *)
Lemma cue_line_stamps (c : cue) (q : list str) (a b r : str) :
  is_stamp a -> is_stamp b ->
  cue_line (c, q) (a ++ txt " --> " ++ b ++ r) =
  Ok (set_end (set_start c a) b, q).
Proof.
  intros Ha Hb. unfold cue_line.
  rewrite time_reg_accepts by assumption. now rewrite split_arrow.
Qed.

Lemma stamp_line_plain (a b : str) :
  is_stamp a -> is_stamp b -> plain (a ++ txt " --> " ++ b).
Proof.
  intros Ha Hb.
  assert (Hn : forall x, is_stamp x -> ~ In nl x).
  { intros x Hx. apply not_In_Forall.
    apply stamp_no; [assumption | reflexivity | | ]; discriminate. }
  destruct (stamp_head a Ha) as (d & a' & -> & Hd).
  split; [discriminate|]. split.
  - intros H. apply in_app_or in H as [H|H]; [now apply (Hn _ Ha)|].
    apply in_app_or in H as [H|H]; [|now apply (Hn _ Hb)].
    simpl in H. repeat (destruct H as [H|H]; [discriminate|]). destruct H.
  - intros E. injection E as -> _. discriminate.
Qed.

Lemma serial_block_ok (c : cue) : serial_ok c -> block_ok (block_of c).
Proof.
  intros ((n & Hn) & (a & Ha & Sa) & (b & Hb & Sb) & (l & Hl & Hp & _ & _)).
  unfold block_of. rewrite Hn, Ha, Hb, Hl. simpl. split; [discriminate|].
  repeat apply List.Forall_cons; try apply List.Forall_nil.
  - apply digits_plain; [apply str_of_nat_nonempty | apply str_of_nat_digits].
  - now apply stamp_line_plain.
  - assumption.
Qed.

Lemma cue_text_block (c : cue) :
  lines c <> [] -> cue_text c = Py.join [nl] (block_of c) ++ [nl; nl].
Proof.
  intros H. unfold cue_text, block_of.
  change ([show_id (id_ c);
           show_str (start c) ++ txt " --> " ++ show_str (end_ c)] ++ lines c)
    with (show_id (id_ c) ::
          (show_str (start c) ++ txt " --> " ++ show_str (end_ c)) :: lines c).
  rewrite join_cons by discriminate. rewrite join_cons by assumption.
  repeat (rewrite <- app_assoc || rewrite <- app_comm_cons). reflexivity.
Qed.

Lemma get_subtitle_str_concat (st : parser) :
  get_subtitle_str st =
  header st ++ [nl; nl] ++ concat (map cue_text (matched_cues st)).
Proof.
  unfold get_subtitle_str, matched_cues.
  assert (H : forall (m : list nat) (acc : str),
    fold_left (fun acc r => acc ++ cue_text (parsed_cue_list st !!! r)) m acc =
    acc ++ concat (map cue_text (map (fun r => parsed_cue_list st !!! r) m))).
  { induction m as [|r m IH]; intros acc; simpl.
    - now rewrite app_nil_r.
    - rewrite IH. now rewrite <- app_assoc. }
  rewrite H. now rewrite <- app_assoc.
Qed.

Lemma get_subtitle_str_blocks (st : parser) (hls : list str) :
  header st = Py.join [nl] hls ->
  (forall c, In c (matched_cues st) -> lines c <> []) ->
  get_subtitle_str st = blocks_text (hls :: map block_of (matched_cues st)).
Proof.
  intros Hh Hl. rewrite get_subtitle_str_concat, blocks_text_cons, Hh.
  f_equal. simpl. f_equal. f_equal.
  induction (matched_cues st) as [|c cs IH]; [reflexivity|].
  simpl map. rewrite blocks_text_cons. simpl concat.
  rewrite cue_text_block by (apply Hl; now left).
  rewrite <- app_assoc. simpl. f_equal. f_equal. f_equal.
  apply IH. intros c' Hc'. apply Hl. now right.
Qed.

(** What the splitter makes of the block written for a cue, and of the
    empty block after the last one. *)
Lemma cue_cleaner_block (c : cue) (q : list str) :
  serial_ok c ->
  exists q', _cue_cleaner q (Py.join [nl] (block_of c)) = Ok (reparsed c, q').
Proof.
  intros Hc. pose proof (serial_block_ok c Hc) as [Hne Hp].
  destruct Hc as ((n & Hn) & (a & Ha & Sa) & (b & Hb & Sb) & (l & Hl & Hpl & Ht & Hcl)).
  unfold _cue_cleaner. rewrite split_lines.
  - unfold block_of, reparsed. rewrite Hn, Ha, Hb, Hl.
    cbn [app for_each bind show_id show_str].
    pose proof (str_of_nat_digits n) as Hd.
    rewrite cue_line_text by now apply digits_not_time.
    rewrite clean_line_no_open by (now apply digits_no).
    cbn [bind].
    replace (a ++ txt " --> " ++ b) with (a ++ txt " --> " ++ b ++ [])
      by now rewrite app_nil_r.
    rewrite cue_line_stamps by assumption. cbn [bind].
    rewrite cue_line_text by assumption. rewrite Hcl.
    cbn [bind set_lines set_start set_end lines start end_ id_ new_cue_dict app].
    eauto.
  - assumption.
  - eapply List.Forall_impl; [|exact Hp]. intros x (_ & Hx & _). exact Hx.
Qed.

Lemma cue_cleaner_empty (q : list str) :
  _cue_cleaner q [] = Ok (trailing_cue, q).
Proof. reflexivity. Qed.

Lemma parse_blocks_serialised (cs : list cue) (cues : list cue) (q : list str) :
  (forall c, In c cs -> serial_ok c) ->
  exists q',
    for_each parse_block (map (Py.join [nl]) (map block_of cs) ++ [[]]) (cues, q) =
    Ok (cues ++ map reparsed cs ++ [trailing_cue], q').
Proof.
  revert cues q. induction cs as [|c cs IH]; intros cues q Hcs.
  - exists q. cbn [map app for_each]. unfold parse_block.
    now rewrite cue_cleaner_empty.
  - cbn [map app for_each]. unfold parse_block at 1.
    destruct (cue_cleaner_block c q) as [q1 ->]; [apply Hcs; now left|].
    cbn [bind fst snd]. destruct (IH (cues ++ [reparsed c]) q1) as [q' Hq'].
    + intros c' Hc'. apply Hcs. now right.
    + exists q'. rewrite Hq'. now rewrite <- app_assoc.
Qed.

(** C3 (amended). For a matched-cue sequence in which every cue has
    an id, two timestamps and one text line (not empty, without line
    break, not a single blank, not a timestamp line, without markup
    left to strip), under a header of such lines, serialising with
    [get_subtitle_str] and splitting the text again with [_parse_cues]
    gives the same header and, for every matched cue in order, a cue
    with the identical start and end whose lines are the decimal id
    followed by the line of the matched cue, and after them one more
    cue, without timestamps, whose only line is empty. *)
Theorem C3_split_of_serialised (st : parser) :
  header_ok (header st) ->
  (forall c, In c (matched_cues st) -> serial_ok c) ->
  exists st', _parse_cues (get_subtitle_str st) = Ok st' /\
    header st' = header st /\
    parsed_cue_list st' = map reparsed (matched_cues st) ++ [trailing_cue] /\
    forall i c, matched_cues st !! i = Some c ->
      exists c', parsed_cue_list st' !! i = Some c' /\
        start c' = start c /\ end_ c' = end_ c /\
        lines c' = show_id (id_ c) :: lines c.
Proof.
  intros (hls & Hh & Eh) Hcs.
  assert (Hb : Forall block_ok (hls :: map block_of (matched_cues st))).
  { apply List.Forall_cons; [assumption|]. apply List.Forall_forall.
    intros ls Hls. apply in_map_iff in Hls as (c & <- & Hc).
    now apply serial_block_ok, Hcs. }
  unfold _parse_cues. rewrite (get_subtitle_str_blocks st hls Eh).
  - rewrite replace_blocks, split_blocks by assumption. simpl map. simpl app.
    destruct (parse_blocks_serialised (matched_cues st) [] [] Hcs) as [q' ->].
    simpl. eexists. split; [reflexivity|]. simpl.
    split; [now rewrite Eh|]. split; [reflexivity|].
    intros i c Hi. exists (reparsed c). split; [|auto].
    apply lookup_app_l_Some. now rewrite list_lookup_fmap, Hi.
  - intros c Hc. destruct (Hcs c Hc) as (_ & _ & _ & l & -> & _). discriminate.
Qed.

Lemma is_stamp_check (s : str) : Re.stamp s = Some (s, []) -> is_stamp s.
Proof. intros H. now apply stamp_inv in H as [H _]. Qed.

Lemma C3_split_of_serialised_witness :
  exists st', _parse_cues (get_subtitle_str one_cue) = Ok st' /\
    header st' = header one_cue /\
    parsed_cue_list st' = map reparsed (matched_cues one_cue) ++ [trailing_cue].
Proof.
  destruct (C3_split_of_serialised one_cue) as (st' & Hp & Hh & Hc & _).
  - exists [txt "WEBVTT"]. split; [|reflexivity]. split; [discriminate|].
    apply List.Forall_cons; [|apply List.Forall_nil].
    split; [discriminate|]. split; [|discriminate].
    vm_compute. intuition discriminate.
  - intros c [<-|[]]. split; [exists 1; reflexivity|]. split; [|split].
    + exists (txt "00:00:01.000"). split; [reflexivity|].
      apply is_stamp_check. vm_compute. reflexivity.
    + exists (txt "00:00:03.000"). split; [reflexivity|].
      apply is_stamp_check. vm_compute. reflexivity.
    + exists (txt "Hello"). split; [reflexivity|]. split; [|split].
      * split; [discriminate|]. split; [|discriminate].
        vm_compute. intuition discriminate.
      * vm_compute. reflexivity.
      * vm_compute. reflexivity.
  - exists st'. auto.
Defined.

(** C3, as stated, fails on one matched cue with the line "Hello": the
    text written for it starts with the id line "1", which the splitter
    reads as a text line, and ends in an empty block, which the
    splitter reads as one more cue; no cue read back has the lines of
    the matched cue. *)
Lemma C3_split_of_serialised_differs :
  exists st', _parse_cues (get_subtitle_str one_cue) = Ok st' /\
    parsed_cue_list st' =
      [mk_cue [txt "1"; txt "Hello"] (Some (txt "00:00:01.000"))
              (Some (txt "00:00:03.000")) None;
       mk_cue [[]] None None None] /\
    ~ same_cue_set (matched_cues one_cue) (parsed_cue_list st').
Proof.
  eexists. split; [vm_compute; reflexivity|]. split; [reflexivity|].
  intros [H _]. destruct (H _ (or_introl eq_refl)) as (c' & Hc' & Hl & _).
  destruct Hc' as [<-|[<-|[]]]; discriminate Hl.
Qed.

(** * More on the parser object *)

(** ** The queue the splitter builds *)

Lemma last_n_lookup (q : list str) (i : nat) (x : str) :
  length q <= i + 4 -> q !! i = Some x -> In x (Py.last_n 4 q).
Proof.
  intros Hlen Hi. unfold Py.last_n. apply list_elem_of_In.
  apply (list_elem_of_lookup_2 _ (i - (length q - 4))).
  rewrite lookup_drop. rewrite <- Hi. f_equal.
  apply lookup_lt_Some in Hi. lia.
Qed.

Lemma window_ok_snoc (q : list str) (x : str) :
  window_ok q -> ~ In x (Py.last_n 4 q) -> window_ok (q ++ [x]).
Proof.
  intros Hq Hx i j y Hij Hj Hi Hjy.
  destruct (decide (j < length q)) as [Hlt|Hge].
  - rewrite lookup_app_l in Hi by lia. rewrite lookup_app_l in Hjy by lia.
    now apply (Hq i j y).
  - apply lookup_snoc_Some in Hjy as [[Hlt _]|[Hjl <-]]; [lia|].
    apply lookup_snoc_Some in Hi as [[_ Hi]|[Hil _]]; [|lia].
    apply Hx. apply (last_n_lookup q i); [lia | assumption].
Qed.

(** X1. In the queue the splitter builds, whatever the input, no entry
    equals any of the four entries before it, and no entry is blank. *)
Theorem X1_queue_window (subtitle_str : str) (st : parser) :
  _parse_cues subtitle_str = Ok st ->
  window_ok (all_text_lines st) /\
  forall x, In x (all_text_lines st) -> nonblank x.
Proof.
  intros Hp. split; [|intros x Hx; now apply (parse_cues_spec _ _ Hp)].
  revert Hp. unfold _parse_cues.
  destruct (Py.split [nl; nl] _) as [|hd rest]; [discriminate|].
  destruct (for_each parse_block rest ([], [])) as [[cues q]|] eqn:E;
    simpl; [|discriminate].
  intros [= <-]. simpl.
  refine (for_each_inv parse_block
    (fun cq : list cue * list str => window_ok cq.2) rest _ _ (cues, q) _ E).
  - clear. intros [cues q] blk [cues' q'] _ Hq Hb. unfold parse_block in Hb.
    destruct (_cue_cleaner q blk) as [[c q1]|] eqn:Ec; simpl in Hb; [|discriminate].
    injection Hb as <- <-. simpl in *. unfold _cue_cleaner in Ec.
    refine (for_each_inv cue_line
      (fun cq : cue * list str => window_ok cq.2) _ _ (new_cue_dict, q)
      (c, q1) Hq Ec).
    clear. intros [c q] line [c' q'] _ Hq Hl. cbn [fst snd] in *.
    destruct (Re.time_reg line) as [[t r]|] eqn:E.
    + destruct (cue_line_time c q _ _ _ E) as (a & b & _ & _ & _ & Hl').
      rewrite Hl' in Hl. now injection Hl as <- <-.
    + rewrite cue_line_text in Hl by assumption. injection Hl as <- <-.
      destruct (Py.truthy (Py.strip (clean_line line))); simpl; [|assumption].
      destruct (Py.contains (clean_line line) (Py.last_n 4 q)) eqn:Hc; simpl;
        [assumption|].
      apply window_ok_snoc; [assumption|]. now apply contains_false.
  - intros i j x _ _ Hi. cbn [snd] in Hi. rewrite lookup_nil in Hi.
    discriminate.
Qed.

Lemma X1_queue_window_witness :
  window_ok (all_text_lines scenario_A_cues).
Proof.
  apply (X1_queue_window scenario_A scenario_A_cues). vm_compute. reflexivity.
Defined.

(** ** What the aligner keeps of the queue *)

Lemma In_remove_first_or (l x : str) (q : list str) :
  In x q -> In x (Py.remove_first l q) \/ x = l.
Proof.
  induction q as [|y q IH]; simpl; [tauto|].
  destruct (Py.str_eqb l y) eqn:E.
  - apply str_eqb_eq in E. subst y. intros [->|H]; auto.
  - simpl. intros [->|H]; [auto|]. destruct (IH H); auto.
Qed.

Lemma In_remove_lines_or (ls q : list str) (x : str) :
  In x q -> In x (remove_lines ls q) \/ In x ls.
Proof.
  unfold remove_lines. revert q. induction ls as [|l ls IH]; simpl; intros q H.
  - now left.
  - destruct (In_remove_first_or l x q H) as [H'| ->]; [|auto].
    destruct (IH _ H'); auto.
Qed.

(** A cue that has a line is a cue of the list. *)
Lemma lines_valid (cues : list cue) (r : nat) (x : str) :
  In x (lines (cues !!! r)) -> r < length cues.
Proof.
  intros H. destruct (decide (r < length cues)) as [|Hge]; [assumption|].
  rewrite list_lookup_total_alt, lookup_ge_None_2 in H by lia. destruct H.
Qed.

Lemma match_loop_covers (n : nat) (st st' : parser) (x : str) :
  match_loop n st = Some (Ok st') ->
  In x (all_text_lines st) \/
    (exists r, In r (matched st) /\ In x (lines (parsed_cue_list st !!! r))) ->
  exists r, In r (matched st') /\ In x (lines (parsed_cue_list st' !!! r)).
Proof.
  revert st. induction n as [|n IH]; intros st; simpl;
    destruct (all_text_lines st) as [|check rest] eqn:Hq; try discriminate.
  - intros [= <-] [[]|H]. exact H.
  - intros [= <-] [[]|H]. exact H.
  - destruct (match_iter st check) as [st1|] eqn:Hit; [|discriminate].
    intros H Hx. apply (IH st1 H).
    destruct (match_iter_lines _ _ _ Hit) as [_ Hl].
    pose proof Hit as Hit'.
    apply match_iter_Ok in Hit' as (k & f & s & _ & _ & _ & E).
    destruct Hx as [Hx|(r & Hr & Hx)].
    + rewrite <- Hq in Hx.
      destruct (In_remove_lines_or (lines (parsed_cue_list st !!! k)) _ x Hx)
        as [H1|H1].
      * left. rewrite E. exact H1.
      * right. exists k. split.
        -- rewrite E. simpl. apply in_or_app. right. now left.
        -- destruct (Hl k) as [-> _]. exact H1.
    + right. exists r. split.
      * rewrite E. simpl. apply in_or_app. now left.
      * destruct (Hl r) as [-> _]. exact Hx.
Qed.

(** X2. When the aligner completes, no accepted line is lost: every
    line of the queue is a line of some matched cue. *)
Theorem X2_every_line_matched (st st' : parser) (x : str) :
  _match_text_lines st = Ok st' ->
  In x (all_text_lines st) ->
  exists r, In r (matched st') /\ r < length (parsed_cue_list st') /\
            In x (lines (parsed_cue_list st' !!! r)).
Proof.
  intros H Hx. apply match_text_lines_Ok in H.
  destruct (match_loop_covers _ _ _ x H) as (r & Hr & Hl); [now left|].
  exists r. split; [assumption|]. split; [|assumption].
  eapply lines_valid, Hl.
Qed.

Lemma X2_every_line_matched_witness :
  exists st' r, _match_text_lines scenario_A_cues = Ok st' /\
    In r (matched st') /\ In (txt "World") (lines (parsed_cue_list st' !!! r)).
Proof.
  eexists. 
  lazymatch goal with
  | |- exists r, ?a = Ok ?s' /\ _ =>
      assert (Hm : a = Ok s') by (vm_compute; reflexivity);
      destruct (X2_every_line_matched scenario_A_cues s' (txt "World") Hm)
        as (r & Hr & _ & Hl); [vm_compute; tauto|];
      exists r; split; [exact Hm | split; [exact Hr | exact Hl]]
  end.
Defined.

(** ** When no cue is matched twice *)

Lemma remove_first_gone (l : str) (q : list str) :
  List.NoDup q -> ~ In l (Py.remove_first l q).
Proof.
  induction 1 as [|y q Hy Hq IH]; simpl; [tauto|].
  destruct (Py.str_eqb l y) eqn:E.
  - apply str_eqb_eq in E. now subst y.
  - apply str_eqb_neq in E. simpl. intros [H|H]; [congruence | contradiction].
Qed.

Lemma NoDup_sublist (l k : list str) : sublist l k -> List.NoDup k -> List.NoDup l.
Proof.
  intros Hs Hk. apply NoDup_ListNoDup. apply NoDup_ListNoDup in Hk.
  eapply sublist_NoDup; eassumption.
Qed.

Lemma remove_lines_gone (ls q : list str) (l : str) :
  List.NoDup q -> In l ls -> ~ In l (remove_lines ls q).
Proof.
  revert q. induction ls as [|l0 ls IH]; intros q Hq Hl; [destruct Hl|].
  change (remove_lines (l0 :: ls) q) with (remove_lines ls (Py.remove_first l0 q)).
  assert (Hq1 : List.NoDup (Py.remove_first l0 q)).
  { apply (NoDup_sublist _ q); [|assumption].
    change (Py.remove_first l0 q) with (remove_lines [l0] q).
    apply remove_lines_sublist. }
  destruct (Py.str_eqb l l0) eqn:E.
  - apply str_eqb_eq in E. subst l0. intros H.
    apply In_remove_lines_sub in H. now apply (remove_first_gone l q).
  - apply str_eqb_neq in E. destruct Hl as [Hl|Hl]; [congruence|].
    now apply IH.
Qed.

Lemma match_loop_NoDup (n : nat) (st st' : parser) :
  match_loop n st = Some (Ok st') ->
  List.NoDup (all_text_lines st) -> List.NoDup (matched st) ->
  (forall r l, In r (matched st) -> In l (lines (parsed_cue_list st !!! r)) ->
     ~ In l (all_text_lines st)) ->
  List.NoDup (matched st').
Proof.
  revert st. induction n as [|n IH]; intros st; simpl;
    destruct (all_text_lines st) as [|check rest] eqn:Hq; try discriminate.
  - now intros [= <-].
  - now intros [= <-].
  - destruct (match_iter st check) as [st1|] eqn:Hit; [|discriminate].
    intros H Hnd Hm Hinv. apply (IH st1 H).
    + apply (NoDup_sublist _ rest).
      * eapply match_iter_head_removed; eassumption.
      * now inversion Hnd.
    + destruct (match_iter_lines _ _ _ Hit) as [_ Hl].
      pose proof Hit as Hit'.
      apply match_iter_Ok in Hit' as (k & f & s & Hk & _ & _ & E).
      apply last_In, In_matches_of in Hk as [_ Hk].
      rewrite E. simpl. apply NoDup_ListNoDup, NoDup_app.
      split; [now apply NoDup_ListNoDup|]. split; [|apply NoDup_singleton].
      intros r Hr Hrk. apply list_elem_of_In in Hr.
      apply list_elem_of_singleton in Hrk. subst r.
      apply (Hinv k check Hr Hk). now left.
    + destruct (match_iter_lines _ _ _ Hit) as [_ Hl].
      pose proof Hit as Hit'.
      apply match_iter_Ok in Hit' as (k & f & s & Hk & _ & _ & E).
      intros r l Hr Hlr Hin. destruct (Hl r) as [Hlines _].
      rewrite Hlines in Hlr. rewrite E in Hr, Hin. simpl in Hr, Hin.
      apply in_app_or in Hr as [Hr|[<-|[]]].
      * apply (Hinv r l Hr Hlr). rewrite <- Hq.
        now apply In_remove_lines_sub in Hin.
      * rewrite Hq in Hin. rewrite <- Hq in Hnd.
        rewrite <- Hq in Hin. now apply (remove_lines_gone _ _ l Hnd Hlr).
Qed.

Lemma match_text_lines_NoDup (st st' : parser) :
  List.NoDup (all_text_lines st) ->
  _match_text_lines st = Ok st' ->
  List.NoDup (matched st').
Proof.
  intros Hnd H. apply match_text_lines_Ok in H.
  apply (match_loop_NoDup _ _ _ H); simpl; [assumption | constructor|].
  intros r l [].
Qed.

(** X3. When the queue holds no line twice, the aligner matches no cue
    twice: the cue matched for a line takes all its lines off the
    queue, so that none of them can choose it again. *)
Theorem X3_distinct_lines_distinct_cues (st st' : parser) :
  List.NoDup (all_text_lines st) ->
  _match_text_lines st = Ok st' ->
  List.NoDup (matched st').
Proof.
  intros Hnd H. apply match_text_lines_Ok in H.
  apply (match_loop_NoDup _ _ _ H); simpl; [assumption | constructor|].
  intros r l [].
Qed.

Lemma X3_distinct_lines_distinct_cues_witness :
  exists st', _match_text_lines scenario_A_cues = Ok st' /\
    List.NoDup (matched st').
Proof.
  eexists. split; [vm_compute; reflexivity|].
  lazymatch goal with
  | |- List.NoDup (matched ?s') =>
      apply (X3_distinct_lines_distinct_cues scenario_A_cues s')
  end.
  - vm_compute. repeat constructor; simpl; intuition discriminate.
  - vm_compute. reflexivity.
Defined.

(** ** The ids, in general *)

Lemma add_id_loop_last (idx : nat) (todo : list nat) (cues : list cue) (k r : nat) :
  todo !! k = Some r -> r < length cues ->
  (forall j, k < j -> todo !! j <> Some r) ->
  id_ (add_id_loop idx todo cues !!! r) = Some (idx + k + 1).
Proof.
  revert idx cues k. induction todo as [|r0 todo IH]; intros idx cues k Hk Hr Hj.
  - now rewrite lookup_nil in Hk.
  - destruct k as [|k]; simpl in Hk.
    + injection Hk as ->. simpl. rewrite add_id_loop_other.
      * rewrite list_lookup_total_insert_eq by assumption. simpl.
        f_equal. lia.
      * intros Hin. apply list_elem_of_In, list_elem_of_lookup in Hin as [j Hin].
        apply (Hj (S j)); [lia | exact Hin].
    + simpl. rewrite (IH (S idx) _ k Hk).
      * f_equal. lia.
      * now rewrite length_insert.
      * intros j Hkj. apply (Hj (S j)). lia.
Qed.

(** X4. [_add_id] gives a matched cue the position, counted from 1, of
    its last occurrence in the matched sequence: the position itself
    when the cue occurs once, the later one when it occurs twice. *)
Theorem X4_add_id_last_position (st : parser) (k r : nat) :
  matched st !! k = Some r -> r < length (parsed_cue_list st) ->
  (forall j, k < j -> matched st !! j <> Some r) ->
  id_ (parsed_cue_list (_add_id st) !!! r) = Some (k + 1).
Proof.
  intros Hk Hr Hj. unfold _add_id. simpl.
  now rewrite (add_id_loop_last 0 _ _ k r Hk Hr Hj).
Qed.

Lemma X4_add_id_last_position_witness :
  id_ (parsed_cue_list (_add_id scenario_D) !!! 1) = Some 2.
Proof.
  apply (X4_add_id_last_position scenario_D 1 1).
  - reflexivity.
  - simpl. lia.
  - intros j Hj Hl. apply lookup_lt_Some in Hl. simpl in Hl. lia.
Defined.

(** ** What the whole pipeline leaves alone *)

Lemma process_Ok (subtitle_str : str) (st : parser) :
  process subtitle_str = Ok st ->
  exists st0 st1, _parse_cues subtitle_str = Ok st0 /\
    _match_text_lines st0 = Ok st1 /\
    _timestamp_check (_add_id st1) = Ok st.
Proof.
  unfold process. destruct (_parse_cues subtitle_str) as [st0|]; [|discriminate].
  simpl. destruct (_match_text_lines st0) as [st1|] eqn:E; [|discriminate].
  simpl. intros H. exists st0, st1. auto.
Qed.

(** The matching loop writes only into cues it appends to [matched],
    and only their "start". *)
Lemma match_loop_frame (n : nat) (st st' : parser) :
  match_loop n st = Some (Ok st') ->
  header st' = header st /\
  length (parsed_cue_list st') = length (parsed_cue_list st) /\
  (forall i, lines (parsed_cue_list st' !!! i) = lines (parsed_cue_list st !!! i) /\
             end_ (parsed_cue_list st' !!! i) = end_ (parsed_cue_list st !!! i) /\
             id_ (parsed_cue_list st' !!! i) = id_ (parsed_cue_list st !!! i)) /\
  (forall r, In r (matched st) -> In r (matched st')) /\
  (forall r, In r (matched st') ->
     In r (matched st) \/ r < length (parsed_cue_list st)) /\
  (forall i, ~ In i (matched st') ->
     parsed_cue_list st' !!! i = parsed_cue_list st !!! i).
Proof.
  revert st. induction n as [|n IH]; intros st; simpl;
    destruct (all_text_lines st) as [|check rest] eqn:Hq; try discriminate.
  - intros [= <-]. repeat split; auto.
  - intros [= <-]. repeat split; auto.
  - destruct (match_iter st check) as [st1|] eqn:Hit; [|discriminate].
    intros H. apply IH in H as (Hh & Hlen & Hf & Hm & Hv & Hu).
    destruct (match_iter_lines _ _ _ Hit) as [Hlen1 Hf1].
    apply match_iter_Ok in Hit as (k & f & s & Hk & _ & _ & E).
    apply last_In, In_matches_of in Hk as [Hk _].
    assert (Hm1 : matched st1 = matched st ++ [k]) by now rewrite E.
    split; [rewrite Hh, E; reflexivity|]. split; [congruence|].
    split; [|split; [|split]].
    + intros i. destruct (Hf i) as (-> & -> & ->). apply Hf1.
    + intros r Hr. apply Hm. rewrite Hm1. apply in_or_app. now left.
    + intros r Hr. destruct (Hv r Hr) as [Hr1|Hr1]; [|right; lia].
      rewrite Hm1 in Hr1. apply in_app_or in Hr1 as [?|[<-|[]]]; auto.
    + intros i Hi. rewrite (Hu i Hi). rewrite E. simpl.
      apply list_lookup_total_insert_ne. intros ->. apply Hi, Hm.
      rewrite Hm1. apply in_or_app. right. now left.
Qed.

Lemma ts_loop_unmatched (m : list nat) (l : list (nat * nat)) (cues cues' : list cue)
  (i : nat) :
  for_each (ts_step m) l cues = Ok cues' ->
  (forall ir, In ir l -> ir.2 <> i) ->
  cues' !!! i = cues !!! i.
Proof.
  revert cues. induction l as [|[idx r] l IH]; simpl; intros cues H Hl.
  - now injection H as <-.
  - destruct (ts_step m cues (idx, r)) as [cues1|] eqn:E; simpl in H;
      [|discriminate].
    rewrite (IH cues1 H) by (intros ir Hir; apply Hl; now right).
    apply ts_step_Ok in E as (e & _ & [[-> _]|(nx & s & _ & _ & _ & ->)]);
      [reflexivity|].
    apply list_lookup_total_insert_ne. apply (Hl (idx, r)). now left.
Qed.

(** X5. The pipeline never edits the text of a cue: after [process]
    the cue list has the cues the splitter built, in number and order,
    each with its lines, and a cue that is not matched is exactly as
    the splitter left it; the header is the splitter's. *)
Theorem X5_process_keeps_lines (subtitle_str : str) (st : parser) :
  process subtitle_str = Ok st ->
  exists st0, _parse_cues subtitle_str = Ok st0 /\
    header st = header st0 /\
    length (parsed_cue_list st) = length (parsed_cue_list st0) /\
    (forall i, lines (parsed_cue_list st !!! i) =
               lines (parsed_cue_list st0 !!! i)) /\
    (forall i, ~ In i (matched st) ->
       parsed_cue_list st !!! i = parsed_cue_list st0 !!! i).
Proof.
  intros H. apply process_Ok in H as (st0 & st1 & Hp & Hm & Ht).
  exists st0. split; [assumption|].
  apply match_text_lines_Ok in Hm.
  apply match_loop_frame in Hm as (Hh & Hlen & Hf & _ & _ & Hu). simpl in *.
  apply timestamp_check_Ok in Ht as (cues' & Ht & ->). simpl in *.
  destruct (add_id_loop_frame 0 (matched st1) (parsed_cue_list st1)) as [Hlen2 Hf2].
  pose proof (ts_loop_frame _ _ _ _ Ht) as [Hlen3 Hf3].
  split; [assumption|]. split; [congruence|]. split.
  - intros i. destruct (Hf3 i) as (-> & _). destruct (Hf2 i) as (-> & _).
    apply Hf.
  - intros i Hi. rewrite (ts_loop_unmatched _ _ _ _ i Ht).
    + rewrite add_id_loop_other by assumption. now apply Hu.
    + intros [idx r] Hir <-. apply Hi. simpl.
      unfold enumerate in Hir. now apply in_combine_r in Hir.
Qed.

Lemma X5_process_keeps_lines_witness :
  exists st st0, process scenario_A = Ok st /\ _parse_cues scenario_A = Ok st0 /\
    parsed_cue_list st !!! 0 = parsed_cue_list st0 !!! 0.
Proof.
  eexists.
  lazymatch goal with
  | |- exists st0, ?a = Ok ?s /\ _ =>
      assert (Hp : a = Ok s) by (vm_compute; reflexivity);
      destruct (X5_process_keeps_lines scenario_A s Hp)
        as (st0 & Hp0 & _ & _ & _ & Hu);
      exists st0; split; [exact Hp | split; [exact Hp0|]];
      apply Hu; vm_compute; intuition discriminate
  end.
Defined.

(** X6. When the queue the splitter builds holds no line twice, the ids
    of the matched cues after [process], read in output order, are
    exactly 1..N. *)
Theorem X6_distinct_lines_ids (subtitle_str : str) (st0 st : parser) :
  _parse_cues subtitle_str = Ok st0 ->
  List.NoDup (all_text_lines st0) ->
  process subtitle_str = Ok st ->
  ids_of st = map Some (seq 1 (length (matched st))).
Proof.
  intros Hp Hnd H. apply process_Ok in H as (st0' & st1 & Hp' & Hm & Ht).
  assert (st0' = st0) by congruence. subst st0'.
  pose proof (match_text_lines_NoDup _ _ Hnd Hm) as Hnd1.
  apply match_text_lines_Ok in Hm.
  apply match_loop_frame in Hm as (_ & Hlen & _ & _ & Hv & _).
  simpl in Hv, Hlen.
  pose proof (add_id_contiguous_distinct st1 Hnd1) as Hids.
  apply timestamp_check_Ok in Ht as (cues' & Ht & ->).
  apply ts_loop_frame in Ht as [_ Hf]. unfold ids_of in *. simpl in *.
  rewrite <- Hids.
  - apply map_ext. intros r. apply Hf.
  - intros r Hr. destruct (Hv r Hr) as [[]|H]. now rewrite Hlen.
Qed.

Lemma X6_distinct_lines_ids_witness :
  exists st, process scenario_A = Ok st /\
    ids_of st = map Some (seq 1 (length (matched st))).
Proof.
  eexists. split; [vm_compute; reflexivity|].
  apply (X6_distinct_lines_ids scenario_A scenario_A_cues).
  - vm_compute. reflexivity.
  - vm_compute. repeat constructor; simpl; intuition discriminate.
  - vm_compute. reflexivity.
Defined.

(** ** What a completed pipeline guarantees *)

Lemma stamp_or_unset_parsable (x : option str) :
  stamp_or_unset x -> parsable x -> exists a, x = Some a /\ is_stamp a.
Proof. intros [->|H] [z Hz]; [discriminate | exact H]. Qed.

Lemma stamp_parsable (a : str) : is_stamp a -> parsable (Some a).
Proof. apply stamp_num. Qed.

Lemma match_loop_starts (n : nat) (st st' : parser) :
  match_loop n st = Some (Ok st') ->
  (forall i, stamp_or_unset (start (parsed_cue_list st !!! i))) ->
  (forall x, In x (all_text_lines st) -> nonblank x) ->
  (forall r, In r (matched st) ->
     start (parsed_cue_list st !!! r) <> None /\ has_text (parsed_cue_list st !!! r)) ->
  (forall i, stamp_or_unset (start (parsed_cue_list st' !!! i))) /\
  (forall r, In r (matched st') ->
     start (parsed_cue_list st' !!! r) <> None /\
     has_text (parsed_cue_list st' !!! r)).
Proof.
  revert st. induction n as [|n IH]; intros st; simpl;
    destruct (all_text_lines st) as [|check rest] eqn:Hq; try discriminate.
  - intros [= <-]. auto.
  - intros [= <-]. auto.
  - destruct (match_iter st check) as [st1|] eqn:Hit; [|discriminate].
    intros H Hs Hnb Hm.
    destruct (match_iter_lines _ _ _ Hit) as [_ Hl].
    pose proof Hit as Hit'.
    apply match_iter_Ok in Hit' as (k & f & s & Hk & _ & Hf & E).
    apply last_In, In_matches_of in Hk as [Hklt Hk].
    assert (Hstart : forall i,
      start (parsed_cue_list st1 !!! i) = start (parsed_cue_list st !!! i) \/
      (i = k /\ start (parsed_cue_list st1 !!! i) = Some s)).
    { intros i. rewrite E. simpl.
      destruct (lookup_total_insert_cases (parsed_cue_list st) k i
                  (set_start (parsed_cue_list st !!! k) s)) as [->|(-> & _ & ->)];
        auto. }
    apply (IH st1 H).
    + intros i. destruct (Hstart i) as [->|[_ ->]]; [apply Hs|].
      rewrite <- Hf. apply Hs.
    + intros x Hx. apply Hnb. rewrite E in Hx. simpl in Hx.
      apply In_remove_lines_sub in Hx. now rewrite Hq in Hx.
    + assert (Hks : start (parsed_cue_list st1 !!! k) = Some s).
      { rewrite E. simpl. now rewrite list_lookup_total_insert_eq. }
      intros r Hr. split.
      * rewrite E in Hr. simpl in Hr. apply in_app_or in Hr as [Hr|[<-|[]]].
        -- destruct (Hstart r) as [->|[_ ->]]; [now apply Hm | discriminate].
        -- rewrite Hks. discriminate.
      * eapply has_text_lines; [apply Hl|].
        rewrite E in Hr. simpl in Hr. apply in_app_or in Hr as [Hr|[<-|[]]].
        -- now apply Hm.
        -- exists check. split; [assumption|]. apply Hnb. now left.
Qed.

Lemma enumerate_In (l : list nat) (a k r : nat) :
  l !! k = Some r -> In (a + k, r) (combine (seq a (length l)) l).
Proof.
  revert a k. induction l as [|x l IH]; intros a k Hk.
  - now rewrite lookup_nil in Hk.
  - destruct k as [|k]; simpl in *.
    + injection Hk as ->. left. f_equal. lia.
    + right. replace (a + S k) with (S a + k) by lia. now apply IH.
Qed.

Lemma last_occurrence (l : list nat) (r : nat) :
  In r l -> exists k, l !! k = Some r /\ forall j, k < j -> l !! j <> Some r.
Proof.
  induction l as [|a l IH]; intros H; [destruct H|].
  destruct (in_dec Nat.eq_dec r l) as [Hin|Hnin].
  - destruct (IH Hin) as (k & Hk & Hj). exists (S k). split; [exact Hk|].
    intros [|j] Hlt; [lia|]. simpl. apply Hj. lia.
  - destruct H as [->|H]; [|contradiction]. exists 0. split; [reflexivity|].
    intros [|j] Hlt Hl; [lia|]. simpl in Hl. apply Hnin.
    apply list_elem_of_In. eapply list_elem_of_lookup_2. exact Hl.
Qed.

(** One turn of the normaliser keeps an "end" that compares as an
    integer so, reads one at its own position, and writes a timestamp
    when the starts are timestamps. *)
Lemma ts_step_ends (m : list nat) (cues cues' : list cue) (idx r : nat) :
  ts_step m cues (idx, r) = Ok cues' ->
  parsable (end_ (cues' !!! r)) /\
  (forall i, parsable (end_ (cues !!! i)) -> parsable (end_ (cues' !!! i))) /\
  (forall i, parsable (end_ (cues' !!! i)) -> parsable (end_ (cues !!! i))) /\
  ((forall i, stamp_or_unset (start (cues !!! i))) ->
   forall i, stamp_or_unset (end_ (cues !!! i)) ->
             stamp_or_unset (end_ (cues' !!! i))).
Proof.
  intros H.
  apply ts_step_Ok in H as (e & He & [[-> _]|(nx & s & _ & Hs & _ & ->)]).
  - repeat split; auto. now exists e.
  - pose proof (num_end_valid _ _ _ He) as Hv.
    set (c := put_end (cues !!! r) (start (cues !!! nx))).
    assert (Hc : forall i, <[r := c]> cues !!! i = cues !!! i \/
                           (i = r /\ <[r := c]> cues !!! i = c)).
    { intros i. destruct (lookup_total_insert_cases cues r i c)
        as [?|(-> & _ & ?)]; auto. }
    split; [|split; [|split]].
    + rewrite list_lookup_total_insert_eq by assumption. now exists s.
    + intros i Hi. destruct (Hc i) as [->|[_ ->]]; [assumption | now exists s].
    + intros i Hi. destruct (Hc i) as [<-|[-> _]]; [assumption | now exists e].
    + intros Hst i Hi. destruct (Hc i) as [->|[_ ->]]; [assumption|]. apply Hst.
Qed.

Lemma ts_loop_ends (m : list nat) (l : list (nat * nat)) (cues cues' : list cue) :
  for_each (ts_step m) l cues = Ok cues' ->
  (forall ir, In ir l -> parsable (end_ (cues' !!! ir.2))) /\
  (forall i, parsable (end_ (cues !!! i)) -> parsable (end_ (cues' !!! i))) /\
  (forall i, parsable (end_ (cues' !!! i)) -> parsable (end_ (cues !!! i))) /\
  ((forall i, stamp_or_unset (start (cues !!! i))) ->
   forall i, stamp_or_unset (end_ (cues !!! i)) ->
             stamp_or_unset (end_ (cues' !!! i))).
Proof.
  revert cues. induction l as [|[idx r] l IH]; simpl; intros cues H.
  - injection H as <-. repeat split; auto. intros ir [].
  - destruct (ts_step m cues (idx, r)) as [cues1|] eqn:E; simpl in H;
      [|discriminate].
    pose proof (ts_step_frame _ _ _ _ E) as [_ Hf].
    apply ts_step_ends in E as (Hr & Hk & Hb & Hst).
    apply IH in H as (Hl & Hk' & Hb' & Hst').
    split; [|split; [|split]].
    + intros ir [<-|Hir]; [now apply Hk' | now apply Hl].
    + intros i Hi. now apply Hk', Hk.
    + intros i Hi. now apply Hb, Hb'.
    + intros Hs i Hi. apply Hst'; [|now apply Hst].
      intros j. destruct (Hf j) as (_ & -> & _). apply Hs.
Qed.

Lemma parse_cues_stamps (subtitle_str : str) (st : parser) (i : nat) :
  _parse_cues subtitle_str = Ok st ->
  stamp_or_unset (start (parsed_cue_list st !!! i)) /\
  stamp_or_unset (end_ (parsed_cue_list st !!! i)).
Proof.
  intros Hp. destruct (decide (i < length (parsed_cue_list st))) as [Hi|Hi].
  - assert (Hin : In (parsed_cue_list st !!! i) (parsed_cue_list st))
      by (apply In_lookup_total; eauto).
    apply (parse_cues_spec _ _ Hp) in Hin as [[[-> ->]|(a & b & -> & -> & Ha & Hb)] _].
    + split; now left.
    + split; right; eauto.
  - rewrite list_lookup_total_alt, lookup_ge_None_2 by lia. split; now left.
Qed.

(** X7. What a completed [process] guarantees: the queue is used up,
    and every matched cue is a cue of the list with a non-blank line, a
    start and an end that are timestamps, and an id between 1 and the
    number of matched cues. *)
Theorem X7_process_output (subtitle_str : str) (st : parser) :
  process subtitle_str = Ok st ->
  all_text_lines st = [] /\
  forall r, In r (matched st) ->
    r < length (parsed_cue_list st) /\
    has_text (parsed_cue_list st !!! r) /\
    (exists a, start (parsed_cue_list st !!! r) = Some a /\ is_stamp a) /\
    (exists b, end_ (parsed_cue_list st !!! r) = Some b /\ is_stamp b) /\
    (exists n, id_ (parsed_cue_list st !!! r) = Some n /\
               1 <= n <= length (matched st)).
Proof.
  intros H. apply process_Ok in H as (st0 & st1 & Hp & Hm & Ht).
  apply match_text_lines_Ok in Hm.
  pose proof (match_loop_empty _ _ _ Hm) as Hq.
  pose proof (match_loop_frame _ _ _ Hm) as (_ & Hlen1 & Hf1 & _ & Hv1 & _).
  destruct (match_loop_starts _ _ _ Hm) as [Hs1 Hm1]; simpl.
  { intros i. apply (parse_cues_stamps _ _ i Hp). }
  { intros x Hx. now apply (parse_cues_spec _ _ Hp). }
  { intros r []. }
  simpl in Hlen1, Hf1, Hv1.
  destruct (add_id_loop_frame 0 (matched st1) (parsed_cue_list st1)) as [Hlen2 Hf2].
  apply timestamp_check_Ok in Ht as (cues' & Ht & ->). simpl in *.
  pose proof (ts_loop_frame _ _ _ _ Ht) as [Hlen3 Hf3].
  pose proof (ts_loop_ends _ _ _ _ Ht) as (Hends & _ & _ & Hst).
  split; [assumption|]. intros r Hr.
  assert (Hrv : r < length (parsed_cue_list st1)).
  { destruct (Hv1 r Hr) as [[]|Hrv]. now rewrite Hlen1. }
  destruct (Hf3 r) as (Hl3 & Hs3 & Hi3). destruct (Hf2 r) as (Hl2 & Hs2 & He2).
  destruct (Hm1 r Hr) as [Hsr Htr].
  split; [congruence|]. split; [|split; [|split]].
  - eapply has_text_lines; [|exact Htr]. congruence.
  - rewrite Hs3, Hs2. destruct (Hs1 r) as [?|?]; [contradiction | assumption].
  - apply stamp_or_unset_parsable.
    + apply Hst.
      * intros i. destruct (Hf2 i) as (_ & -> & _). apply Hs1.
      * destruct (Hf2 r) as (_ & _ & ->). destruct (Hf1 r) as (_ & -> & _).
        apply (parse_cues_stamps _ _ r Hp).
    + destruct (list_elem_of_lookup_1 (matched st1) r) as [k Hk];
        [now apply list_elem_of_In|].
      apply (Hends (k, r)). unfold enumerate.
      now apply (enumerate_In _ 0 k r).
  - destruct (last_occurrence _ _ Hr) as (k & Hk & Hj).
    exists (k + 1). split.
    + rewrite Hi3. now apply (add_id_loop_last 0 _ _ k r).
    + apply lookup_lt_Some in Hk. lia.
Qed.

Lemma X7_process_output_witness :
  exists st, process scenario_A = Ok st /\ all_text_lines st = [].
Proof.
  eexists. split; [vm_compute; reflexivity|].
  lazymatch goal with
  | |- all_text_lines ?s = [] =>
      apply (X7_process_output scenario_A s)
  end.
  vm_compute. reflexivity.
Defined.

(** ** More on the normaliser *)

Lemma enumerate_lookup (l : list nat) (a i r : nat) :
  In (i, r) (combine (seq a (length l)) l) -> a <= i /\ l !! (i - a) = Some r.
Proof.
  revert a. induction l as [|x l IH]; intros a; simpl; [tauto|].
  intros [[= <- <-]|H].
  - split; [lia|]. now rewrite Nat.sub_diag.
  - apply IH in H as [Hle Hl]. split; [lia|].
    replace (i - a) with (S (i - S a)) by lia. exact Hl.
Qed.

(** Where nothing overlaps, the pass writes nothing. *)
Lemma ts_loop_noop (m : list nat) (l : list (nat * nat)) (cues : list cue) :
  (forall ir, In ir l -> m !! ir.1 = Some ir.2) ->
  (forall r, In r m -> parsable (end_ (cues !!! r))) ->
  adjacent_ok cues m ->
  for_each (ts_step m) l cues = Ok cues.
Proof.
  intros Hl He Ha. induction l as [|[idx r] l IH]; [reflexivity|].
  simpl. assert (Hs : ts_step m cues (idx, r) = Ok cues).
  { pose proof (Hl (idx, r) (or_introl eq_refl)) as Hr. simpl in Hr.
    unfold ts_step.
    destruct (He r) as [e Hre].
    { apply list_elem_of_In. eapply list_elem_of_lookup_2. exact Hr. }
    pose proof Hre as Hre'. apply stamp_int_num in Hre'. rewrite Hre'. simpl.
    destruct (m !! (idx + 1)) as [nx|] eqn:Hn; [|reflexivity].
    replace (idx + 1) with (S idx) in Hn by lia.
    destruct (Ha idx r nx Hr Hn) as (e' & s & He' & Hs & Hle).
    pose proof Hs as Hs'. apply stamp_int_num in Hs'. rewrite Hs'. simpl.
    assert (e' = e) by congruence. subst e'.
    destruct (e >? s)%Z eqn:Hc; [lia | reflexivity]. }
  rewrite Hs. simpl. apply IH. intros ir Hir. apply Hl. now right.
Qed.

(** X8. The timestamp normaliser is idempotent: a second pass over the
    result of a completed pass completes and changes nothing. *)
Theorem X8_timestamp_check_idempotent (st st' : parser) :
  _timestamp_check st = Ok st' -> _timestamp_check st' = Ok st'.
Proof.
  intros H. pose proof (timestamp_check_adjacent _ _ H) as Ha.
  apply timestamp_check_Ok in H as (cues' & H & ->).
  unfold _timestamp_check. simpl in *.
  rewrite ts_loop_noop; [reflexivity| | |assumption].
  - intros [i r] Hir. unfold enumerate in Hir.
    apply enumerate_lookup in Hir as [_ Hir]. simpl.
    now rewrite Nat.sub_0_r in Hir.
  - intros r Hr. apply list_elem_of_In, list_elem_of_lookup_1 in Hr as [k Hk].
    apply ts_loop_ends in H as (He & _).
    apply (He (k, r)). unfold enumerate. now apply (enumerate_In _ 0 k r).
Qed.

Lemma X8_timestamp_check_idempotent_witness :
  exists st', _timestamp_check scenario_D = Ok st' /\
    _timestamp_check st' = Ok st'.
Proof.
  eexists. split; [vm_compute; reflexivity|].
  apply (X8_timestamp_check_idempotent scenario_D). vm_compute. reflexivity.
Defined.

Lemma ts_step_lowers (m : list nat) (cues cues' : list cue) (ir : nat * nat) (i : nat) :
  ts_step m cues ir = Ok cues' ->
  end_ (cues' !!! i) = end_ (cues !!! i) \/
  exists e e', num (end_ (cues !!! i)) = Some e /\
               num (end_ (cues' !!! i)) = Some e' /\ (e' < e)%Z.
Proof.
  destruct ir as [idx r]. intros H.
  apply ts_step_Ok in H as (e & He & [[-> _]|(nx & s & _ & Hs & Hlt & ->)]);
    [now left|].
  destruct (lookup_total_insert_cases cues r i
              (put_end (cues !!! r) (start (cues !!! nx))))
    as [->|(-> & _ & ->)]; [now left|].
  right. exists e, s. auto.
Qed.

(** X9. The timestamp normaliser only ever lowers an end: after a
    completed pass the end of every cue is the one it had, or compares
    strictly lower than the one it had. *)
Theorem X9_timestamp_check_lowers_ends (st st' : parser) (i : nat) :
  _timestamp_check st = Ok st' ->
  end_ (parsed_cue_list st' !!! i) = end_ (parsed_cue_list st !!! i) \/
  exists e e', num (end_ (parsed_cue_list st !!! i)) = Some e /\
               num (end_ (parsed_cue_list st' !!! i)) = Some e' /\ (e' < e)%Z.
Proof.
  intros H. apply timestamp_check_Ok in H as (cues' & H & ->). simpl.
  revert H. generalize (enumerate (matched st)) as l.
  generalize (parsed_cue_list st) as cues.
  intros cues l. revert cues. induction l as [|ir l IH]; simpl; intros cues H.
  - injection H as <-. now left.
  - destruct (ts_step (matched st) cues ir) as [cues1|] eqn:E; simpl in H;
      [|discriminate].
    destruct (IH _ H) as [->|(e1 & e' & H1 & H' & Hlt')];
      destruct (ts_step_lowers _ _ _ _ i E) as [Hs|(e & e1' & H0 & H1' & Hlt)].
    + now left.
    + right. exists e, e1'. auto.
    + right. exists e1, e'. rewrite <- Hs. auto.
    + right. exists e, e'. repeat split; try assumption.
      assert (e1' = e1) by congruence. lia.
Qed.

Lemma X9_timestamp_check_lowers_ends_witness :
  exists st' e e', _timestamp_check scenario_D = Ok st' /\
    num (end_ (parsed_cue_list scenario_D !!! 0)) = Some e /\
    num (end_ (parsed_cue_list st' !!! 0)) = Some e' /\ (e' < e)%Z.
Proof.
  eexists.
  lazymatch goal with
  | |- exists e e', ?a = Ok ?s' /\ _ =>
      assert (Hp : a = Ok s') by (vm_compute; reflexivity);
      destruct (X9_timestamp_check_lowers_ends scenario_D s' 0 Hp)
        as [Hsame|(e & e' & H0 & H1 & Hlt)];
      [vm_compute in Hsame; discriminate|];
      exists e, e'; auto
  end.
Defined.





(** ** More on the splitter *)

Lemma cue_lines_exact (ls : list str) (c0 c : cue) (q q' : list str) :
  for_each cue_line ls (c0, q) = Ok (c, q') ->
  lines c = lines c0 ++ map clean_line (List.filter is_text ls) /\
  id_ c = id_ c0 /\
  match last (List.filter is_time ls) with
  | None => start c = start c0 /\ end_ c = end_ c0
  | Some line =>
      exists a b r, is_stamp a /\ is_stamp b /\
        line = a ++ txt " --> " ++ b ++ r /\
        start c = Some a /\ end_ c = Some b
  end.
Proof.
  revert c0 q. induction ls as [|line ls IH]; intros c0 q; simpl.
  - intros [= <- <-]. rewrite app_nil_r. auto.
  - destruct (cue_line (c0, q) line) as [[c1 q1]|] eqn:E; simpl; [|discriminate].
    intros H. apply IH in H as (Hl & Hi & Ht).
    unfold is_time, is_text in *.
    destruct (Re.time_reg line) as [[t r]|] eqn:Et; simpl.
    + destruct (cue_line_time c0 q _ _ _ Et) as (a & b & Ha & Hb & Hline & E').
      rewrite E' in E. injection E as <- <-. simpl in *.
      split; [assumption|]. split; [assumption|].
      rewrite last_cons.
      destruct (last (List.filter _ ls)) as [line'|]; [assumption|].
      destruct Ht as [-> ->]. exists a, b, r. auto.
    + rewrite cue_line_text in E by assumption. injection E as <- _.
      simpl in *. split; [now rewrite Hl, <- app_assoc|]. auto.
Qed.

(** X11. What [_cue_cleaner] makes of a cue block: the lines of the cue
    are the lines of the block that are not timestamp lines, cleaned,
    in order; no id is set; the start and the end are those of the last
    timestamp line of the block, and unset when it has none. *)
Theorem X11_cue_cleaner_exact (q q' : list str) (cue_text : str) (c : cue) :
  _cue_cleaner q cue_text = Ok (c, q') ->
  lines c = map clean_line (List.filter is_text (Py.split [nl] cue_text)) /\
  id_ c = None /\
  match last (List.filter is_time (Py.split [nl] cue_text)) with
  | None => start c = None /\ end_ c = None
  | Some line =>
      exists a b r, is_stamp a /\ is_stamp b /\
        line = a ++ txt " --> " ++ b ++ r /\
        start c = Some a /\ end_ c = Some b
  end.
Proof.
  unfold _cue_cleaner. intros H. now apply cue_lines_exact in H.
Qed.

Lemma X11_cue_cleaner_exact_witness :
  exists c q', _cue_cleaner []
      (txt "00:00:01.000 --> 00:00:03.000" ++ nl :: txt "<c>Hello</c>") = Ok (c, q') /\
    lines c = [txt "Hello"].
Proof.
  eexists. eexists. split; [vm_compute; reflexivity|].
  lazymatch goal with
  | |- lines ?c = _ =>
      refine (eq_trans (proj1 (X11_cue_cleaner_exact [] [txt "Hello"]
        (txt "00:00:01.000 --> 00:00:03.000" ++ nl :: txt "<c>Hello</c>") c _)) _)
  end; vm_compute; reflexivity.
Defined.

Lemma sub_go_In (m : Re.matcher) (k : nat) (s : str) (x : ascii) :
  In x (Re.sub_go m k s) -> In x s.
Proof.
  revert k. induction s as [|c s IH]; intros k; simpl; [tauto|].
  destruct k as [|k].
  - destruct (m (c :: s)) as [[[|c' w] r]|]; simpl.
    + intros [->|H]; [now left | right; eapply IH; exact H].
    + intros H. right. eapply IH; exact H.
    + intros [->|H]; [now left | right; eapply IH; exact H].
  - intros H. right. eapply IH; exact H.
Qed.

Lemma clean_line_In (s : str) (x : ascii) : In x (clean_line s) -> In x s.
Proof.
  unfold clean_line, Re.sub. intros H. now apply sub_go_In, sub_go_In in H.
Qed.

Lemma split_nl_pieces (s p : str) : In p (Py.split [nl] s) -> ~ In nl p.
Proof.
  revert p. induction s as [|c s IH]; intros p.
  - intros [<-|[]] [].
  - destruct (Ascii.eqb nl c) eqn:E.
    + apply Ascii.eqb_eq in E. subst c.
      rewrite (split_sep nl [] s : Py.split [nl] (nl :: s) = _).
      intros [<-|H]; [intros [] | now apply IH].
    + rewrite split_other by (cbn [Py.startswith]; now rewrite E).
      destruct (Py.split [nl] s) as [|p0 ps] eqn:Es;
        [now apply split_go_nonempty in Es|].
      simpl. intros [<-|H].
      * intros [->|Hin]; [now rewrite Ascii.eqb_refl in E|].
        apply (IH p0); [now left | assumption].
      * apply IH. now right.
Qed.

(** X12. A line of a parsed cue never holds a line break, whatever the
    input: joined by line breaks when the cue is written, the lines of
    a cue stay apart. *)
Theorem X12_lines_without_break (subtitle_str : str) (st : parser) (c : cue) (l : str) :
  _parse_cues subtitle_str = Ok st ->
  In c (parsed_cue_list st) -> In l (lines c) -> ~ In nl l.
Proof.
  intros Hp Hc Hl.
  destruct (parse_cues_blocks _ _ _ Hp Hc) as (b & q & q' & _ & Hcc).
  unfold _cue_cleaner in Hcc. apply cue_lines_exact in Hcc as (Hlines & _).
  rewrite Hlines in Hl. simpl in Hl.
  apply in_map_iff in Hl as (line & <- & Hline).
  apply filter_In in Hline as [Hline _].
  intros Hin. apply clean_line_In in Hin. now apply (split_nl_pieces b line).
Qed.

Lemma X12_lines_without_break_witness :
  ~ In nl (txt "World").
Proof.
  apply (X12_lines_without_break scenario_A scenario_A_cues
           (mk_cue [txt "Hello"; txt "World"] (Some (txt "00:00:02.500"))
                   (Some (txt "00:00:05.000")) None)).
  - vm_compute. reflexivity.
  - vm_compute. tauto.
  - vm_compute. tauto.
Defined.

Lemma startswith_true (p s : str) :
  Py.startswith p s = true -> s = p ++ skipn (length p) s.
Proof.
  revert s. induction p as [|a p IH]; intros s; [reflexivity|].
  destruct s as [|b s]; simpl; [discriminate|].
  intros H. apply andb_true_iff in H as [Hab Hp].
  apply Ascii.eqb_eq in Hab. subst b. f_equal. now apply IH.
Qed.

Lemma join_cons_head (sep : str) (c : ascii) (l : list str) :
  l <> [] -> Py.join sep (Py.cons_head c l) = c :: Py.join sep l.
Proof. destruct l as [|p [|p' ps]]; [congruence | reflexivity | reflexivity]. Qed.

Lemma join_split_fuel (n : nat) (c0 : ascii) (sep s : str) :
  length s <= n -> Py.join (c0 :: sep) (Py.split (c0 :: sep) s) = s.
Proof.
  revert s. induction n as [|n IH]; intros s Hn.
  - destruct s; [reflexivity | simpl in Hn; lia].
  - destruct s as [|c s]; [reflexivity|].
    destruct (Py.startswith (c0 :: sep) (c :: s)) eqn:E.
    + apply startswith_true in E. rewrite E.
      rewrite split_sep.
      destruct (Py.split (c0 :: sep) (skipn (length (c0 :: sep)) (c :: s)))
        as [|p ps] eqn:Es; [now apply split_go_nonempty in Es|].
      change (Py.join (c0 :: sep) ([] :: p :: ps))
        with ((c0 :: sep) ++ Py.join (c0 :: sep) (p :: ps)).
      rewrite <- Es. rewrite IH; [reflexivity|].
      simpl. rewrite length_skipn. simpl in Hn. lia.
    + rewrite split_other by assumption.
      rewrite join_cons_head by apply split_go_nonempty.
      rewrite IH; [reflexivity|]. simpl in Hn. lia.
Qed.

(** [sep.join(s.split(sep))] is [s]. *)
Lemma join_split (c0 : ascii) (sep s : str) :
  Py.join (c0 :: sep) (Py.split (c0 :: sep) s) = s.
Proof. now apply (join_split_fuel (length s)). Qed.

Lemma parse_blocks_count (blocks : list str) (cues cues' : list cue) (q q' : list str) :
  for_each parse_block blocks (cues, q) = Ok (cues', q') ->
  length cues' = length cues + length blocks.
Proof.
  revert cues q. induction blocks as [|b blocks IH]; intros cues q; simpl.
  - intros [= <- <-]. lia.
  - unfold parse_block at 1. destruct (_cue_cleaner q b) as [[c q1]|]; simpl;
      [|discriminate].
    intros H. apply IH in H. rewrite length_app in H. simpl in H. lia.
Qed.

(** X13. The splitter loses nothing of the text and drops no block:
    the header and the cue blocks, joined again by empty lines, are the
    text after its one replacement; the header is what stands before
    the first empty line; and every block after it, empty ones
    included, gives one cue. *)
Theorem X13_parse_cues_blocks (subtitle_str : str) (st : parser) :
  _parse_cues subtitle_str = Ok st ->
  Py.join [nl; nl] (header st :: cue_blocks subtitle_str) =
    Py.replace nl_blank_nl [nl] subtitle_str /\
  length (parsed_cue_list st) = length (cue_blocks subtitle_str).
Proof.
  unfold _parse_cues, cue_blocks.
  pose proof (join_split nl [nl] (Py.replace nl_blank_nl [nl] subtitle_str)) as Hj.
  destruct (Py.split [nl; nl] _) as [|hd rest]; [discriminate|].
  destruct (for_each parse_block rest ([], [])) as [[cues q]|] eqn:E; simpl;
    [|discriminate].
  intros [= <-]. simpl. split; [exact Hj|].
  now apply parse_blocks_count in E.
Qed.

Lemma X13_parse_cues_blocks_witness :
  length (parsed_cue_list scenario_A_cues) = length (cue_blocks scenario_A).
Proof.
  apply (X13_parse_cues_blocks scenario_A scenario_A_cues).
  vm_compute. reflexivity.
Defined.

(** * The bulk import *)

Lemma bulk_fold (J : json_dumps) (v : video) (lang : option str)
    (st : parser) (doc0 : document) (m : list nat) (acc : list str)
    (doc : document) :
  (forall d c, update_document doc d c = update_document doc0 d c) ->
  (fold_left (bulk_step J v lang st) m (acc, doc)).1 =
  acc ++ concat (map (fun r =>
           let c := parsed_cue_list st !!! r in
           let did := document_id v lang (id_ c) in
           [dumps_action J (mk_action (txt "ta_subtitle") did);
            dumps_document J (update_document doc0 did c)]) m).
Proof.
  revert acc doc. induction m as [|r m IH]; intros acc doc Hdoc.
  - simpl. now rewrite app_nil_r.
  - cbn [fold_left map concat]. unfold bulk_step at 2. cbn [fst snd].
    rewrite IH by (intros d c; etransitivity; [|apply Hdoc]; reflexivity).
    rewrite Hdoc. now rewrite <- app_assoc.
Qed.

Lemma join_snoc (sep : str) (l : list str) (x : str) :
  l <> [] -> Py.join sep (l ++ [x]) = Py.join sep l ++ sep ++ x.
Proof.
  induction l as [|a l IH]; [congruence|]. intros _.
  destruct l as [|b l]; [reflexivity|].
  change (Py.join sep ((a :: b :: l) ++ [x]))
    with (a ++ sep ++ Py.join sep ((b :: l) ++ [x])).
  rewrite IH by discriminate.
  change (Py.join sep (a :: b :: l)) with (a ++ sep ++ Py.join sep (b :: l)).
  now rewrite <- !app_assoc.
Qed.

Lemma join_ends (l : list str) : exists body, Py.join [nl] (l ++ [[nl]]) = body ++ [nl].
Proof.
  destruct l as [|a l].
  - now exists [].
  - exists (Py.join [nl] (a :: l) ++ [nl]).
    rewrite join_snoc by discriminate. now rewrite <- app_assoc.
Qed.

(** X14. With a channel on the video, [create_bulk_import] gives two
    JSON lines for every matched cue, the action before the document,
    in the order of the matched sequence, and a last line break; the
    lines of a cue are computed from that cue alone, so that nothing an
    earlier cue put into the one document dict of the loop shows in the
    document of a later cue. The text ends with a line break. *)
Theorem X14_bulk_import_entries (J : json_dumps) (now : Z) (lang : option str)
    (st : parser) (v : video) (source : str) (ch : channel_data) :
  channel (json v) = Channel ch ->
  create_bulk_import J now lang st v source =
    Query (Py.join [nl]
             (concat (map (entry_of J now lang v source ch)
                          (matched_cues st)) ++ [[nl]])) /\
  exists body, create_bulk_import J now lang st v source =
                 Query (body ++ [nl]).
Proof.
  intros Hch. unfold create_bulk_import. rewrite Hch. cbv zeta.
  rewrite (bulk_fold J v lang st
             (mk_document (youtube_id v) (title (json v)) (channel_name ch)
                (channel_id ch) now lang source None None None None None))
    by reflexivity.
  cbn [app]. unfold matched_cues. rewrite map_map. split; [reflexivity|].
  match goal with |- context [Py.join [nl] (?l ++ [[nl]])] =>
    destruct (join_ends l) as [body ->] end.
  now exists body.
Qed.

Lemma X14_bulk_import_entries_witness :
  exists st, process scenario_A = Ok st /\
    create_bulk_import json_lines 0 (Some (txt "en")) st video_A (txt "user") =
      Query (Py.join [nl]
               (concat (map (entry_of json_lines 0 (Some (txt "en")) video_A
                               (txt "user")
                               channel_A)
                            (matched_cues st)) ++ [[nl]])).
Proof.
  eexists. split; [vm_compute; reflexivity|].
  apply (X14_bulk_import_entries json_lines 0 (Some (txt "en")) _ video_A).
  reflexivity.
Defined.

(** ** The document ids *)

Lemma dash_split (a a' d d' : str) :
  Forall (fun c => Py.is_digit c = true) d ->
  Forall (fun c => Py.is_digit c = true) d' ->
  a ++ "-"%char :: d = a' ++ "-"%char :: d' -> a = a' /\ d = d'.
Proof.
  intros Hd Hd'. revert a'. induction a as [|c a IH]; intros [|c' a'] H.
  - injection H as ->. now split.
  - injection H as Hc Hd2. subst c' d. exfalso.
    apply (digits_no "-"%char _ Hd); [reflexivity|].
    apply in_or_app. right. now left.
  - injection H as Hc Hd2. subst c d'. exfalso.
    apply (digits_no "-"%char _ Hd'); [reflexivity|].
    apply in_or_app. right. now left.
  - injection H as -> H. destruct (IH _ H) as [-> ->]. now split.
Qed.

Lemma app_same_length {A : Type} (a a' b b' : list A) :
  length a = length a' -> a ++ b = a' ++ b' -> a = a' /\ b = b'.
Proof.
  revert a'. induction a as [|x a IH]; intros [|x' a'] Hl H;
    try discriminate; [now split|].
  injection H as -> H. injection Hl as Hl.
  destruct (IH _ Hl H) as [-> ->]. now split.
Qed.

Lemma str_of_nat_inj (n n' : nat) :
  Py.str_of_nat n = Py.str_of_nat n' -> n = n'.
Proof.
  unfold Py.str_of_nat. intros H.
  apply (f_equal string_of_list_ascii) in H.
  rewrite !string_of_list_ascii_of_string in H.
  apply (f_equal NilEmpty.uint_of_string) in H.
  rewrite !NilEmpty.usu in H. injection H as H.
  now apply DecimalNat.Unsigned.to_uint_inj.
Qed.

Lemma document_id_inj (v v' : video) (lang lang' : option str)
    (n n' : nat) :
  length (youtube_id v) = length (youtube_id v') ->
  document_id v lang (Some n) = document_id v' lang' (Some n') ->
  youtube_id v = youtube_id v' /\ show_str lang = show_str lang' /\
  n = n'.
Proof.
  intros Hl H. unfold document_id in H.
  apply app_same_length in H as [Hv H]; [|assumption].
  split; [assumption|].
  change (txt "-" ++ show_str lang ++ txt "-" ++ show_id (Some n))
    with ("-"%char :: show_str lang ++ "-"%char :: Py.str_of_nat n) in H.
  change (txt "-" ++ show_str lang' ++ txt "-" ++ show_id (Some n'))
    with ("-"%char :: show_str lang' ++ "-"%char :: Py.str_of_nat n') in H.
  injection H as H.
  apply dash_split in H as [Hlang Hn]; try apply str_of_nat_digits.
  split; [assumption|]. now apply str_of_nat_inj.
Qed.

(** X15. For video ids of one length (those of YouTube have eleven
    characters) the document id determines the video, the language as
    it is shown and the cue id: two fragments share an [_id] only when
    they agree on all three. *)
Theorem X15_document_id_injective (v v' : video)
    (lang lang' : option str) (n n' : nat) :
  length (youtube_id v) = length (youtube_id v') ->
  document_id v lang (Some n) = document_id v' lang' (Some n') ->
  youtube_id v = youtube_id v' /\ show_str lang = show_str lang' /\
  n = n'.
Proof.
  intros Hl H. destruct (document_id_inj _ _ _ _ _ _ Hl H) as (Hv & Hs & Hn).
  repeat split; assumption.
Qed.

Lemma X15_document_id_injective_witness :
  youtube_id video_A = youtube_id video_A /\
  show_str (Some (txt "en")) = show_str (Some (txt "en")) /\ 3 = 3.
Proof.
  apply (X15_document_id_injective video_A video_A (Some (txt "en"))
           (Some (txt "en")) 3 3); reflexivity.
Defined.

Lemma NoDup_map_inj {A B : Type} (f : A -> B) (l : list A) :
  (forall x y, In x l -> In y l -> f x = f y -> x = y) ->
  List.NoDup l -> List.NoDup (map f l).
Proof.
  intros Hf Hnd. induction Hnd as [|x l Hx Hnd IH]; [constructor|].
  simpl. constructor.
  - intros Hin. apply in_map_iff in Hin as (y & Hy & Hin).
    apply Hx. rewrite (Hf x y); [assumption | now left | now right | congruence].
  - apply IH. intros a b Ha Hb. apply Hf; now right.
Qed.

(** X16. When the queue the splitter builds holds no line twice, the
    [_id]s of the bulk request made after [process] are pairwise
    distinct: no fragment of the video overwrites another in the
    index. *)
Theorem X16_bulk_ids_distinct (subtitle_str : str) (st0 st : parser)
    (v : video) (lang : option str) :
  _parse_cues subtitle_str = Ok st0 ->
  List.NoDup (all_text_lines st0) ->
  process subtitle_str = Ok st ->
  List.NoDup (bulk_ids v lang st).
Proof.
  intros Hp Hnd H. apply process_Ok in H as (st0' & st1 & Hp' & Hm & Ht).
  assert (st0' = st0) by congruence. subst st0'.
  pose proof (match_text_lines_NoDup _ _ Hnd Hm) as Hnd1.
  apply match_text_lines_Ok in Hm.
  apply match_loop_frame in Hm as (_ & Hlen & _ & _ & Hv & _).
  simpl in Hv, Hlen.
  assert (Hids : ids_of (_add_id st1) = map Some (seq 1 (length (matched st1)))).
  { apply add_id_contiguous_distinct; [assumption|].
    intros r Hr. destruct (Hv r Hr) as [[]|H]. now rewrite Hlen. }
  apply timestamp_check_Ok in Ht as (cues' & Ht & ->).
  apply ts_loop_frame in Ht as [_ Hf].
  unfold bulk_ids, matched_cues. simpl. rewrite map_map.
  assert (E : map (fun r => document_id v lang (id_ (cues' !!! r)))
                  (matched st1) =
              map (document_id v lang) (ids_of (_add_id st1))).
  { unfold ids_of. rewrite map_map. apply map_ext. intros r.
    destruct (Hf r) as (_ & _ & Hid). simpl. now rewrite Hid. }
  rewrite E, Hids, map_map.
  apply NoDup_map_inj; [|apply List.seq_NoDup].
  intros x y _ _ Hxy.
  now apply (document_id_inj v v lang lang x y eq_refl) in Hxy.
Qed.

Lemma X16_bulk_ids_distinct_witness :
  exists st, process scenario_A = Ok st /\
    List.NoDup (bulk_ids video_A (Some (txt "en")) st).
Proof.
  eexists. split; [vm_compute; reflexivity|].
  apply (X16_bulk_ids_distinct scenario_A scenario_A_cues).
  - vm_compute. reflexivity.
  - vm_compute. repeat constructor; simpl; intuition discriminate.
  - vm_compute. reflexivity.
Defined.
(** * The subtitle dicts *)

Section dict_facts.

Context {V : Type}.
Implicit Types (d : list (str * V)) (k : str) (v : V).

Lemma get_In k d v : Dict.get k d = Some v -> In (k, v) d.
Proof.
  induction d as [|[k' v'] d IH]; simpl; [discriminate|].
  destruct (Py.str_eqb k k') eqn:E.
  - apply str_eqb_eq in E as ->. intros [= ->]. now left.
  - intros H. right. now apply IH.
Qed.

Lemma get_None k d : Dict.get k d = None <-> ~ In k (Dict.keys d).
Proof.
  induction d as [|[k' v'] d IH]; simpl; [tauto|].
  destruct (Py.str_eqb k k') eqn:E.
  - apply str_eqb_eq in E as ->. split; [discriminate | tauto].
  - apply str_eqb_neq in E. rewrite IH. split; [|tauto].
    intros H [H'|H']; [congruence | tauto].
Qed.

Lemma get_Some_key k d v : Dict.get k d = Some v -> In k (Dict.keys d).
Proof. intros H. apply get_In in H. apply (in_map fst) in H. exact H. Qed.

Lemma In_get k d v :
  List.NoDup (Dict.keys d) -> In (k, v) d -> Dict.get k d = Some v.
Proof.
  induction d as [|[k' v'] d IH]; simpl; [tauto|].
  intros Hnd [H|H].
  - injection H as -> ->. now rewrite str_eqb_refl.
  - inversion Hnd as [|? ? Hk Hnd']. subst.
    destruct (Py.str_eqb k k') eqn:E; [|now apply IH].
    apply str_eqb_eq in E as ->. exfalso. apply Hk.
    apply (in_map fst) in H. exact H.
Qed.

Lemma get_app k d1 d2 :
  Dict.get k (d1 ++ d2) =
  match Dict.get k d1 with Some v => Some v | None => Dict.get k d2 end.
Proof.
  induction d1 as [|[k' v'] d1 IH]; simpl; [reflexivity|].
  now destruct (Py.str_eqb k k').
Qed.

Lemma pop_keys k d v d' :
  Dict.pop k d = Some (v, d') -> forall x, In x d' -> In x d.
Proof.
  revert d'. induction d as [|[k' v'] d IH]; simpl; intros d' H; [discriminate|].
  destruct (Py.str_eqb k k').
  - injection H as -> ->. intros x Hx. now right.
  - destruct (Dict.pop k d) as [[x0 d0]|]; [|discriminate].
    injection H as -> <-. intros x [Hx|Hx]; [now left|].
    right. now apply (IH d0).
Qed.

Lemma pop_spec k d v d' :
  List.NoDup (Dict.keys d) -> Dict.pop k d = Some (v, d') ->
  List.NoDup (Dict.keys d') /\
  forall k', Dict.get k' d' = if Py.str_eqb k' k then None else Dict.get k' d.
Proof.
  revert d'. induction d as [|[k' v'] d IH]; simpl; intros d' Hnd H; [discriminate|].
  inversion Hnd as [|? ? Hk Hnd']. subst.
  destruct (Py.str_eqb k k') eqn:E.
  - apply str_eqb_eq in E as ->. injection H as -> ->.
    split; [assumption|]. intros k.
    destruct (Py.str_eqb k k') eqn:E'; [|reflexivity].
    apply str_eqb_eq in E' as ->. now apply get_None.
  - destruct (Dict.pop k d) as [[x0 d0]|] eqn:Ep; [|discriminate].
    injection H as -> <-. destruct (IH d0 Hnd' eq_refl) as [Hnd0 Hget].
    split.
    + simpl. constructor; [|assumption]. intros Hin. apply Hk.
      apply in_map_iff in Hin as ([a b] & <- & Hin).
      apply (in_map fst). now apply (pop_keys _ _ _ _ Ep).
    + intros k''. simpl. rewrite Hget.
      destruct (Py.str_eqb k'' k') eqn:E1; [|reflexivity].
      apply str_eqb_eq in E1 as ->.
      apply str_eqb_neq in E.
      destruct (Py.str_eqb k' k) eqn:E2; [|reflexivity].
      apply str_eqb_eq in E2. congruence.
Qed.

Lemma get_pop k d v : Dict.get k d = Some v -> exists d', Dict.pop k d = Some (v, d').
Proof.
  induction d as [|[k' v'] d IH]; simpl; [discriminate|].
  destruct (Py.str_eqb k k'); [intros [= ->]; eauto|].
  intros H. destruct (IH H) as [d' ->]. eauto.
Qed.

Lemma get_set_item k' k v d :
  Dict.get k' (Dict.set_item k v d) =
  if Py.str_eqb k' k then Some v else Dict.get k' d.
Proof.
  induction d as [|[k0 v0] d IH]; simpl; [reflexivity|].
  destruct (Py.str_eqb k k0) eqn:E; simpl.
  - apply str_eqb_eq in E as ->. now destruct (Py.str_eqb k' k0).
  - rewrite IH. destruct (Py.str_eqb k' k0) eqn:E1; [|reflexivity].
    apply str_eqb_eq in E1 as ->. apply str_eqb_neq in E.
    destruct (Py.str_eqb k0 k) eqn:E2; [|reflexivity].
    apply str_eqb_eq in E2. congruence.
Qed.

Lemma keys_set_item k v d :
  Dict.keys (Dict.set_item k v d) =
  match Dict.get k d with
  | Some _ => Dict.keys d
  | None => Dict.keys d ++ [k]
  end.
Proof.
  induction d as [|[k0 v0] d IH]; simpl; [reflexivity|].
  destruct (Py.str_eqb k k0) eqn:E; simpl; [reflexivity|].
  rewrite IH. now destruct (Dict.get k d).
Qed.

Lemma NoDup_set_item k v d :
  List.NoDup (Dict.keys d) -> List.NoDup (Dict.keys (Dict.set_item k v d)).
Proof.
  intros Hnd. rewrite keys_set_item. destruct (Dict.get k d) eqn:E; [assumption|].
  apply get_None in E. apply NoDup_ListNoDup. apply NoDup_ListNoDup in Hnd.
  apply NoDup_app. split; [assumption|]. split; [|apply NoDup_singleton].
  intros x Hx Hx'. apply list_elem_of_In in Hx.
  apply list_elem_of_singleton in Hx'. subst. contradiction.
Qed.

Lemma variants_snoc (L : str) d (x : str * V) :
  variants L (d ++ [x]) =
  variants L d ++
    (if Py.str_eqb (lang_of x.1) L && negb (Py.str_eqb x.1 L) then [x] else []).
Proof. unfold variants. now rewrite List.filter_app. Qed.

Lemma variants_In (L : str) d (x : str * V) :
  In x (variants L d) -> In x d /\ lang_of x.1 = L /\ x.1 <> L.
Proof.
  unfold variants. intros H. apply filter_In in H as [H1 H2].
  apply andb_true_iff in H2 as [H2 H3]. apply str_eqb_eq in H2.
  apply negb_true_iff in H3. apply str_eqb_neq in H3. auto.
Qed.

End dict_facts.
(** ** [_normalize_lang] *)

Lemma split_before (c0 : ascii) (s : str) :
  exists rest, Py.split [c0] s = before c0 s :: rest.
Proof.
  induction s as [|c s [rest IH]]; [now exists []|].
  simpl before. destruct (Ascii.eqb c0 c) eqn:E.
  - apply Ascii.eqb_eq in E as <-.
    exists (Py.split [c0] s). apply (split_sep c0 [] s).
  - rewrite split_other by (simpl; now rewrite E).
    rewrite IH. now exists rest.
Qed.

Lemma before_no (c0 : ascii) (s : str) : ~ In c0 (before c0 s).
Proof.
  induction s as [|c s IH]; simpl; [tauto|].
  destruct (Ascii.eqb c0 c) eqn:E; simpl; [tauto|].
  apply Ascii.eqb_neq in E. intros [H|H]; [congruence | tauto].
Qed.

Lemma before_plain (c0 : ascii) (s : str) : ~ In c0 s -> before c0 s = s.
Proof.
  induction s as [|c s IH]; simpl; [reflexivity|]. intros H.
  destruct (Ascii.eqb c0 c) eqn:E.
  - apply Ascii.eqb_eq in E. exfalso. apply H. left. congruence.
  - f_equal. apply IH. tauto.
Qed.

Lemma lang_of_idem (key : str) : lang_of (lang_of key) = lang_of key.
Proof. apply before_plain, before_no. Qed.

Lemma normalize_key_eq (d : list (str * list format)) (key : str) :
  normalize_key d key =
  match Dict.pop key d with
  | None => Raise KeyError
  | Some (old, d') =>
      if Py.str_eqb (lang_of key) (txt "live_chat") then Ok d'
      else Ok (Dict.set_item (lang_of key) old d')
  end.
Proof.
  unfold normalize_key, lang_of. change (txt "-") with ["-"%char].
  now destruct (split_before "-"%char key) as [rest ->].
Qed.

Lemma is_lang_true (k : str) :
  is_lang k = true <-> lang_of k = k /\ k <> txt "live_chat".
Proof.
  unfold is_lang. rewrite andb_true_iff, negb_true_iff, str_eqb_eq, str_eqb_neq.
  tauto.
Qed.

Lemma value_after_snoc {V} (P R : list (str * V)) (k0 : str) (v0 : V) (k : str) :
  value_after (P ++ [(k0, v0)]) R k =
  if is_lang k
  then if Py.str_eqb (lang_of k0) k && negb (Py.str_eqb k0 k) then Some v0
       else match last (variants k P) with
            | Some kv => Some kv.2
            | None => Dict.get k (P ++ (k0, v0) :: R)
            end
  else Dict.get k R.
Proof.
  unfold value_after. destruct (is_lang k); [|reflexivity].
  rewrite variants_snoc. cbn [fst].
  destruct (Py.str_eqb (lang_of k0) k && negb (Py.str_eqb k0 k)).
  - now rewrite last_snoc.
  - rewrite app_nil_r. now rewrite <- app_assoc.
Qed.

Lemma value_after_cons {V} (P R : list (str * V)) (k0 : str) (v0 : V) (k : str) :
  value_after P ((k0, v0) :: R) k =
  if is_lang k
  then match last (variants k P) with
       | Some kv => Some kv.2
       | None => Dict.get k (P ++ (k0, v0) :: R)
       end
  else if Py.str_eqb k k0 then Some v0 else Dict.get k R.
Proof. reflexivity. Qed.

Ltac eqb_cases a b H :=
  destruct (Py.str_eqb a b) eqn:H;
  [apply str_eqb_eq in H | apply str_eqb_neq in H].

(** One turn of the loop: the key is found, and the dict is as
    [value_after] says with the key moved from [R] to [P]. *)
Lemma normalize_key_step (P R cur : list (str * list format)) (k0 : str)
    (v0 : list format) :
  List.NoDup (Dict.keys (P ++ (k0, v0) :: R)) ->
  List.NoDup (Dict.keys cur) ->
  (forall k, Dict.get k cur = value_after P ((k0, v0) :: R) k) ->
  exists cur', normalize_key cur k0 = Ok cur' /\
    List.NoDup (Dict.keys cur') /\
    forall k, Dict.get k cur' = value_after (P ++ [(k0, v0)]) R k.
Proof.
  intros Hnd Hc Hget.
  assert (HR : Dict.get k0 R = None).
  { apply get_None. unfold Dict.keys in *. rewrite map_app in Hnd.
    apply List.NoDup_remove_2 in Hnd. intros H. apply Hnd.
    apply in_or_app. now right. }
  assert (HP : Dict.get k0 P = None).
  { apply get_None. unfold Dict.keys in *. rewrite map_app in Hnd.
    apply List.NoDup_remove_2 in Hnd. intros H. apply Hnd.
    apply in_or_app. now left. }
  assert (Hold : exists old, Dict.get k0 cur = Some old /\
                   (is_lang k0 = false -> old = v0)).
  { rewrite Hget, value_after_cons, str_eqb_refl.
    destruct (is_lang k0); [|now eauto].
    destruct (last (variants k0 P)) as [kv|];
      [eexists; split; [reflexivity | discriminate]|].
    rewrite get_app, HP. simpl. rewrite str_eqb_refl.
    exists v0. split; [reflexivity | discriminate]. }
  destruct Hold as (old & Hold & Hv0).
  destruct (get_pop _ _ _ Hold) as [cur1 Hpop].
  destruct (pop_spec _ _ _ _ Hc Hpop) as [Hc1 Hget1].
  rewrite normalize_key_eq, Hpop.
  eqb_cases (lang_of k0) (txt "live_chat") Elc.
  - (* the language is live_chat: the entry is dropped *)
    assert (Hno : is_lang k0 = false).
    { destruct (is_lang k0) eqn:E; [|reflexivity].
      apply is_lang_true in E as [E1 E2]. congruence. }
    exists cur1. split; [reflexivity|]. split; [assumption|].
    intros k. rewrite Hget1, value_after_snoc.
    eqb_cases k k0 Ek.
    + subst k. now rewrite Hno.
    + rewrite Hget, value_after_cons.
      destruct (is_lang k) eqn:El.
      * apply is_lang_true in El as [_ El].
        eqb_cases (lang_of k0) k E1; [congruence|]. reflexivity.
      * eqb_cases k k0 E2; [congruence | reflexivity].
  - eqb_cases (lang_of k0) k0 Epl.
    + (* a plain key: taken out and put back at the end *)
      assert (Hyes : is_lang k0 = true) by (apply is_lang_true; split; congruence).
      rewrite Epl.
      exists (Dict.set_item k0 old cur1). split; [reflexivity|].
      split; [now apply NoDup_set_item|].
      intros k. rewrite get_set_item, Hget1, value_after_snoc.
      eqb_cases k k0 Ek.
      * subst k. rewrite Hyes, Epl, str_eqb_refl. simpl.
        rewrite <- Hold, Hget, value_after_cons, Hyes. reflexivity.
      * rewrite Hget, value_after_cons. rewrite Epl.
        destruct (is_lang k) eqn:El.
        -- eqb_cases k0 k E1; [congruence | reflexivity].
        -- eqb_cases k k0 E2; [congruence | reflexivity].
    + (* a country specific key: its formats go under the language *)
      assert (Hno : is_lang k0 = false).
      { destruct (is_lang k0) eqn:E; [|reflexivity].
        apply is_lang_true in E as [E1 E2]. congruence. }
      rewrite (Hv0 Hno) in *.
      assert (Hyes : is_lang (lang_of k0) = true).
      { apply is_lang_true. split; [apply lang_of_idem | assumption]. }
      exists (Dict.set_item (lang_of k0) v0 cur1). split; [reflexivity|].
      split; [now apply NoDup_set_item|].
      intros k. rewrite get_set_item, Hget1, value_after_snoc.
      eqb_cases k (lang_of k0) Ek.
      * subst k. rewrite Hyes, str_eqb_refl.
        eqb_cases k0 (lang_of k0) E1; [congruence | reflexivity].
      * eqb_cases (lang_of k0) k E1; [congruence|]. simpl.
        eqb_cases k k0 E2.
        -- subst k. now rewrite Hno.
        -- rewrite Hget, value_after_cons.
           destruct (is_lang k); [reflexivity|].
           eqb_cases k k0 E3; [congruence | reflexivity].
Qed.

Lemma normalize_loop (R : list (str * list format)) :
  forall P cur,
  List.NoDup (Dict.keys (P ++ R)) -> List.NoDup (Dict.keys cur) ->
  (forall k, Dict.get k cur = value_after P R k) ->
  exists d', for_each normalize_key (Dict.keys R) cur = Ok d' /\
    List.NoDup (Dict.keys d') /\
    forall k, Dict.get k d' = normalized_value (P ++ R) k.
Proof.
  induction R as [|[k0 v0] R IH]; intros P cur Hnd Hc Hget.
  - exists cur. split; [reflexivity|]. split; [assumption|].
    intros k. rewrite Hget. unfold value_after, normalized_value.
    rewrite !app_nil_r. destruct (is_lang k); reflexivity.
  - destruct (normalize_key_step P R cur k0 v0 Hnd Hc Hget)
      as (cur' & Hstep & Hc' & Hget').
    cbn [Dict.keys map fst for_each]. rewrite Hstep. cbn [bind].
    replace (P ++ (k0, v0) :: R) with ((P ++ [(k0, v0)]) ++ R) in *
      by now rewrite <- app_assoc.
    now apply IH.
Qed.

Lemma normalize_dict (d : list (str * list format)) :
  List.NoDup (Dict.keys d) ->
  exists d', for_each normalize_key (Dict.keys d) d = Ok d' /\
    List.NoDup (Dict.keys d') /\
    forall k, Dict.get k d' = normalized_value d k.
Proof.
  intros Hnd. apply (normalize_loop d [] d); try assumption.
  intros k. unfold value_after. simpl. now destruct (is_lang k).
Qed.
Lemma normalized_is_lang {V} (d : list (str * V)) (k : str) (x : V) :
  normalized_value d k = Some x -> is_lang k = true.
Proof. unfold normalized_value. now destruct (is_lang k). Qed.

Lemma normalized_from {V} (d : list (str * V)) (k : str) (x : V) :
  normalized_value d k = Some x ->
  exists key, In (key, x) d /\ lang_of key = k.
Proof.
  intros H. pose proof (normalized_is_lang _ _ _ H) as Hl.
  unfold normalized_value in H. rewrite Hl in H.
  apply is_lang_true in Hl as [Hl _].
  destruct (last (variants k d)) as [[key y]|] eqn:E.
  - injection H as <-. apply last_Some in E as [l' E].
    assert (Hin : In (key, y) (variants k d)).
    { rewrite E. apply in_or_app. right. now left. }
    apply variants_In in Hin as (Hin & Hk & _). now exists key.
  - exists k. split; [now apply get_In | assumption].
Qed.

Lemma normalize_lang_dict (v : video) (d : list (str * list format)) :
  meta_subtitles v = Some d -> d <> [] -> List.NoDup (Dict.keys d) ->
  exists d', _normalize_lang v = Ok (set_meta_subtitles v d', Some d') /\
    List.NoDup (Dict.keys d') /\
    forall k, Dict.get k d' = normalized_value d k.
Proof.
  intros Hd Hne Hnd. destruct (normalize_dict d Hnd) as (d' & Hloop & Hnd' & Hget).
  exists d'. unfold _normalize_lang. rewrite Hd.
  destruct d as [|x d0]; [congruence|]. rewrite Hloop. now split.
Qed.

(** X17. On a dict of subtitles [_normalize_lang] never fails on its
    [pop]: it completes, and the keys it leaves are exactly the
    languages of the keys it found, ["live_chat"] apart; none of them
    holds a ["-"]; and the formats under each are those the video had
    under a key of that language. *)
Theorem X17_normalize_lang_keys (v : video) (d : list (str * list format)) :
  meta_subtitles v = Some d -> d <> [] -> List.NoDup (Dict.keys d) ->
  exists d', _normalize_lang v = Ok (set_meta_subtitles v d', Some d') /\
    (forall k, In k (Dict.keys d') <->
       k <> txt "live_chat" /\
       exists key, In key (Dict.keys d) /\ k = lang_of key) /\
    (forall k, In k (Dict.keys d') -> ~ In "-"%char k) /\
    (forall k fs, In (k, fs) d' -> exists key, In (key, fs) d /\ lang_of key = k).
Proof.
  intros Hd Hne Hnd.
  destruct (normalize_lang_dict v d Hd Hne Hnd) as (d' & Hn & Hnd' & Hget).
  exists d'. split; [assumption|].
  assert (Hkeys : forall k, In k (Dict.keys d') -> is_lang k = true).
  { intros k Hk. destruct (Dict.get k d') as [x|] eqn:E.
    - rewrite Hget in E. now apply normalized_is_lang in E.
    - apply get_None in E. contradiction. }
  split; [|split].
  - intros k. split.
    + intros Hk. pose proof (Hkeys k Hk) as Hl.
      apply is_lang_true in Hl as [Hl Hlc]. split; [assumption|].
      destruct (Dict.get k d') as [x|] eqn:E;
        [|apply get_None in E; contradiction].
      rewrite Hget in E. apply normalized_from in E as (key & Hin & Hk').
      exists key. split; [|congruence]. apply (in_map fst) in Hin. exact Hin.
    + intros (Hlc & key & Hkey & ->).
      destruct (Dict.get (lang_of key) d') as [x|] eqn:E;
        [now apply get_Some_key in E|].
      exfalso. rewrite Hget in E. unfold normalized_value in E.
      assert (Hl : is_lang (lang_of key) = true).
      { apply is_lang_true. split; [apply lang_of_idem | assumption]. }
      rewrite Hl in E.
      destruct (last (variants (lang_of key) d)) as [kv|] eqn:El; [discriminate|].
      apply last_None in El.
      apply in_map_iff in Hkey as ([key' fs] & Hk' & Hin). simpl in Hk'. subst key'.
      eqb_cases key (lang_of key) Ek.
      * rewrite <- Ek in E. apply get_None in E. apply E.
        apply (in_map fst) in Hin. exact Hin.
      * assert (Hv : In (key, fs) (variants (lang_of key) d)).
        { unfold variants. apply filter_In. split; [assumption|]. simpl.
          rewrite str_eqb_refl. simpl. apply negb_true_iff.
          now apply str_eqb_neq. }
        rewrite El in Hv. contradiction.
  - intros k Hk. apply Hkeys in Hk. apply is_lang_true in Hk as [<- _].
    apply before_no.
  - intros k fs Hin. apply In_get in Hin; [|assumption].
    rewrite Hget in Hin. now apply normalized_from.
Qed.

Lemma X17_normalize_lang_keys_witness :
  exists d', _normalize_lang video_A = Ok (set_meta_subtitles video_A d', Some d') /\
    (forall k, In k (Dict.keys d') -> ~ In "-"%char k).
Proof.
  destruct (X17_normalize_lang_keys video_A
              [(txt "en-US", formats_A); (txt "live_chat", [])])
    as (d' & H & _ & Hk & _).
  - reflexivity.
  - discriminate.
  - vm_compute. repeat constructor; simpl; intuition discriminate.
  - exists d'. now split.
Defined.

(** X18. Which formats [_normalize_lang] leaves under a language: those
    of the last country specific key of the language when the video has
    one, whatever it has under the plain key; those of the plain key
    otherwise. *)
Theorem X18_normalize_lang_value (v v' : video)
    (d d' : list (str * list format)) (L : str) :
  meta_subtitles v = Some d -> List.NoDup (Dict.keys d) ->
  _normalize_lang v = Ok (v', Some d') ->
  ~ In "-"%char L -> L <> txt "live_chat" ->
  Dict.get L d' = match last (variants L d) with
                  | Some kv => Some kv.2
                  | None => Dict.get L d
                  end.
Proof.
  intros Hd Hnd Hn Hdash Hlc.
  assert (Hne : d <> []).
  { intros ->. unfold _normalize_lang in Hn. rewrite Hd in Hn. discriminate. }
  destruct (normalize_lang_dict v d Hd Hne Hnd) as (d0 & Hn0 & _ & Hget).
  rewrite Hn0 in Hn. injection Hn as _ <-.
  rewrite Hget. unfold normalized_value.
  assert (Hl : is_lang L = true).
  { apply is_lang_true. split; [now apply before_plain | assumption]. }
  now rewrite Hl.
Qed.

Lemma X18_normalize_lang_value_witness :
  exists v' d', _normalize_lang video_A = Ok (v', Some d') /\
    Dict.get (txt "en") d' = Some formats_A.
Proof.
  exists (set_meta_subtitles video_A [(txt "en", formats_A)]).
  exists [(txt "en", formats_A)]. split; [vm_compute; reflexivity|].
  rewrite (X18_normalize_lang_value video_A
             (set_meta_subtitles video_A [(txt "en", formats_A)])
             [(txt "en-US", formats_A); (txt "live_chat", [])]
             [(txt "en", formats_A)] (txt "en")).
  - reflexivity.
  - reflexivity.
  - vm_compute. repeat constructor; simpl; intuition discriminate.
  - vm_compute. reflexivity.
  - simpl. intuition discriminate.
  - discriminate.
Defined.
Lemma set_item_new {V} (k : str) (v : V) (d : list (str * V)) :
  Dict.get k d = None -> Dict.set_item k v d = d ++ [(k, v)].
Proof.
  induction d as [|[k' v'] d IH]; simpl; [reflexivity|].
  destruct (Py.str_eqb k k'); [discriminate|]. intros H. now rewrite IH.
Qed.

(** On a dict whose keys are all languages the loop takes every entry
    out and puts it back at the end: the dict comes out as it was. *)
Lemma normalize_rotate (R : list (str * list format)) :
  forall P,
  List.NoDup (Dict.keys (R ++ P)) ->
  (forall k, In k (Dict.keys R) -> is_lang k = true) ->
  for_each normalize_key (Dict.keys R) (R ++ P) = Ok (P ++ R).
Proof.
  induction R as [|[k v] R IH]; intros P Hnd Hl.
  - simpl. now rewrite app_nil_r.
  - cbn [Dict.keys map fst for_each]. rewrite normalize_key_eq.
    cbn [app Dict.pop]. rewrite str_eqb_refl.
    destruct (proj1 (is_lang_true k) (Hl k (or_introl eq_refl))) as [Hk Hlc].
    rewrite Hk. apply str_eqb_neq in Hlc. rewrite Hlc.
    simpl in Hnd. inversion Hnd as [|? ? Hnk Hnd']. subst.
    rewrite set_item_new by now apply get_None.
    cbn [bind]. rewrite <- app_assoc. rewrite IH.
    + now rewrite <- app_assoc.
    + unfold Dict.keys in *. rewrite app_assoc, map_app. simpl.
      apply (Permutation_NoDup (Permutation_cons_append _ _)).
      now constructor.
    + intros k' Hk'. apply Hl. now right.
Qed.

(** X19. [_normalize_lang] can be called again: a second call (there is
    one for every configured language) completes and leaves the dict of
    the first call as it is, order included. *)
Theorem X19_normalize_lang_again (v v1 : video)
    (d d1 : list (str * list format)) :
  meta_subtitles v = Some d -> List.NoDup (Dict.keys d) ->
  _normalize_lang v = Ok (v1, Some d1) ->
  _normalize_lang v1 = Ok (v1, match d1 with [] => None | _ => Some d1 end) /\
  meta_subtitles v1 = Some d1.
Proof.
  intros Hd Hnd Hn.
  assert (Hne : d <> []).
  { intros ->. unfold _normalize_lang in Hn. rewrite Hd in Hn. discriminate. }
  destruct (normalize_lang_dict v d Hd Hne Hnd) as (d0 & Hn0 & Hnd0 & Hget).
  rewrite Hn0 in Hn. injection Hn as <- <-.
  split; [|reflexivity].
  unfold _normalize_lang. cbn [meta_subtitles set_meta_subtitles].
  destruct d0 as [|x d2] eqn:E; [reflexivity|]. rewrite <- E in *.
  rewrite <- (app_nil_r d0) at 2. rewrite normalize_rotate.
  - cbn [bind app]. destruct v. reflexivity.
  - now rewrite app_nil_r.
  - intros k Hk. destruct (Dict.get k d0) as [y|] eqn:Ek.
    + rewrite Hget in Ek. now apply normalized_is_lang in Ek.
    + apply get_None in Ek. contradiction.
Qed.

Lemma X19_normalize_lang_again_witness :
  exists v1 d1, _normalize_lang video_A = Ok (v1, Some d1) /\
    _normalize_lang v1 = Ok (v1, Some d1).
Proof.
  exists (set_meta_subtitles video_A [(txt "en", formats_A)]).
  exists [(txt "en", formats_A)]. split; [vm_compute; reflexivity|].
  apply (X19_normalize_lang_again video_A _
           [(txt "en-US", formats_A); (txt "live_chat", [])]
           [(txt "en", formats_A)]).
  - reflexivity.
  - vm_compute. repeat constructor; simpl; intuition discriminate.
  - vm_compute. reflexivity.
Defined.

(** ** The format that is chosen *)

Lemma vtt_formats_spec (fs : list format) (i : nat) (l : list (nat * format)) :
  vtt_formats fs i = Ok l ->
  match l with
  | [] => Forall (fun g => ~ is_vtt g) fs
  | (p, f) :: _ =>
      exists pre post, fs = pre ++ f :: post /\ p = i + length pre /\
        Forall (fun g => ~ is_vtt g) pre /\ is_vtt f
  end.
Proof.
  revert i l. induction fs as [|g fs IH]; intros i l H; cbn [vtt_formats] in H.
  - injection H as <-. constructor.
  - destruct (f_ext g) as [e|] eqn:Ee; [|discriminate].
    destruct (vtt_formats fs (S i)) as [l'|] eqn:El; [|discriminate].
    cbn [bind] in H. injection H as <-. specialize (IH _ _ El).
    destruct (Py.str_eqb e _) eqn:Ev;
      [apply str_eqb_eq in Ev | apply str_eqb_neq in Ev].
    + exists [], fs. subst e. repeat split; [simpl; lia | constructor | exact Ee].
    + assert (Hg : ~ is_vtt g).
      { intros Hv. unfold is_vtt in Hv. rewrite Ee in Hv.
        injection Hv as Hv. apply Ev. exact Hv. }
      destruct l' as [|[p f] l'].
      * now constructor.
      * destruct IH as (pre & post & -> & -> & Hpre & Hf).
        exists (g :: pre), post. repeat split; [simpl; lia | now constructor | exact Hf].
Qed.

Lemma take_vtt_spec (fs : list format) (lang source mu : str)
    (s : format) (fs' : list format) :
  take_vtt fs lang source mu = Ok (s, fs') ->
  exists pre f post, fs = pre ++ f :: post /\
    Forall (fun g => ~ is_vtt g) pre /\ is_vtt f /\
    s = update_format f lang source mu /\ fs' = pre ++ s :: post.
Proof.
  unfold take_vtt. intros H.
  destruct (vtt_formats fs 0) as [l|] eqn:El; [|discriminate].
  apply vtt_formats_spec in El. simpl in H.
  destruct l as [|[p f] l]; [discriminate|].
  destruct El as (pre & post & -> & -> & Hpre & Hf).
  injection H as <- <-. exists pre, f, post. repeat split; try assumption.
  change (0 + length pre) with (length pre).
  rewrite <- (Nat.add_0_r (length pre)). now rewrite insert_app_r.
Qed.

Lemma take_vtt_none (fs : list format) (lang source mu : str) :
  Forall (fun g => exists e, f_ext g = Some e /\ e <> txt "vtt") fs ->
  take_vtt fs lang source mu = Raise IndexError.
Proof.
  intros H. unfold take_vtt.
  assert (E : forall i, vtt_formats fs i = Ok []).
  { induction H as [|g fs (e & He & Hne) _ IH]; intros i;
      cbn [vtt_formats]; [reflexivity|].
    rewrite He, IH. cbn [bind]. apply str_eqb_neq in Hne.
    change (Py.str_eqb e (txt "vtt") = false) in Hne. now rewrite Hne. }
  now rewrite E.
Qed.
(** ** [get_user_subtitles] and [get_auto_caption] *)

Lemma before_changes (c0 : ascii) (s : str) : In c0 s -> before c0 s <> s.
Proof. intros H E. apply (before_no c0 s). now rewrite E. Qed.

(** X20. A configured language that names a country (["en-US"]) or is
    ["live_chat"] never finds a subtitle of the channel owner: the keys
    are normalised before the language is looked up, so no key of that
    form is left. *)
Theorem X20_country_language_finds_nothing (v : video) (lang mu : str) :
  (forall d, meta_subtitles v = Some d -> List.NoDup (Dict.keys d)) ->
  media_url (json v) = Some mu ->
  In "-"%char lang \/ lang = txt "live_chat" ->
  exists v', get_user_subtitles v lang = Ok (v', None).
Proof.
  intros Hnd Hmu Hlang. unfold get_user_subtitles.
  destruct (meta_subtitles v) as [[|x d]|] eqn:Hd.
  - unfold _normalize_lang. rewrite Hd. now exists v.
  - destruct (normalize_lang_dict v (x :: d) Hd) as (d' & Hn & _ & Hget);
      [discriminate | now apply Hnd|].
    rewrite Hn. cbn [bind fst snd].
    destruct d' as [|y d']; [now eexists|]. rewrite <- Hd in *.
    change (media_url (json (set_meta_subtitles v (y :: d'))))
      with (media_url (json v)).
    rewrite Hmu, Hget. unfold normalized_value.
    assert (Hl : is_lang lang = false).
    { destruct (is_lang lang) eqn:E; [|reflexivity].
      apply is_lang_true in E as [E1 E2]. destruct Hlang as [H|H].
      - now apply before_changes in H.
      - contradiction. }
    rewrite Hl. now eexists.
  - unfold _normalize_lang. rewrite Hd. now exists v.
Qed.

Lemma X20_country_language_finds_nothing_witness :
  exists v', get_user_subtitles video_A (txt "en-US") = Ok (v', None).
Proof.
  apply (X20_country_language_finds_nothing video_A (txt "en-US")
           (txt "UC123/20210501_dQw4w9WgXcQ_A title.mp4")).
  - intros d [= <-]. vm_compute. repeat constructor; simpl; intuition discriminate.
  - reflexivity.
  - left. simpl. tauto.
Defined.

(** X21. Where a subtitle of the channel owner comes from: it is the
    first vtt format the video has under a key of the language asked
    for, with the language, the source ["user"] and the path of the
    subtitle file set on it. *)
Theorem X21_user_subtitle_origin (v v' : video) (lang : str)
    (d : list (str * list format)) (sub : format) :
  meta_subtitles v = Some d -> List.NoDup (Dict.keys d) ->
  get_user_subtitles v lang = Ok (v', Some sub) ->
  exists key pre f post mu,
    In (key, pre ++ f :: post) d /\ lang_of key = lang /\
    Forall (fun g => ~ is_vtt g) pre /\ is_vtt f /\
    media_url (json v) = Some mu /\
    sub = update_format f lang (txt "user") (subtitle_media_url mu lang).
Proof.
  intros Hd Hnd H. unfold get_user_subtitles in H.
  destruct d as [|x d].
  { unfold _normalize_lang in H. rewrite Hd in H. discriminate. }
  destruct (normalize_lang_dict v (x :: d) Hd) as (d' & Hn & _ & Hget);
    [discriminate | assumption|].
  rewrite Hn in H. cbn [bind fst snd] in H.
  destruct d' as [|y d']; [discriminate|].
  change (media_url (json (set_meta_subtitles v (y :: d'))))
    with (media_url (json v)) in H.
  destruct (media_url (json v)) as [mu|] eqn:Hmu; [|discriminate].
  destruct (Dict.get lang (y :: d')) as [[|g fs]|] eqn:Hl; try discriminate.
  destruct (take_vtt (g :: fs) lang (txt "user") (subtitle_media_url mu lang))
    as [[s fs']|] eqn:Ht; [|discriminate].
  cbn [bind fst snd] in H. injection H as _ <-.
  apply take_vtt_spec in Ht as (pre & f & post & Hfs & Hpre & Hf & -> & _).
  rewrite Hget in Hl. apply normalized_from in Hl as (key & Hin & Hk).
  exists key, pre, f, post, mu. rewrite <- Hfs. repeat split; assumption.
Qed.

Lemma X21_user_subtitle_origin_witness :
  exists v' sub, get_user_subtitles video_A (txt "en") = Ok (v', Some sub) /\
    exists key pre f post mu,
      In (key, pre ++ f :: post)
         [(txt "en-US", formats_A); (txt "live_chat", [])] /\
      lang_of key = txt "en" /\
      Forall (fun g => ~ is_vtt g) pre /\ is_vtt f /\
      media_url (json video_A) = Some mu /\
      sub = update_format f (txt "en") (txt "user")
              (subtitle_media_url mu (txt "en")).
Proof.
  eexists. eexists. split; [vm_compute; reflexivity|].
  eapply (X21_user_subtitle_origin video_A _ (txt "en")).
  - reflexivity.
  - vm_compute. repeat constructor; simpl; intuition discriminate.
  - vm_compute. reflexivity.
Defined.

(** X22. A language whose formats hold no vtt is no "nothing found":
    when the normalised dict has formats for the language and none has
    the extension ["vtt"], [get_user_subtitles] raises [IndexError]. *)
Theorem X22_no_vtt_raises (v v1 : video) (d1 : list (str * list format))
    (lang mu : str) (fs : list format) :
  _normalize_lang v = Ok (v1, Some d1) ->
  media_url (json v1) = Some mu ->
  Dict.get lang d1 = Some fs -> fs <> [] ->
  Forall (fun g => exists e, f_ext g = Some e /\ e <> txt "vtt") fs ->
  get_user_subtitles v lang = Raise IndexError.
Proof.
  intros Hn Hmu Hl Hne Hfs. unfold get_user_subtitles.
  rewrite Hn. cbn [bind fst snd].
  destruct d1 as [|y d1]; [discriminate|].
  rewrite Hmu, Hl. destruct fs as [|g fs]; [congruence|].
  now rewrite take_vtt_none.
Qed.

Lemma X22_no_vtt_raises_witness :
  get_user_subtitles
    (set_meta_subtitles video_A
       [(txt "en", [mk_format (Some (txt "json3")) None None None None])])
    (txt "en") = Raise IndexError.
Proof.
  eapply (X22_no_vtt_raises _ _ _ (txt "en")).
  - vm_compute. reflexivity.
  - reflexivity.
  - reflexivity.
  - discriminate.
  - repeat constructor. eexists. split; [reflexivity | discriminate].
Defined.

(** ** [get_subtitles] *)

Lemma same_conf_refl (v : video) : same_conf v v.
Proof. now repeat split. Qed.

Lemma same_conf_trans (v v1 v2 : video) :
  same_conf v v1 -> same_conf v1 v2 -> same_conf v v2.
Proof.
  intros (H1 & H2 & H3) (H4 & H5 & H6). repeat split; congruence.
Qed.

Lemma normalize_lang_frame (v v' : video) (r : option (list (str * list format))) :
  _normalize_lang v = Ok (v', r) -> same_conf v v'.
Proof.
  unfold _normalize_lang. intros H.
  destruct (meta_subtitles v) as [[|x d]|].
  - injection H as <- _. apply same_conf_refl.
  - destruct (for_each normalize_key _ _) as [d'|]; [|discriminate].
    cbn [bind] in H. injection H as <- _. now repeat split.
  - injection H as <- _. apply same_conf_refl.
Qed.

Lemma take_vtt_out (fs : list format) (lang source mu : str)
    (s : format) (fs' : list format) :
  take_vtt fs lang source mu = Ok (s, fs') ->
  is_vtt s /\ f_lang s = Some lang /\ f_source s = Some source /\
  f_media_url s = Some mu.
Proof.
  intros H. apply take_vtt_spec in H as (pre & f & post & _ & _ & Hf & -> & _).
  now repeat split.
Qed.

Lemma get_user_subtitles_out (v v' : video) (lang : str) (r : option format) :
  get_user_subtitles v lang = Ok (v', r) ->
  same_conf v v' /\
  forall sub, r = Some sub ->
    is_vtt sub /\ f_lang sub = Some lang /\ f_source sub = Some (txt "user") /\
    exists mu, media_url (json v) = Some mu /\
      f_media_url sub = Some (subtitle_media_url mu lang).
Proof.
  unfold get_user_subtitles. intros H.
  destruct (_normalize_lang v) as [[v1 r1]|] eqn:Hn; [|discriminate].
  apply normalize_lang_frame in Hn. cbn [bind fst snd] in H.
  destruct r1 as [[|y d1]|];
    try (injection H as <- <-; split; [assumption | discriminate]).
  destruct (media_url (json v1)) as [mu|] eqn:Hmu; [|discriminate].
  destruct (Dict.get lang (y :: d1)) as [[|g fs]|];
    try (injection H as <- <-; split; [assumption | discriminate]).
  destruct (take_vtt _ _ _ _) as [[s fs']|] eqn:Ht; [|discriminate].
  cbn [bind fst snd] in H. injection H as <- <-.
  split.
  - eapply same_conf_trans; [exact Hn|]. now repeat split.
  - intros sub [= <-]. apply take_vtt_out in Ht as (H1 & H2 & H3 & H4).
    repeat split; try assumption. exists mu. split; [|assumption].
    destruct Hn as (Hj & _). now rewrite <- Hj.
Qed.

Lemma get_auto_caption_out (v v' : video) (lang : str) (r : option format) :
  get_auto_caption v lang = Ok (v', r) ->
  same_conf v v' /\
  forall sub, r = Some sub ->
    is_vtt sub /\ f_lang sub = Some lang /\ f_source sub = Some (txt "auto") /\
    exists mu, media_url (json v) = Some mu /\
      f_media_url sub = Some (subtitle_media_url mu lang).
Proof.
  unfold get_auto_caption. intros H.
  destruct (meta_automatic_captions v) as [[|y d1]|];
    try (injection H as <- <-; split; [apply same_conf_refl | discriminate]).
  destruct (media_url (json v)) as [mu|] eqn:Hmu; [|discriminate].
  destruct (Dict.get lang (y :: d1)) as [[|g fs]|];
    try (injection H as <- <-; split; [apply same_conf_refl | discriminate]).
  destruct (take_vtt _ _ _ _) as [[s fs']|] eqn:Ht; [|discriminate].
  cbn [bind fst snd] in H. injection H as <- <-.
  split; [now repeat split|].
  intros sub [= <-]. apply take_vtt_out in Ht as (H1 & H2 & H3 & H4).
  repeat split; try assumption. now exists mu.
Qed.

Lemma source_is_auto_conf (v v' : video) :
  same_conf v v' -> source_is_auto v' = source_is_auto v.
Proof. intros (_ & _ & H). unfold source_is_auto. now rewrite H. Qed.

(** One turn of the loop adds nothing or one format, of the language
    of the turn. *)
Lemma lang_step_out (v0 : video) (acc r : video * list format) (lang : str) :
  same_conf v0 acc.1 -> lang_step acc lang = Ok r ->
  same_conf v0 r.1 /\
  (r.2 = acc.2 \/
   exists s, r.2 = acc.2 ++ [s] /\ f_lang s = Some lang /\ relevant v0 s).
Proof.
  intros Hc H. unfold lang_step in H.
  destruct (get_user_subtitles acc.1 lang) as [[v1 r1]|] eqn:Hu; [|discriminate].
  apply get_user_subtitles_out in Hu as [Hc1 Hu]. cbn [bind fst snd] in H.
  pose proof (same_conf_trans _ _ _ Hc Hc1) as Hc01.
  destruct r1 as [user_sub|].
  - injection H as <-. split; [assumption|]. right. exists user_sub.
    destruct (Hu _ eq_refl) as (H1 & H2 & H3 & mu & H4 & H5).
    split; [reflexivity|]. split; [assumption|].
    split; [assumption|]. split; [now left|]. exists lang, mu.
    destruct Hc as (Hj & _). rewrite <- Hj. now repeat split.
  - destruct (source_is_auto v1) eqn:Ha.
    + destruct (get_auto_caption v1 lang) as [[v2 r2]|] eqn:Hg; [|discriminate].
      apply get_auto_caption_out in Hg as [Hc2 Hg]. cbn [bind fst snd] in H.
      pose proof (same_conf_trans _ _ _ Hc01 Hc2) as Hc02.
      destruct r2 as [auto_cap|]; injection H as <-;
        (split; [assumption|]); [|now left].
      right. exists auto_cap.
      destruct (Hg _ eq_refl) as (H1 & H2 & H3 & mu & H4 & H5).
      split; [reflexivity|]. split; [assumption|].
      split; [assumption|]. split.
      * right. split; [assumption|]. now rewrite <- (source_is_auto_conf _ _ Hc01).
      * exists lang, mu. destruct Hc01 as (Hj & _). rewrite <- Hj. now repeat split.
    + injection H as <-. split; [assumption | now left].
Qed.

Lemma lang_loop_out (v0 : video) (ls : list str) :
  forall acc r,
  same_conf v0 acc.1 -> for_each lang_step ls acc = Ok r ->
  exists new, r.2 = acc.2 ++ new /\
    sublist (map f_lang new) (map Some ls) /\
    Forall (relevant v0) new /\ same_conf v0 r.1.
Proof.
  induction ls as [|lang ls IH]; intros acc r Hc H.
  - injection H as <-. exists []. rewrite app_nil_r.
    repeat split; [constructor | constructor | apply Hc..].
  - cbn [for_each] in H.
    destruct (lang_step acc lang) as [acc1|] eqn:Hs; [|discriminate].
    cbn [bind] in H.
    destruct (lang_step_out v0 _ _ _ Hc Hs) as [Hc1 Hacc].
    destruct (IH _ _ Hc1 H) as (new & Hr & Hsub & Hrel & Hc').
    destruct Hacc as [E | (s & E & Hl & Hs')].
    + exists new. rewrite Hr, E. repeat split; try assumption; try apply Hc'.
      simpl. now apply sublist_cons.
    + exists (s :: new). rewrite Hr, E, <- app_assoc.
      repeat split; try apply Hc'.
      * simpl. rewrite Hl. now apply sublist_skip.
      * now constructor.
Qed.

(** X23. What [get_subtitles] returns when it returns a list: the
    formats are vtt formats, each marked with a configured language,
    with the path of its subtitle file, and with the source ["user"],
    or ["auto"] when the configured source is ["auto"]; they come in
    the order of the configured languages, at most one for each. *)
Theorem X23_get_subtitles_shape (v v' : video) (languages : option (list str))
    (subs : list format) :
  get_subtitles v languages = Ok (v', Some subs) ->
  exists ls, sub_conf_parse v languages = Some ls /\
    sublist (map f_lang subs) (map Some ls) /\
    Forall (relevant v) subs /\
    length subs <= length ls.
Proof.
  unfold get_subtitles. intros H.
  destruct (sub_conf_parse v languages) as [[|l ls]|]; try discriminate.
  destruct (for_each lang_step (l :: ls) (v, [])) as [r|] eqn:Hl; [|discriminate].
  cbn [bind] in H. injection H as _ <-.
  apply (lang_loop_out v) in Hl as (new & Hr & Hsub & Hrel & _);
    [|apply same_conf_refl].
  simpl in Hr. subst new. exists (l :: ls). repeat split; try assumption.
  apply sublist_length in Hsub. now rewrite !length_map in Hsub.
Qed.

Lemma X23_get_subtitles_shape_witness :
  exists v' subs, get_subtitles video_A None = Ok (v', Some subs) /\
    exists ls, sub_conf_parse video_A None = Some ls /\
      sublist (map f_lang subs) (map Some ls) /\
      Forall (relevant video_A) subs /\
      length subs <= length ls.
Proof.
  eexists. eexists. split; [vm_compute; reflexivity|].
  eapply (X23_get_subtitles_shape video_A _ None).
  vm_compute. reflexivity.
Defined.
(** ** [sub_conf_parse] *)

Lemma cons_head_length (c : ascii) (l : list str) :
  l <> [] -> length (Py.cons_head c l) = length l.
Proof. destruct l; [congruence | reflexivity]. Qed.

Lemma split_char_length (c : ascii) (s : str) :
  length (Py.split [c] s) = S (length (List.filter (Ascii.eqb c) s)).
Proof.
  induction s as [|x s IH]; [reflexivity|].
  cbn [List.filter]. destruct (Ascii.eqb c x) eqn:E.
  - apply Ascii.eqb_eq in E as <-.
    rewrite (split_sep c [] s : Py.split [c] (c :: s) = _).
    simpl. now rewrite IH.
  - rewrite split_other by (simpl; now rewrite E).
    rewrite cons_head_length by apply split_go_nonempty. exact IH.
Qed.

Lemma split_char_free (c : ascii) (s : str) :
  Forall (fun p => ~ In c p) (Py.split [c] s).
Proof.
  induction s as [|x s IH]; [repeat constructor; simpl; tauto|].
  destruct (Ascii.eqb c x) eqn:E.
  - apply Ascii.eqb_eq in E as <-.
    rewrite (split_sep c [] s : Py.split [c] (c :: s) = _).
    constructor; [simpl; tauto | assumption].
  - rewrite split_other by (simpl; now rewrite E).
    apply Ascii.eqb_neq in E.
    destruct (Py.split [c] s) as [|p ps];
      [repeat constructor; simpl; intuition congruence|].
    inversion IH as [|? ? Hp Hps]; subst. simpl.
    constructor; [|assumption]. simpl. intuition congruence.
Qed.

Lemma lstrip_suffix (s : str) : exists pre, s = pre ++ Py.lstrip s.
Proof.
  induction s as [|c s [pre IH]]; [now exists []|]. simpl.
  destruct (Py.isspace c).
  - exists (c :: pre). simpl. now rewrite <- IH.
  - now exists [].
Qed.

Lemma lstrip_head (s : str) (c : ascii) (r : str) :
  Py.lstrip s = c :: r -> Py.isspace c = false.
Proof.
  induction s as [|x s IH]; simpl; [discriminate|].
  destruct (Py.isspace x) eqn:E; [assumption|]. now intros [= <- _].
Qed.

Lemma lstrip_idem (s : str) : Py.lstrip (Py.lstrip s) = Py.lstrip s.
Proof.
  destruct (Py.lstrip s) as [|c r] eqn:E; [reflexivity|].
  apply lstrip_head in E. simpl. now rewrite E.
Qed.

Lemma strip_In (x : ascii) (s : str) : In x (Py.strip s) -> In x s.
Proof.
  unfold Py.strip. intros H. apply in_rev in H.
  destruct (lstrip_suffix (rev (Py.lstrip s))) as [pre E].
  assert (H1 : In x (rev (Py.lstrip s))).
  { rewrite E. apply in_or_app. now right. }
  apply in_rev in H1. destruct (lstrip_suffix s) as [pre' E'].
  rewrite E'. apply in_or_app. now right.
Qed.

Lemma strip_idem (s : str) : Py.strip (Py.strip s) = Py.strip s.
Proof.
  unfold Py.strip.
  set (a := Py.lstrip s). set (b := Py.lstrip (rev a)).
  assert (Hb : Py.lstrip (rev b) = rev b).
  { destruct (lstrip_suffix (rev a)) as [pre E]. fold b in E.
    apply (f_equal (@rev ascii)) in E. rewrite rev_involutive, rev_app_distr in E.
    destruct (rev b) as [|c r] eqn:Er; [reflexivity|].
    assert (Hc : Py.isspace c = false).
    { apply (lstrip_head s c (r ++ rev pre)). fold a. now rewrite E. }
    simpl. now rewrite Hc. }
  rewrite Hb, rev_involutive. unfold b. now rewrite lstrip_idem.
Qed.

(** X24. A configured language string that is not empty always gives
    languages: one more than it has commas, empty entries included;
    none of them holds a comma, and none has white space at either
    end. *)
Theorem X24_sub_conf_parse_languages (v : video) (raw : str)
    (languages : option (list str)) :
  conf_subtitle v = Some raw -> raw <> [] ->
  exists ls, sub_conf_parse v languages = Some ls /\
    length ls = S (length (List.filter (Ascii.eqb ","%char) raw)) /\
    Forall (fun l => ~ In ","%char l /\ Py.strip l = l) ls.
Proof.
  intros Hraw Hne. unfold sub_conf_parse. rewrite Hraw.
  destruct raw as [|c raw]; [congruence|]. cbn [Py.truthy].
  eexists. split; [reflexivity|]. split.
  - rewrite length_map. apply (split_char_length ","%char).
  - apply Forall_map. eapply List.Forall_impl; [|apply (split_char_free ","%char)].
    intros p Hp. split; [|apply strip_idem].
    intros H. apply Hp. now apply strip_In.
Qed.

Lemma X24_sub_conf_parse_languages_witness :
  exists ls, sub_conf_parse video_A None = Some ls /\
    length ls = 2 /\
    Forall (fun l => ~ In ","%char l /\ Py.strip l = l) ls.
Proof.
  apply (X24_sub_conf_parse_languages video_A (txt "en, de") None);
    [reflexivity | discriminate].
Defined.

(** ** The path of the subtitle file *)

Lemma mp4_no_border (x : str) :
  x <> [] ->
  Py.startswith (txt ".mp4") (x ++ txt ".mp4") = Py.startswith (txt ".mp4") x.
Proof.
  change (txt ".mp4") with ["."%char; "m"%char; "p"%char; "4"%char].
  destruct x as [|c1 [|c2 [|c3 [|c4 x]]]]; intros H; [congruence|..];
    cbn [app Py.startswith];
    repeat match goal with
           | |- context [Ascii.eqb ?a ?c] => is_var c; destruct (Ascii.eqb a c)
           end; reflexivity.
Qed.

Lemma replace_go_mp4_end (new : str) (x : str) :
  forall k, k <= length x ->
  Py.replace_go (txt ".mp4") new k (x ++ txt ".mp4") =
  Py.replace_go (txt ".mp4") new k x ++ new.
Proof.
  induction x as [|c x IH]; intros k Hk.
  - assert (k = 0) by (simpl in Hk; lia). subst k.
    vm_compute Py.replace_go at 2. cbn. now rewrite app_nil_r.
  - destruct k as [|k].
    + rewrite <- app_comm_cons. cbn [Py.replace_go].
      rewrite (app_comm_cons x (txt ".mp4") c).
      rewrite mp4_no_border by discriminate.
      destruct (Py.startswith (txt ".mp4") (c :: x)) eqn:E.
      * rewrite IH; [now rewrite <- app_assoc|].
        apply startswith_true in E.
        apply (f_equal (@length ascii)) in E. rewrite length_app in E.
        simpl in E. simpl. lia.
      * rewrite IH by lia. reflexivity.
    + rewrite <- app_comm_cons. cbn [Py.replace_go].
      apply IH. simpl in Hk. lia.
Qed.

Lemma replace_absent (c0 : ascii) (old new s : str) :
  ~ In c0 s -> Py.replace (c0 :: old) new s = s.
Proof.
  induction s as [|c s IH]; intros H; [reflexivity|].
  rewrite replace_other.
  - rewrite IH; [reflexivity|]. intros H'. apply H. now right.
  - apply startswith_first. intros ->. apply H. now left.
Qed.

Lemma subtitle_media_url_end (base lang : str) :
  subtitle_media_url (base ++ txt ".mp4") lang =
  subtitle_media_url base lang ++ txt "-" ++ lang ++ txt ".vtt".
Proof.
  unfold subtitle_media_url, Py.replace.
  now rewrite replace_go_mp4_end by lia.
Qed.

Lemma vtt_not_mp4 (x y lang : str) :
  x ++ txt "-" ++ lang ++ txt ".vtt" <> y ++ txt ".mp4".
Proof.
  intros H. apply (f_equal (@last ascii)) in H.
  change (txt ".mp4") with (txt ".mp" ++ ["4"%char]) in H.
  change (txt ".vtt") with (txt ".vt" ++ ["t"%char]) in H.
  rewrite !app_assoc, !last_snoc in H. discriminate.
Qed.

(** X25. The path of a subtitle file: for a video path that ends in
    [".mp4"] it ends in ["-<lang>.vtt"], so it is never the path of the
    video; and when the path has no other ["."], it is the path of the
    video with that ending for [".mp4"]. *)
Theorem X25_subtitle_media_url_ending (base lang : str) :
  subtitle_media_url (base ++ txt ".mp4") lang =
    subtitle_media_url base lang ++ txt "-" ++ lang ++ txt ".vtt" /\
  subtitle_media_url (base ++ txt ".mp4") lang <> base ++ txt ".mp4" /\
  (~ In "."%char base ->
   subtitle_media_url (base ++ txt ".mp4") lang =
     base ++ txt "-" ++ lang ++ txt ".vtt").
Proof.
  split; [apply subtitle_media_url_end|]. split.
  - rewrite subtitle_media_url_end. apply vtt_not_mp4.
  - intros Hdot. rewrite subtitle_media_url_end. unfold subtitle_media_url.
    now rewrite (replace_absent "."%char (txt "mp4")).
Qed.

(** * The files of a video *)

Lemma path_join_suffix (a b : str) : exists pre, path_join a b = pre ++ b.
Proof.
  unfold path_join. destruct (Py.startswith (txt "/") b); [now exists []|].
  destruct (last a) as [c|]; [|now exists a].
  destruct (Ascii.eqb c "/"%char); [now exists a|].
  exists (a ++ txt "/"). now rewrite <- app_assoc.
Qed.

(** What [add_file_path] stores: a directory and a file name joined,
    the directory being the cleaned channel name, or the channel id
    when that name has at most three characters. *)
Lemma add_file_path_out (clean_string : str -> str) (v v' : video) :
  add_file_path clean_string v = Ok v' ->
  exists ch name dir p yid t,
    channel (json v) = Channel ch /\ channel_name ch = Some name /\
    (if length (clean_string name) <=? 3 then channel_id ch = Some dir
     else dir = clean_string name) /\
    published (json v) = Some p /\ json_youtube_id (json v) = Some yid /\
    title (json v) = Some t /\
    v' = set_json v (set_media_url (json v)
           (path_join dir (Py.replace (txt "-") [] p ++ txt "_" ++ yid ++
                           txt "_" ++ clean_string t ++ txt ".mp4"))).
Proof.
  unfold add_file_path. intros H.
  destruct (channel (json v)) as [| |ch] eqn:Hch; try discriminate.
  destruct (channel_name ch) as [name|] eqn:Hname; [|discriminate].
  destruct (published (json v)) as [p|] eqn:Hp.
  2:{ destruct (length (clean_string name) <=? 3);
        [destruct (channel_id ch)|]; discriminate. }
  destruct (json_youtube_id (json v)) as [yid|] eqn:Hy.
  2:{ destruct (length (clean_string name) <=? 3);
        [destruct (channel_id ch)|]; discriminate. }
  destruct (title (json v)) as [t|] eqn:Ht.
  2:{ destruct (length (clean_string name) <=? 3);
        [destruct (channel_id ch)|]; discriminate. }
  destruct (length (clean_string name) <=? 3) eqn:El.
  - destruct (channel_id ch) as [i|] eqn:Hi; [|discriminate].
    cbn [bind] in H. injection H as <-.
    exists ch, name, i, p, yid, t. rewrite El. now repeat split.
  - cbn [bind] in H. injection H as <-.
    exists ch, name, (clean_string name), p, yid, t. rewrite El.
    now repeat split.
Qed.

(** X26. The path [add_file_path] stores always ends in [".mp4"],
    whatever the helper that cleans the names returns, and nothing else
    of the video is changed; the channel id stands for the channel name
    exactly when the cleaned name has at most three characters. *)
Theorem X26_add_file_path_mp4 (clean_string : str -> str) (v v' : video) :
  add_file_path clean_string v = Ok v' ->
  exists stem, v' = set_json v (set_media_url (json v) (stem ++ txt ".mp4")) /\
    exists ch name dir rest,
      channel (json v) = Channel ch /\ channel_name ch = Some name /\
      stem ++ txt ".mp4" = path_join dir rest /\
      (length (clean_string name) <= 3 -> channel_id ch = Some dir) /\
      (3 < length (clean_string name) -> dir = clean_string name).
Proof.
  intros H.
  apply add_file_path_out in H
    as (ch & name & dir & p & yid & t & Hch & Hname & Hdir & _ & _ & _ & ->).
  match goal with |- context [path_join dir ?f] =>
    destruct (path_join_suffix dir f) as [pre E] end.
  exists (pre ++ Py.replace (txt "-") [] p ++ txt "_" ++ yid ++ txt "_" ++
          clean_string t).
  split.
  - rewrite E. now rewrite <- !app_assoc.
  - exists ch, name, dir. eexists. split; [assumption|]. split; [assumption|].
    split; [rewrite E; now rewrite <- !app_assoc|].
    destruct (length (clean_string name) <=? 3) eqn:El.
    + apply Nat.leb_le in El. split; [now intros _ | lia].
    + apply Nat.leb_gt in El. split; [lia | now intros _].
Qed.

Lemma X26_add_file_path_mp4_witness :
  exists stem,
    add_file_path (fun s => s) video_A =
    Ok (set_json video_A (set_media_url (json video_A) (stem ++ txt ".mp4"))).
Proof.
  destruct (X26_add_file_path_mp4 (fun s => s) video_A
              (set_json video_A (set_media_url (json video_A)
                 (txt "A channel/20210501_dQw4w9WgXcQ_A title.mp4"))))
    as (stem & H & _).
  - vm_compute. reflexivity.
  - exists stem. rewrite <- H. vm_compute. reflexivity.
Defined.

Lemma get_subtitles_relevant (v v' : video) (languages : option (list str))
    (subs : list format) :
  get_subtitles v languages = Ok (v', Some subs) ->
  Forall (relevant v) subs /\ same_conf v v'.
Proof.
  unfold get_subtitles. intros H.
  destruct (sub_conf_parse v languages) as [[|l ls]|]; try discriminate.
  destruct (for_each lang_step (l :: ls) (v, [])) as [r|] eqn:Hl; [|discriminate].
  cbn [bind] in H. injection H as <- <-.
  apply (lang_loop_out v) in Hl as (new & Hr & _ & Hrel & Hc);
    [|apply same_conf_refl].
  simpl in Hr. subst new. now split.
Qed.

Lemma relevant_path (v : video) (s : format) (stem0 : str) :
  relevant v s -> media_url (json v) = Some (stem0 ++ txt ".mp4") ->
  exists lang stem, f_lang s = Some lang /\
    f_media_url s = Some (stem ++ txt "-" ++ lang ++ txt ".vtt").
Proof.
  intros (_ & _ & lang & mu & Hl & Hmu & Hs) Hv.
  rewrite Hv in Hmu. injection Hmu as <-.
  rewrite subtitle_media_url_end in Hs. eauto.
Qed.

(** X27. After [add_file_path], every subtitle [get_subtitles] returns
    has a path that ends in ["-<lang>.vtt"] for its language: none has
    the path of the video file. *)
Theorem X27_subtitle_paths (clean_string : str -> str) (v v1 v2 : video)
    (languages : option (list str)) (subs : list format) :
  add_file_path clean_string v = Ok v1 ->
  get_subtitles v1 languages = Ok (v2, Some subs) ->
  Forall (fun s => exists lang stem, f_lang s = Some lang /\
            f_media_url s = Some (stem ++ txt "-" ++ lang ++ txt ".vtt") /\
            f_media_url s <> media_url (json v1)) subs.
Proof.
  intros Ha Hg.
  apply add_file_path_out in Ha
    as (ch & name & dir & p & yid & t & _ & _ & _ & _ & _ & _ & ->).
  match type of Hg with context [path_join dir ?f] =>
    destruct (path_join_suffix dir f) as [pre E]; rewrite E in * end.
  rewrite !app_assoc in *.
  apply get_subtitles_relevant in Hg as [Hrel _].
  eapply List.Forall_impl; [|exact Hrel].
  intros s Hs.
  eapply relevant_path in Hs as (lang & stem & Hl & Hm); [|reflexivity].
  exists lang, stem. split; [assumption|]. split; [assumption|].
  rewrite Hm. cbn [json set_json media_url set_media_url].
  intros [= H]. now apply vtt_not_mp4 in H.
Qed.

Lemma X27_subtitle_paths_witness :
  exists v1 v2 subs,
    add_file_path (fun s => s) video_A = Ok v1 /\
    get_subtitles v1 None = Ok (v2, Some subs) /\
    Forall (fun s => exists lang stem, f_lang s = Some lang /\
              f_media_url s = Some (stem ++ txt "-" ++ lang ++ txt ".vtt") /\
              f_media_url s <> media_url (json v1)) subs.
Proof.
  eexists. eexists. eexists.
  split; [vm_compute; reflexivity|]. split; [vm_compute; reflexivity|].
  eapply (X27_subtitle_paths (fun s => s) video_A _ _ None);
    vm_compute; reflexivity.
Defined.
(** ** [download_subtitles] *)

(** One turn of the loop does nothing to the world, or writes the
    processed text of the response, and then posts at most once. *)
Lemma download_one_out (W : world) (v : video) (s : format)
    (effs : list effect) (r : option raised) :
  download_one W v s = (effs, r) ->
  effs = [] \/
  exists mu source u body st,
    f_media_url s = Some mu /\ f_source s = Some source /\
    f_url s = Some u /\ fetch W u = Some body /\ process body = Ok st /\
    (effs = [WriteFile (path_join (conf_videos v) mu) (get_subtitle_str st)] \/
     exists q, conf_subtitle_index v = true /\
       create_bulk_import (dumps W) (clock W) (f_lang s) st v source = Query q /\
       effs = [WriteFile (path_join (conf_videos v) mu) (get_subtitle_str st);
               PostBulk q]).
Proof.
  unfold download_one. intros H.
  destruct (f_media_url s) as [mu|]; [|injection H as <- _; now left].
  destruct (f_source s) as [source|]; [|injection H as <- _; now left].
  destruct (f_url s) as [u|]; [|injection H as <- _; now left].
  destruct (fetch W u) as [body|] eqn:Hf; [|injection H as <- _; now left].
  destruct (process body) as [st|e] eqn:Hp; [|injection H as <- _; now left].
  right. exists mu, source, u, body, st. repeat split; try assumption.
  destruct (conf_subtitle_index v) eqn:Hi.
  - destruct (create_bulk_import _ _ _ _ _ _) as [q|] eqn:Hq;
      injection H as <- _; [right; now exists q | now left].
  - injection H as <- _. now left.
Qed.

Lemma written_app (a b : list effect) : written (a ++ b) = written a ++ written b.
Proof. unfold written. apply flat_map_app. Qed.

Lemma download_step (W : world) (v : video) (s : format) (rest : list format)
    (effs : list effect) (r : option raised) :
  download_subtitles W v (s :: rest) = (effs, r) ->
  exists e1 e2 r1 r2, download_one W v s = (e1, r1) /\ effs = e1 ++ e2 /\
    (e2 = [] \/ download_subtitles W v rest = (e2, r2)).
Proof.
  cbn [download_subtitles]. intros H.
  destruct (download_one W v s) as [e1 [x|]] eqn:E.
  - injection H as <- _. exists e1, [], (Some x), None.
    rewrite app_nil_r. repeat split. now left.
  - destruct (download_subtitles W v rest) as [e2 r2] eqn:E2.
    cbn [fst snd] in H. injection H as <- _.
    exists e1, e2, None, r2. repeat split. now right.
Qed.

(** The paths written are those of the subtitles given. *)
Lemma download_written (W : world) (v : video) (subs : list format) :
  forall effs r, download_subtitles W v subs = (effs, r) ->
  forall p, In p (written effs) ->
  exists s mu, In s subs /\ f_media_url s = Some mu /\
    p = path_join (conf_videos v) mu.
Proof.
  induction subs as [|s rest IH]; intros effs r H p Hp.
  - injection H as <- _. contradiction.
  - apply download_step in H as (e1 & e2 & r1 & r2 & H1 & -> & H2).
    rewrite written_app in Hp. apply in_app_or in Hp as [Hp|Hp].
    + apply download_one_out in H1
        as [-> | (mu & source & u & body & st & Hmu & _ & _ & _ & _ & He)];
        [contradiction|].
      exists s, mu. split; [now left|]. split; [assumption|].
      destruct He as [-> | (q & _ & _ & ->)]; simpl in Hp; intuition.
    + destruct H2 as [-> | H2]; [contradiction|].
      destruct (IH _ _ H2 p Hp) as (s' & mu & Hin & Hmu & ->).
      exists s', mu. split; [now right | now split].
Qed.

(** X28. What [download_subtitles] does to the world, whether it
    completes or stops on an exception: it writes at most one file for
    each subtitle; every file written holds the processed text of the
    response for the url of a subtitle of the list, at the path of that
    subtitle under the videos directory; and it posts a bulk request
    only when indexing is configured, the request being that of
    [create_bulk_import] for a subtitle of the list. *)
Theorem X28_download_effects (W : world) (v : video) (subs : list format)
    (effs : list effect) (r : option raised) :
  download_subtitles W v subs = (effs, r) ->
  length (written effs) <= length subs /\
  (forall dest text, In (WriteFile dest text) effs ->
     exists s mu u body st, In s subs /\ f_media_url s = Some mu /\
       dest = path_join (conf_videos v) mu /\ f_url s = Some u /\
       fetch W u = Some body /\ process body = Ok st /\
       text = get_subtitle_str st) /\
  (forall q, In (PostBulk q) effs ->
     conf_subtitle_index v = true /\
     exists s source st, In s subs /\ f_source s = Some source /\
       create_bulk_import (dumps W) (clock W) (f_lang s) st v source = Query q).
Proof.
  revert effs r. induction subs as [|s rest IH]; intros effs r H.
  - injection H as <- _. split; [simpl; lia|]. split; intros; contradiction.
  - apply download_step in H as (e1 & e2 & r1 & r2 & H1 & -> & H2).
    assert (IH' : length (written e2) <= length rest /\
              (forall dest text, In (WriteFile dest text) e2 ->
                 exists s mu u body st, In s rest /\ f_media_url s = Some mu /\
                   dest = path_join (conf_videos v) mu /\ f_url s = Some u /\
                   fetch W u = Some body /\ process body = Ok st /\
                   text = get_subtitle_str st) /\
              (forall q, In (PostBulk q) e2 ->
                 conf_subtitle_index v = true /\
                 exists s source st, In s rest /\ f_source s = Some source /\
                   create_bulk_import (dumps W) (clock W) (f_lang s) st v source
                   = Query q)).
    { destruct H2 as [-> | H2]; [|now apply (IH _ r2)].
      split; [simpl; lia|]. split; intros; contradiction. }
    destruct IH' as (Hlen & Hw & Hq).
    apply download_one_out in H1
      as [-> | (mu & source & u & body & st & Hmu & Hsrc & Hu & Hf & Hp & He)].
    + split; [simpl; lia|]. split.
      * intros dest text Hin. destruct (Hw _ _ Hin) as (s' & H').
        exists s'. destruct H' as (mu & u & body & st & Hin' & H').
        exists mu, u, body, st. split; [now right | exact H'].
      * intros q Hin. destruct (Hq _ Hin) as (Hi & s' & source & st & Hin' & H').
        split; [assumption|]. exists s', source, st. split; [now right | exact H'].
    + split; [|split].
      * rewrite written_app, length_app.
        destruct He as [-> | (q & _ & _ & ->)]; simpl; lia.
      * intros dest text Hin. apply in_app_or in Hin as [Hin|Hin].
        -- exists s, mu, u, body, st.
           assert (E : WriteFile dest text =
                       WriteFile (path_join (conf_videos v) mu) (get_subtitle_str st)).
           { destruct He as [-> | (q & _ & _ & ->)]; simpl in Hin;
               intuition; discriminate. }
           injection E as -> ->. repeat split; try assumption. now left.
        -- destruct (Hw _ _ Hin) as (s' & mu' & u' & body' & st' & Hin' & H').
           exists s', mu', u', body', st'. split; [now right | exact H'].
      * intros q Hin. apply in_app_or in Hin as [Hin|Hin].
        -- destruct He as [-> | (q' & Hi & Hb & ->)]; simpl in Hin.
           ++ intuition discriminate.
           ++ destruct Hin as [Hin|[Hin|[]]]; [discriminate|].
              injection Hin as <-. split; [assumption|].
              exists s, source, st. repeat split; try assumption. now left.
        -- destruct (Hq _ Hin) as (Hi & s' & source' & st' & Hin' & H').
           split; [assumption|]. exists s', source', st'.
           split; [now right | exact H'].
Qed.

Lemma X28_download_effects_witness :
  exists effs r, download_subtitles world_A video_A [subtitle_de; subtitle_en] = (effs, r) /\
    length (written effs) <= 2.
Proof.
  eexists. eexists. split; [vm_compute; reflexivity|].
  eapply (X28_download_effects world_A video_A [subtitle_de; subtitle_en]).
  vm_compute. reflexivity.
Defined.

Lemma download_skips (W : world) (v : video) (pre rest : list format) :
  Forall (fails_to_load W) pre ->
  download_subtitles W v (pre ++ rest) = download_subtitles W v rest.
Proof.
  induction 1 as [|s pre (mu & source & u & Hmu & Hs & Hu & Hf) _ IH];
    [reflexivity|].
  cbn [app download_subtitles]. unfold download_one.
  rewrite Hmu, Hs, Hu, Hf, IH. now destruct (download_subtitles W v rest).
Qed.

(** X29. A response that is not [ok] only skips its subtitle, but a
    response whose text [process] cannot handle stops the method: after
    subtitles that failed to load, a subtitle whose text makes
    [process] raise ends the call with that exception, nothing is
    written, and the subtitles after it are not downloaded. *)
Theorem X29_download_stops (W : world) (v : video) (pre rest : list format)
    (s : format) (mu source u body : str) (e : exn) :
  Forall (fails_to_load W) pre ->
  f_media_url s = Some mu -> f_source s = Some source -> f_url s = Some u ->
  fetch W u = Some body -> process body = Raise e ->
  download_subtitles W v (pre ++ s :: rest) = ([], Some (Raised e)) /\
  download_subtitles W v (pre ++ rest) = download_subtitles W v rest.
Proof.
  intros Hpre Hmu Hs Hu Hf Hp. rewrite !download_skips by assumption.
  split; [|reflexivity].
  cbn [download_subtitles]. unfold download_one.
  now rewrite Hmu, Hs, Hu, Hf, Hp.
Qed.

Lemma X29_download_stops_witness :
  download_subtitles world_B video_A [subtitle_de; subtitle_en; subtitle_de] =
    ([], Some (Raised KeyError)).
Proof.
  apply (X29_download_stops world_B video_A [subtitle_de] [subtitle_de]
           subtitle_en (txt "UC123/video-en.vtt") (txt "user")
           (txt "https://sub/en.vtt") no_timestamp KeyError).
  - repeat constructor. unfold fails_to_load. repeat eexists.
  - reflexivity.
  - reflexivity.
  - reflexivity.
  - reflexivity.
  - vm_compute. reflexivity.
Defined.

(** X30. The subtitles of a video never overwrite the video: after
    [add_file_path], every file [download_subtitles] writes for the
    list [get_subtitles] returned has a path that ends in [".vtt"], and
    none is written at the path of the video file, under whatever
    directory. *)
Theorem X30_download_spares_video (clean_string : str -> str) (W : world)
    (v v1 v2 : video) (languages : option (list str)) (subs : list format)
    (effs : list effect) (r : option raised) :
  add_file_path clean_string v = Ok v1 ->
  get_subtitles v1 languages = Ok (v2, Some subs) ->
  download_subtitles W v2 subs = (effs, r) ->
  Forall (fun p => exists stem, p = stem ++ txt ".vtt") (written effs) /\
  forall base mu, media_url (json v1) = Some mu ->
    ~ In (path_join base mu) (written effs).
Proof.
  intros Ha Hg Hd.
  apply add_file_path_out in Ha
    as (ch & name & dir & p & yid & t & _ & _ & _ & _ & _ & _ & ->).
  match type of Hg with context [path_join dir ?f] =>
    destruct (path_join_suffix dir f) as [pre E]; rewrite E in * end.
  rewrite !app_assoc in *.
  apply get_subtitles_relevant in Hg as [Hrel _].
  assert (Hw : forall q, In q (written effs) ->
            exists lang stem, q = stem ++ txt "-" ++ lang ++ txt ".vtt").
  { intros q Hq.
    destruct (download_written _ _ _ _ _ Hd q Hq) as (s & mu & Hin & Hmu & ->).
    rewrite List.Forall_forall in Hrel.
    destruct (relevant_path _ s _ (Hrel s Hin) eq_refl) as (lang & stem & _ & Hm).
    rewrite Hm in Hmu. apply (inj Some) in Hmu. subst mu.
    destruct (path_join_suffix (conf_videos v2)
                (stem ++ txt "-" ++ lang ++ txt ".vtt")) as [pre' ->].
    exists lang, (pre' ++ stem). now rewrite <- app_assoc. }
  split.
  - apply List.Forall_forall. intros q Hq.
    destruct (Hw q Hq) as (lang & stem & ->).
    exists (stem ++ txt "-" ++ lang). now rewrite <- !app_assoc.
  - intros base mu Hmu Hin. cbn [json set_json media_url set_media_url] in Hmu.
    apply (inj Some) in Hmu. subst mu.
    match type of Hin with context [path_join base ?f] =>
      destruct (path_join_suffix base f) as [pre' E']; rewrite E' in Hin end.
    destruct (Hw _ Hin) as (lang & stem & H).
    rewrite app_assoc in H. symmetry in H. now apply vtt_not_mp4 in H.
Qed.

Lemma X30_download_spares_video_witness :
  exists v1 v2 subs effs r,
    add_file_path (fun s => s) video_A = Ok v1 /\
    get_subtitles v1 None = Ok (v2, Some subs) /\
    download_subtitles world_A v2 subs = (effs, r) /\
    Forall (fun p => exists stem, p = stem ++ txt ".vtt") (written effs).
Proof.
  eexists. eexists. eexists. eexists. eexists.
  split; [vm_compute; reflexivity|]. split; [vm_compute; reflexivity|].
  split; [vm_compute; reflexivity|].
  eapply (X30_download_spares_video (fun s => s) world_A video_A _ _ None);
    vm_compute; reflexivity.
Defined.
